(** * xssrecon: the reflection and filter-probe engine

    A shallow embedding of [pkg/utils/utils.go] (the target generator),
    of [pkg/scanner] (the per-URL state machine, the character probes and
    the JSON records) and of the two [main] drivers, together with the
    part of Go's [strings] and [net/url] packages that this code calls.

    Go strings are byte sequences: they are modelled by [string], whose
    characters are the 256 values of [ascii]. *)

From Stdlib Require Import ZArith NArith Ascii String.
From stdpp Require Import gmap strings list fin_maps sorting.

Local Open Scope string_scope.
Local Open Scope list_scope.

(* ===================================================================== *)
(** * Package [strings] *)
(* ===================================================================== *)

Module Strings.

(** [strings.HasPrefix(s, prefix)]. *)
Fixpoint HasPrefix (s prefix : string) {struct prefix} : bool :=
  match prefix with
  | EmptyString => true
  | String p prefix' =>
      match s with
      | EmptyString => false
      | String c s' => if Ascii.eqb c p then HasPrefix s' prefix' else false
      end
  end.

(** [strings.Contains(s, substr)]: [substr] starts at some offset of [s]. *)
Fixpoint Contains (s substr : string) : bool :=
  HasPrefix s substr ||
  match s with
  | EmptyString => false
  | String _ s' => Contains s' substr
  end.

(** [s[n:]], clamped at the end of [s]. *)
Fixpoint skipn (n : nat) (s : string) : string :=
  match n, s with
  | O, _ => s
  | S _, EmptyString => EmptyString
  | S k, String _ s' => skipn k s'
  end.

(** The scan of [strings.Replace(s, old, new, -1)] for a non-empty [old]:
    left to right, the leftmost occurrence is rewritten and the scan
    resumes behind it.  [skip] counts the bytes of the occurrence that are
    still to be passed over. *)
Fixpoint replaceFrom (old new : string) (skip : nat) (s : string) : string :=
  match s with
  | EmptyString => EmptyString
  | String c s' =>
      match skip with
      | S k => replaceFrom old new k s'
      | O =>
          if HasPrefix s old
          then new +:+ replaceFrom old new (String.length old - 1) s'
          else String c (replaceFrom old new 0 s')
      end
  end.

(** The pieces between the occurrences that this scan rewrites:
    [strings.Split(s, old)] for a non-empty [old]. *)
Fixpoint splitFrom (old : string) (skip : nat) (s : string) : list string :=
  match s with
  | EmptyString => [EmptyString]
  | String c s' =>
      match skip with
      | S k => splitFrom old k s'
      | O =>
          if HasPrefix s old
          then EmptyString :: splitFrom old (String.length old - 1) s'
          else match splitFrom old 0 s' with
               | piece :: rest => String c piece :: rest
               | [] => [String c EmptyString]
               end
      end
  end.

(** For [old = ""] Go inserts [new] in front of every UTF-8 sequence and at
    the end; on that degenerate argument this model inserts at every byte,
    which is the same on ASCII text.  The scanner only passes the
    nine-byte placeholder token. *)
Fixpoint interleave (new s : string) : string :=
  match s with
  | EmptyString => new
  | String c s' => new +:+ String c (interleave new s')
  end.

(** [strings.ReplaceAll(s, old, new)]. *)
Definition ReplaceAll (s old new : string) : string :=
  match old with
  | EmptyString => interleave new s
  | String _ _ => replaceFrom old new 0 s
  end.

(** [strings.Cut(s, sep)] for a one-byte separator: the text before and
    after the first [sep], and whether [sep] was found. *)
Fixpoint Cut (s : string) (sep : ascii) : string * string * bool :=
  match s with
  | EmptyString => (EmptyString, EmptyString, false)
  | String c s' =>
      if Ascii.eqb c sep then (EmptyString, s', true)
      else let '(before, after, found) := Cut s' sep in
           (String c before, after, found)
  end.

(** [strings.Split(s, sep)] for a one-byte separator. *)
Fixpoint Split (s : string) (sep : ascii) : list string :=
  match s with
  | EmptyString => [EmptyString]
  | String c s' =>
      if Ascii.eqb c sep then EmptyString :: Split s' sep
      else match Split s' sep with
           | piece :: rest => String c piece :: rest
           | [] => [String c EmptyString]
           end
  end.

(** [strings.Count(s, sep)] for a one-byte separator. *)
Fixpoint Count (s : string) (sep : ascii) : nat :=
  match s with
  | EmptyString => 0
  | String c s' => (if Ascii.eqb c sep then 1 else 0) + Count s' sep
  end.

(** [strings.HasSuffix(s, sep)] for a one-byte suffix. *)
Fixpoint HasSuffix (s : string) (sep : ascii) : bool :=
  match s with
  | EmptyString => false
  | String c EmptyString => Ascii.eqb c sep
  | String _ s' => HasSuffix s' sep
  end.

(** [s[:len(s)-1]]. *)
Fixpoint dropLast (s : string) : string :=
  match s with
  | EmptyString => EmptyString
  | String _ EmptyString => EmptyString
  | String c s' => String c (dropLast s')
  end.

(** [strings.Join(elems, sep)]. *)
Fixpoint Join (elems : list string) (sep : string) : string :=
  match elems with
  | [] => EmptyString
  | [e] => e
  | e :: rest => e +:+ sep +:+ Join rest sep
  end.

End Strings.

(* ===================================================================== *)
(** * Go values shared by the packages *)
(* ===================================================================== *)

(** The [error] values that the program builds or passes on. *)
Inductive error : Type :=
  | errorString (msg : string)               (* errors.New, fmt.Errorf without verb *)
  | urlError (op url : string) (err : error) (* *url.Error *)
  | wrapError (prefix : string) (err : error) (* fmt.Errorf(prefix+"%w", err) *).

(** [range] over a Go map visits the entries in an order that the language
    leaves unspecified and that may change from one loop to the next.  The
    run-time's choice for one loop is a function that rearranges the
    entries; a loop of the program is told which choice the run-time made. *)
Definition RangeOrder : Type :=
  list (string * list string) → list (string * list string).

(** A legal choice only permutes the entries. *)
Definition legalOrder (ro : RangeOrder) : Prop :=
  ∀ entries, ro entries ≡ₚ entries.

(* ===================================================================== *)
(** * Package [net/url] *)
(* ===================================================================== *)

Module NetURL.

(** [url.Values] is [map[string][]string]. *)
Abbreviation Values := (gmap string (list string)).

Definition byteIn (lo hi c : ascii) : bool :=
  (N_of_ascii lo <=? N_of_ascii c)%N && (N_of_ascii c <=? N_of_ascii hi)%N.

Definition ishex (c : ascii) : bool :=
  byteIn "0" "9" c || byteIn "a" "f" c || byteIn "A" "F" c.

Definition unhex (c : ascii) : N :=
  if byteIn "0" "9" c then N_of_ascii c - N_of_ascii "0"
  else if byteIn "a" "f" c then N_of_ascii c - N_of_ascii "a" + 10
  else if byteIn "A" "F" c then N_of_ascii c - N_of_ascii "A" + 10
  else 0.

(** [upperhex[n]] for [n < 16]. *)
Definition upperhex (n : N) : ascii :=
  if (n <? 10)%N then ascii_of_N (N_of_ascii "0" + n)
  else ascii_of_N (N_of_ascii "A" + (n - 10)).

(** [shouldEscape(c, encodeQueryComponent)]: letters, digits and the four
    marks [-_.~] are the only bytes written as they are. *)
Definition shouldEscape (c : ascii) : bool :=
  if byteIn "a" "z" c || byteIn "A" "Z" c || byteIn "0" "9" c then false
  else if Ascii.eqb c "-" || Ascii.eqb c "_" || Ascii.eqb c "." || Ascii.eqb c "~"
  then false
  else true.

(** [url.QueryEscape(s)]. *)
Fixpoint QueryEscape (s : string) : string :=
  match s with
  | EmptyString => EmptyString
  | String c s' =>
      if shouldEscape c then
        if Ascii.eqb c " " then String "+" (QueryEscape s')
        else String "%" (String (upperhex (N.shiftr (N_of_ascii c) 4))
                        (String (upperhex (N.land (N_of_ascii c) 15))
                        (QueryEscape s')))
      else String c (QueryEscape s')
  end.

(** [url.QueryUnescape(s)]; [None] stands for the [EscapeError] that a
    [%] not followed by two hexadecimal digits gives. *)
Fixpoint QueryUnescape (s : string) : option string :=
  match s with
  | EmptyString => Some EmptyString
  | String c s' =>
      if Ascii.eqb c "%" then
        match s' with
        | String a (String b s'') =>
            if ishex a && ishex b
            then String (ascii_of_N (N.lor (N.shiftl (unhex a) 4) (unhex b)))
                   <$> QueryUnescape s''
            else None
        | _ => None
        end
      else if Ascii.eqb c "+" then String " " <$> QueryUnescape s'
      else String c <$> QueryUnescape s'
  end.

(** [m[key] = append(m[key], value)], which is also [Values.Add]. *)
Definition Add (m : Values) (key value : string) : Values :=
  <[key := default [] (m !! key) ++ [value]]> m.

(** [Values.Set]. *)
Definition Set_ (m : Values) (key value : string) : Values :=
  <[key := [value]]> m.

(** One turn of the loop of [parseQuery] on the segment [key] that
    [strings.Cut(query, "&")] took off the query.  A segment with a
    semicolon, an empty segment and a segment with a bad escape are
    passed over (the error they set is the one [Query] throws away). *)
Definition parseSegment (key : string) : option (string * string) :=
  if Strings.Contains key ";" then None
  else if String.eqb key "" then None
  else
    let '(key, value, _) := Strings.Cut key "=" in
    match QueryUnescape key with
    | None => None
    | Some key =>
        match QueryUnescape value with
        | None => None
        | Some value => Some (key, value)
        end
    end.

(** The decoded pairs of a query, in the order of the text.  The loop
    [for query != ""] cuts the query at each ["&"] in turn, so the segments
    it sees are the ones of [strings.Split(query, "&")] (a last empty
    segment, which the loop does not reach, is one it would pass over). *)
Definition queryPairs (query : string) : list (string * string) :=
  omap parseSegment (Strings.Split query "&").

(** [defaultMaxParams], and [urlParamsWithinMax(params)] for a process
    that runs without the setting [urlmaxqueryparams] of [GODEBUG]. *)
Definition defaultMaxParams : Z := 10000.

Definition urlParamsWithinMax (params : Z) : bool :=
  (params <=? defaultMaxParams)%Z.

(** [parseQuery(m, query)], without its error: a query of more segments
    than the limit is refused before the loop starts, and [m] stays as it
    is ("number of URL query parameters exceeded limit"). *)
Definition parseQuery (m : Values) (query : string) : Values :=
  if negb (urlParamsWithinMax (Z.of_nat (Strings.Count query "&") + 1)) then m
  else foldl (λ m kv, Add m kv.1 kv.2) m (queryPairs query).

(** [url.ParseQuery(query)], without its error. *)
Definition ParseQuery (query : string) : Values := parseQuery ∅ query.

(** [slices.Sort] orders Go strings byte-wise: that is [String.le]. *)

(** The keys of a map in increasing order: the slice [keys] of [Encode]
    after [slices.Sort].  (It does not depend on the order in which the
    [range] loop collected them.) *)
Definition sortedKeys (v : Values) : list string :=
  merge_sort String.le (map_to_list v).*1.

(** The inner loop of [Encode] for one key. *)
Definition encodeKey (buf : string) (k : string) (vs : list string) : string :=
  let keyEscaped := QueryEscape k in
  foldl (λ buf v,
           (if Nat.ltb 0 (String.length buf) then buf +:+ "&" else buf)
             +:+ keyEscaped +:+ "=" +:+ QueryEscape v)
        buf vs.

(** [Values.Encode]. *)
Definition Encode (v : Values) : string :=
  if Nat.eqb (size v) 0 then ""
  else foldl (λ buf k, encodeKey buf k (default [] (v !! k))) "" (sortedKeys v).

(** ** URLs

    The generator reads and writes one field of a parsed URL, [RawQuery].
    What [url.Parse] does with the text in front of the query (scheme,
    user, host, path) and with the fragment, and how [URL.String] writes
    them back, is the business of [net/url] alone; it is kept behind this
    interface. *)
Class URLSyntax : Type := {
  (** [Scheme], [Opaque], [User], [Host], [Path], [RawPath], [OmitHost] *)
  Hier : Type;
  (** the part of [parse] that fills these fields, from the text in front
      of the query *)
  parseHier : string → Hier + error;
  (** what [String] writes in front of the query *)
  hierString : Hier → string;
  (** [Fragment], [RawFragment] *)
  Frag : Type;
  (** [setFragment] *)
  parseFragment : string → Frag + error;
  (** [EscapedFragment] *)
  fragString : Frag → string
}.

Section URL.
Context `{URLSyntax}.

Record URL : Type := mkURL {
  hier : Hier;
  ForceQuery : bool;
  RawQuery : string;
  Fragment : option Frag   (* [None]: the field is empty *)
}.

(** [stringContainsCTLByte]. *)
Fixpoint stringContainsCTLByte (s : string) : bool :=
  match s with
  | EmptyString => false
  | String b s' =>
      (N_of_ascii b <? 32)%N || (N_of_ascii b =? 127)%N || stringContainsCTLByte s'
  end.

(** [url.Parse(rawURL)].  [parse] takes the scheme off before it cuts the
    query off; a scheme holds no question mark, so the text in front of
    the query is the same either way, and [parseHier] is given it whole. *)
Definition Parse (rawURL : string) : URL + error :=
  let '(u, frag, _) := Strings.Cut rawURL "#" in
  if stringContainsCTLByte u then
    inr (urlError "parse" u
           (errorString "net/url: invalid control character in URL"))
  else
    let '(rest, force, query) :=
      if Strings.HasSuffix u "?" && Nat.eqb (Strings.Count u "?") 1
      then (Strings.dropLast u, true, "")
      else let '(rest, query, _) := Strings.Cut u "?" in (rest, false, query) in
    match parseHier rest with
    | inr err => inr (urlError "parse" u err)
    | inl h =>
        if String.eqb frag "" then inl (mkURL h force query None)
        else match parseFragment frag with
             | inr err => inr (urlError "parse" rawURL err)
             | inl f => inl (mkURL h force query (Some f))
             end
    end.

(** [u.Query()]. *)
Definition Query (u : URL) : Values := ParseQuery (RawQuery u).

(** [u.String()]. *)
Definition String_ (u : URL) : string :=
  hierString (hier u)
  +:+ (if ForceQuery u || negb (String.eqb (RawQuery u) "")
       then "?" +:+ RawQuery u else "")
  +:+ (match Fragment u with
       | Some f => "#" +:+ fragString f
       | None => ""
       end).

End URL.

End NetURL.

(** ** One syntax: URLs in plain spelling

    An instance of the interface for the examples of this file.  It follows
    [getScheme], the split into opaque part, authority and path of [parse],
    and the order in which [String] writes them.  User, host, path and
    fragment are kept in their escaped spelling, so the instance is exact
    on URLs whose authority is a plain host with an optional port and whose
    path and fragment consist of bytes that [String] writes unchanged,
    such as [http://x/search?q=1]. *)
Module PlainURL.

Record PlainHier : Type := mkHier {
  Scheme : string;
  Opaque : string;
  Authority : string;     (* user and host, escaped *)
  Path : string;          (* escaped *)
  OmitHost : bool
}.

Definition isLetter (c : ascii) : bool :=
  NetURL.byteIn "a" "z" c || NetURL.byteIn "A" "Z" c.

Definition isSchemeMark (c : ascii) : bool :=
  NetURL.byteIn "0" "9" c || Ascii.eqb c "+" || Ascii.eqb c "-" || Ascii.eqb c ".".

(** The loop of [getScheme] from its second turn on. *)
Fixpoint scanScheme (s : string) : option (string * string) :=
  match s with
  | EmptyString => None
  | String c s' =>
      if isLetter c || isSchemeMark c then
        match scanScheme s' with
        | Some (scheme, rest) => Some (String c scheme, rest)
        | None => None
        end
      else if Ascii.eqb c ":" then Some (EmptyString, s')
      else None
  end.

Definition getScheme (rawURL : string) : string * string + error :=
  match rawURL with
  | EmptyString => inl ("", rawURL)
  | String c s' =>
      if isLetter c then
        match scanScheme s' with
        | Some (scheme, rest) => inl (String c scheme, rest)
        | None => inl ("", rawURL)
        end
      else if isSchemeMark c then inl ("", rawURL)
      else if Ascii.eqb c ":" then inr (errorString "missing protocol scheme")
      else inl ("", rawURL)
  end.

Definition toLowerByte (c : ascii) : ascii :=
  if NetURL.byteIn "A" "Z" c then ascii_of_N (N_of_ascii c + 32) else c.

Fixpoint ToLower (s : string) : string :=
  match s with
  | EmptyString => EmptyString
  | String c s' => String (toLowerByte c) (ToLower s')
  end.

(** Every [%] is followed by two hexadecimal digits. *)
Fixpoint validEscapes (s : string) : bool :=
  match s with
  | EmptyString => true
  | String c s' =>
      if Ascii.eqb c "%" then
        match s' with
        | String a (String b s'') => NetURL.ishex a && NetURL.ishex b && validEscapes s''
        | _ => false
        end
      else validEscapes s'
  end.

Definition setPath (h : PlainHier) (p : string) : PlainHier + error :=
  if validEscapes p
  then inl (mkHier (Scheme h) (Opaque h) (Authority h) p (OmitHost h))
  else inr (errorString "invalid URL escape").

Definition parseHier (rest : string) : PlainHier + error :=
  if String.eqb rest "*" then inl (mkHier "" "" "" "*" false)
  else
    match getScheme rest with
    | inr err => inr err
    | inl (scheme, rest) =>
        let scheme := ToLower scheme in
        let url := mkHier scheme "" "" "" false in
        if negb (Strings.HasPrefix rest "/") && negb (String.eqb scheme "")
        then inl (mkHier scheme rest "" "" false)
        else if negb (Strings.HasPrefix rest "/")
                && Strings.Contains (Strings.Cut rest "/").1.1 ":"
        then inr (errorString "first path segment in URL cannot contain colon")
        else if (negb (String.eqb scheme "") || negb (Strings.HasPrefix rest "///"))
                && Strings.HasPrefix rest "//"
        then
          let authority := Strings.skipn 2 rest in
          let '(authority, path, found) := Strings.Cut authority "/" in
          setPath (mkHier scheme "" authority "" false)
                  (if found then String "/" path else "")
        else if negb (String.eqb scheme "") && Strings.HasPrefix rest "/"
        then setPath (mkHier scheme "" "" "" true) rest
        else setPath url rest
    end.

Definition hierString (u : PlainHier) : string :=
  (if negb (String.eqb (Scheme u) "") then Scheme u +:+ ":" else "")
  +:+
  (if negb (String.eqb (Opaque u) "") then Opaque u
   else
     (if negb (String.eqb (Scheme u) "") || negb (String.eqb (Authority u) "")
      then
        if OmitHost u && String.eqb (Authority u) "" then ""
        else
          (if negb (String.eqb (Authority u) "") || negb (String.eqb (Path u) "")
           then "//" else "")
          +:+ Authority u
      else "")
     +:+
     (if negb (String.eqb (Path u) "") && negb (Strings.HasPrefix (Path u) "/")
         && negb (String.eqb (Authority u) "")
      then "/" else "")
     +:+ Path u).

Definition parseFragment (frag : string) : string + error :=
  if validEscapes frag then inl frag
  else inr (errorString "invalid URL escape").

#[global] Instance syntax : NetURL.URLSyntax := {|
  NetURL.Hier := PlainHier;
  NetURL.parseHier := parseHier;
  NetURL.hierString := hierString;
  NetURL.Frag := string;
  NetURL.parseFragment := parseFragment;
  NetURL.fragString := λ f, f
|}.

End PlainURL.

(* ===================================================================== *)
(** * Package [utils]: the target generator *)
(* ===================================================================== *)

Module Utils.
Import NetURL.

Section Generator.
Context `{URLSyntax}.

(** The body of the loop [for k, v := range queryParams], which fills the
    copy [newParams] for the target key [key]. *)
Definition copyParam (key payload : string) (newParams : Values)
    (kv : string * list string) : Values :=
  let '(k, v) := kv in
  if String.eqb k key then Set_ newParams k payload
  else foldl (λ newParams val, Add newParams k val) newParams v.

(** One turn of the loop [for key := range queryParams]: the target in
    which [key] carries the payload.  [inner] is the order the run-time
    chose for the loop over the copy. *)
Definition targetFor (inner : RangeOrder) (u : URL) (queryParams : Values)
    (payload key : string) : string :=
  let newParams :=
    foldl (copyParam key payload) ∅ (inner (map_to_list queryParams)) in
  let newURL := mkURL (hier u) (ForceQuery u) (Encode newParams) (Fragment u) in
  String_ newURL.

(** [GenerateTargetURLs(inputURL, payload)].  [ro 0] is the order of the
    loop over the keys, [ro (S i)] the order of the loop over the copy in
    its [i]-th turn. *)
Definition GenerateTargetURLs (ro : nat → RangeOrder)
    (inputURL payload : string) : list string + error :=
  (* Case 1: URL has {payload} placeholder *)
  if Strings.Contains inputURL "{payload}" then
    let target := Strings.ReplaceAll inputURL "{payload}" payload in
    inl [target]
  else
    (* Case 2: URL has query parameters *)
    match Parse inputURL with
    | inr err => inr (wrapError "invalid URL: " err)
    | inl u =>
        let queryParams := Query u in
        if Nat.eqb (size queryParams) 0
        then inr (errorString "no injection points found")
        else
          inl (imap (λ i kv, targetFor (ro (S i)) u queryParams payload kv.1)
                    (ro 0 (map_to_list queryParams)))
    end.

End Generator.
End Utils.

(* ===================================================================== *)
(** * What the program does to the outside world *)
(* ===================================================================== *)

(** [time.Duration]: a signed 64-bit count of nanoseconds. *)
Definition wrap64 (z : Z) : Z := ((z + 2 ^ 63) mod 2 ^ 64 - 2 ^ 63)%Z.
Definition Second : Z := 1000000000%Z.

(** The two channels through which a candidate is fetched. *)
Inductive Channel : Type := Static | Rendering.

(** One network operation of a run: the channel, the URL, the deadline it
    was issued under ([None]: no deadline) and what came back. *)
Record Call : Type := mkCall {
  channel : Channel;
  target : string;
  deadline : option Z;
  reply : string + error
}.

(** Values handed to [fmt.Printf]. *)
Inductive Arg : Type :=
  | AStr (s : string)
  | AErr (e : error)
  | AStrs (l : list string).

(** JSON documents, as [encoding/json] writes them. *)
#[warnings="-register-all"]
Inductive JSON : Type :=
  | JNull
  | JBool (b : bool)
  | JNumber (n : Z)
  | JString (s : string)
  | JArray (l : list JSON)
  | JObject (fields : list (string * JSON)).

(** What is written to standard output.  Format strings are kept in the
    spelling of the Go source (with its backslash escapes). *)
Inductive Out : Type :=
  | Printf (format : string) (args : list Arg)
  | Println (s : string)
  | PrintlnJSON (j : JSON).   (* fmt.Println(string(jsonBytes)) *)

(** One run of an external command: its arguments, its standard input and
    what [cmd.Run] gave (standard output, or the error). *)
Record Command : Type := mkCommand {
  argv : list string;
  stdin : string;
  result : string + error
}.

(** The state a run threads: the network operations so far, the external
    commands so far, the number of calls of the target generator so far,
    and standard output. *)
Record World : Type := mkWorld {
  calls : list Call;
  commands : list Command;
  generated : nat;
  stdout : list Out
}.

Definition emptyWorld : World := mkWorld [] [] 0 [].

(** What a run does not control: the reply to its [n]-th network
    operation, the outcome of its [n]-th external command, and the orders
    the run-time picks for the map loops of the [g]-th call of the target
    generator. *)
Record Env : Type := mkEnv {
  net : nat → Channel → string → string + error;
  exec : nat → list string → string → string + error;
  order : nat → nat → RangeOrder
}.

(** The state monad of a run. *)
Definition M (A : Type) : Type := World → A * World.

Definition ret {A : Type} (a : A) : M A := λ w, (a, w).

Definition bind {A B : Type} (m : M A) (k : A → M B) : M B :=
  λ w, let '(a, w') := m w in k a w'.

Notation "'let*' x := m 'in' k" := (bind m (λ x, k))
  (at level 10, x name, m at level 100, k at level 200).
Notation "m ;;; k" := (bind m (λ _, k))
  (at level 100, right associativity).

Definition when (b : bool) (m : M unit) : M unit := if b then m else ret tt.

Definition print (o : Out) : M unit :=
  λ w, (tt, mkWorld (calls w) (commands w) (generated w) (stdout w ++ [o])).

Definition perform (env : Env) (ch : Channel) (dl : option Z) (url : string)
    : M (string + error) :=
  λ w, let r := net env (length (calls w)) ch url in
       (r, mkWorld (calls w ++ [mkCall ch url dl r]) (commands w) (generated w)
             (stdout w)).

Fixpoint forM {A : Type} (l : list A) (f : A → M unit) : M unit :=
  match l with
  | [] => ret tt
  | a :: l' => f a ;;; forM l' f
  end.

Fixpoint foldM {A S : Type} (f : S → A → M S) (s : S) (l : list A) : M S :=
  match l with
  | [] => ret s
  | a :: l' => let* s' := f s a in foldM f s' l'
  end.

(* ===================================================================== *)
(** * Package [scanner] *)
(* ===================================================================== *)

Module Scanner.
Import NetURL.

Definition dquote : string := String "034"%char EmptyString.

Definition specialChars : list string :=
  ["'"; dquote; "<"; ">"; "("; ")"; "`"; "{"; "}"; "/"; "\"; ";"].

Definition conversions : gmap string string :=
  list_to_map [("'", "&#039;"); (dquote, "&quot;"); ("<", "&lt;"); (">", "&gt;")].

Record Options : Type := mkOptions {
  UserAgent : string;
  Timeout : Z;
  SkipSpecialChar : bool;
  NoColor : bool;
  Verbose : bool;
  JSONOutput_ : bool;
  Proxy : string;
  Concurrency : Z;
  VerifySSL : bool
}.

(** A slice or map field is [None] when it is [nil]. *)
Record JSONOutput : Type := mkJSONOutput {
  Processing : string;
  BaseURL : string;
  Reflected : bool;
  Allowed : option (list string);
  Blocked : option (list string);
  Converted : option (list string);
  Count : option (gmap string Z)
}.

(** The zero value of [var output JSONOutput]. *)
Definition zeroOutput : JSONOutput := mkJSONOutput "" "" false None None None None.

(** [json.Marshal] of a [[]string]: [null] for a nil slice. *)
Definition marshalStrings (l : option (list string)) : JSON :=
  match l with
  | None => JNull
  | Some l => JArray (JString <$> l)
  end.

(** [json.Marshal] of a [map[string]int]: [null] for a nil map, else the
    entries with their keys in increasing order. *)
Definition marshalCount (m : option (gmap string Z)) : JSON :=
  match m with
  | None => JNull
  | Some m =>
      JObject ((λ k, (k, JNumber (default 0%Z (m !! k))))
                 <$> merge_sort String.le (map_to_list m).*1)
  end.

(** [json.MarshalIndent(output, "", "  ")], as a document. *)
Definition Marshal (output : JSONOutput) : JSON :=
  JObject [("processing", JString (Processing output));
           ("baseurl", JString (BaseURL output));
           ("reflected", JBool (Reflected output));
           ("allowed", marshalStrings (Allowed output));
           ("blocked", marshalStrings (Blocked output));
           ("converted", marshalStrings (Converted output));
           ("count", marshalCount (Count output))].

(** Options of [chromedp.NewExecAllocator]. *)
Inductive ExecAllocatorOption : Type :=
  | DefaultExecAllocatorOptions
  | Flag (name : string) (value : bool)
  | ProxyServer (proxy : string).

(** The browser session; its contexts are made from [allocOpts]. *)
Record DOMScanner : Type := mkDOMScanner {
  allocOpts : list ExecAllocatorOption
}.

Definition NewDOMScanner (timeout : Z) (proxy : string) (verifySSL : bool)
    : DOMScanner + error :=
  let opts := [DefaultExecAllocatorOptions;
               Flag "headless" true;
               Flag "disable-gpu" true;
               Flag "no-sandbox" true;
               Flag "disable-dev-shm-usage" true] in
  let opts := if negb verifySSL
              then opts ++ [Flag "ignore-certificate-errors" true] else opts in
  let opts := if negb (String.eqb proxy "")
              then opts ++ [ProxyServer proxy] else opts in
  inl (mkDOMScanner opts).

(** [http.Transport] and [http.Client], with the fields the scanner sets. *)
Record Transport : Type := mkTransport {
  InsecureSkipVerify : bool;
  TransportProxy : option string
}.

Record Client : Type := mkClient {
  ClientTransport : Transport;
  ClientTimeout : Z       (* a time.Duration *)
}.

Record Scanner : Type := mkScanner {
  opts : Options;
  client : Client;
  domScanner : DOMScanner
}.

Section WithSyntax.
Context `{URLSyntax}.

Definition NewScanner (opts : Options) : Scanner + error :=
  let tr := mkTransport (negb (VerifySSL opts)) None in
  let tr :=
    if negb (String.eqb (Proxy opts) "") then
      match Parse (Proxy opts) with
      | inr err => inr (wrapError "invalid proxy URL: " err)
      | inl proxyURL => inl (mkTransport (InsecureSkipVerify tr) (Some (String_ proxyURL)))
      end
    else inl tr in
  match tr with
  | inr err => inr err
  | inl tr =>
      let client := mkClient tr (wrap64 (wrap64 (Timeout opts) * Second)) in
      match NewDOMScanner (Timeout opts) (Proxy opts) (VerifySSL opts) with
      | inr err => inr err
      | inl domScanner => inl (mkScanner opts client domScanner)
      end
  end.

Section Run.
Variable env : Env.
Variable s : Scanner.

(** The deadline of [http.Client.Do]: [Client.Timeout] when it is positive
    ("a Timeout of zero means no timeout"). *)
Definition clientDeadline (c : Client) : option Z :=
  if (0 <? ClientTimeout c)%Z then Some (ClientTimeout c) else None.

(** [s.fetch(url)]: one GET through [s.client]. *)
Definition fetch (url : string) : M (string + error) :=
  perform env Static (clientDeadline (client s)) url.

(** [s.domScanner.GetDOM(url)]: navigate, wait, read the document, under
    [context.WithTimeout(s.ctx, 30*time.Second)]. *)
Definition GetDOM (url : string) : M (string + error) :=
  perform env Rendering (Some (30 * Second)%Z) url.

(** A call of [utils.GenerateTargetURLs]. *)
Definition generate (inputURL payload : string) : M (list string + error) :=
  λ w, (Utils.GenerateTargetURLs (order env (generated w)) inputURL payload,
        mkWorld (calls w) (commands w) (S (generated w)) (stdout w)).

Definition printReflected (reflected : bool) : M unit :=
  if JSONOutput_ (opts s) then ret tt
  else if reflected then
    if NoColor (opts s) then print (Println "REFLECTED: YES")
    else print (Println "\033[92mREFLECTED: YES\033[0m")
  else
    if NoColor (opts s) then print (Println "REFLECTED: NO")
    else print (Println "\033[91mREFLECTED: NO\033[0m").

Definition zeroCount : gmap string Z :=
  list_to_map [("allowed", 0%Z); ("blocked", 0%Z); ("converted", 0%Z)].

Definition printJSON (output : JSONOutput) : M unit :=
  if negb (JSONOutput_ (opts s)) then ret tt
  else
    let output :=
      mkJSONOutput (Processing output) (BaseURL output) (Reflected output)
        (Some (default [] (Allowed output)))
        (Some (default [] (Blocked output)))
        (Some (default [] (Converted output)))
        (Some (default zeroCount (Count output))) in
    print (PrintlnJSON (Marshal output)).

(** The three result slices of [checkSpecialChars]. *)
Record Sets : Type := mkSets {
  allowed : list string;
  blocked : list string;
  converted : list string
}.

(** The body of the loop [for _, char := range specialChars]. *)
Definition probe (inputURL : string) (reflectedInDOM : bool)
    (acc : Sets) (char : string) : M Sets :=
  let* r := generate inputURL ("rix4uni" +:+ char) in
  match r with
  | inr _ => ret acc
  | inl [] => ret acc
  | inl (testURL :: _) =>
      when (Verbose (opts s) && negb (JSONOutput_ (opts s)))
        (if NoColor (opts s)
         then print (Printf "CHECKING: %s\n" [AStr testURL])
         else print (Printf "\033[95mCHECKING: %s\033[0m\n" [AStr testURL])) ;;;
      let* r := (if reflectedInDOM then GetDOM testURL else fetch testURL) in
      match r with
      | inr _ => ret acc
      | inl testBody =>
          if Strings.Contains testBody ("rix4uni" +:+ char) then
            ret (mkSets (allowed acc ++ [char]) (blocked acc) (converted acc))
          else
            match conversions !! char with
            | Some conv =>
                if Strings.Contains testBody ("rix4uni" +:+ conv) then
                  ret (mkSets (allowed acc) (blocked acc)
                         (converted acc ++ [char +:+ " ➔ " +:+ conv]))
                else
                  ret (mkSets (allowed acc) (blocked acc ++ [char]) (converted acc))
            | None =>
                ret (mkSets (allowed acc) (blocked acc ++ [char]) (converted acc))
            end
      end
  end.

Definition lenZ {A : Type} (l : list A) : Z := Z.of_nat (length l).

Definition checkSpecialChars (inputURL baseURL : string) (reflectedInDOM : bool)
    (output : JSONOutput) : M JSONOutput :=
  let* r := foldM (probe inputURL reflectedInDOM) (mkSets [] [] []) specialChars in
  let output :=
    mkJSONOutput (Processing output) (BaseURL output) (Reflected output)
      (Some (allowed r)) (Some (blocked r)) (Some (converted r))
      (Some (list_to_map [("allowed", lenZ (allowed r));
                          ("blocked", lenZ (blocked r));
                          ("converted", lenZ (converted r))])) in
  when (negb (JSONOutput_ (opts s)))
    (if NoColor (opts s) then
       print (Printf "ALLOWED: %v\n" [AStrs (allowed r)]) ;;;
       print (Printf "BLOCKED: %v\n" [AStrs (blocked r)]) ;;;
       print (Printf "CONVERTED: %v\n" [AStrs (converted r)])
     else
       print (Printf "\033[32mALLOWED: %v\033[0m\n" [AStrs (allowed r)]) ;;;
       print (Printf "\033[31mBLOCKED: %v\033[0m\n" [AStrs (blocked r)]) ;;;
       print (Printf "\033[33mCONVERTED: %v\033[0m\n" [AStrs (converted r)])) ;;;
  ret output.

Definition setReflected (output : JSONOutput) (b : bool) : JSONOutput :=
  mkJSONOutput (Processing output) (BaseURL output) b
    (Allowed output) (Blocked output) (Converted output) (Count output).

Definition processBaseURL (inputURL baseURL : string) : M unit :=
  let output := mkJSONOutput inputURL baseURL false None None None None in
  when (negb (JSONOutput_ (opts s)))
    (if NoColor (opts s)
     then print (Printf "BASEURL: %s\n" [AStr baseURL])
     else print (Printf "\033[94mBASEURL: %s\033[0m\n" [AStr baseURL])) ;;;
  (* 1. Check Normal Reflection *)
  let* r := fetch baseURL in
  match r with
  | inr err =>
      when (Verbose (opts s))
        (print (Printf "Error fetching base URL: %v\n" [AErr err]))
  | inl body =>
      let* r := (if negb (Strings.Contains body "rix4uni") then
             (* 2. Check DOM Reflection *)
             let* r := GetDOM baseURL in
             match r with
             | inr err =>
                 when (Verbose (opts s))
                   (print (Printf "Error fetching DOM: %v\n" [AErr err])) ;;;
                 ret None
             | inl body =>
                 ret (Some (body, Strings.Contains body "rix4uni"))
             end
           else ret (Some (body, false))) in
      match r with
      | None => ret tt
      | Some (body, reflectedInDOM) =>
          if Strings.Contains body "rix4uni" then
            let output := setReflected output true in
            printReflected true ;;;
            if SkipSpecialChar (opts s) then printJSON output
            else
              let* output := checkSpecialChars inputURL baseURL reflectedInDOM output in
              printJSON output
          else
            let output := setReflected output false in
            printReflected false ;;;
            printJSON output
      end
  end.

Definition Scan (inputURL : string) : M unit :=
  when (negb (JSONOutput_ (opts s)))
    (if NoColor (opts s)
     then print (Printf "\nPROCESSING: %s\n" [AStr inputURL])
     else print (Printf "\n\033[96mPROCESSING: %s\033[0m\n" [AStr inputURL])) ;;;
  let* r := generate inputURL "rix4uni" in
  match r with
  | inr err =>
      when (Verbose (opts s))
        (print (Printf "Error generating target URLs: %v\n" [AErr err]))
  | inl baseURLs =>
      forM baseURLs (λ baseURL, processBaseURL inputURL baseURL)
  end.

End Run.
End WithSyntax.
End Scanner.

(* ===================================================================== *)
(** * Package [main]: the driver *)
(* ===================================================================== *)

Module Main.
Import NetURL Scanner.

(** [bufio.MaxScanTokenSize]. *)
Definition MaxScanTokenSize : N := 65536%N.

Definition newline : ascii := "010"%char.
Definition carriageReturn : ascii := "013"%char.

(** [dropCR] of [bufio.ScanLines]. *)
Definition dropCR (data : string) : string :=
  if Strings.HasSuffix data carriageReturn then Strings.dropLast data else data.

(** The text between the newlines; what follows the last newline is a line
    only if it is not empty. *)
Definition rawLines (input : string) : list string :=
  let pieces := Strings.Split input newline in
  match last pieces with
  | Some EmptyString => removelast pieces
  | _ => pieces
  end.

(** The tokens of [bufio.NewScanner(os.Stdin)] with its default split
    function, up to the first line that does not fit the buffer, and
    [sc.Err()]. *)
Fixpoint scanTokens (lines : list string) : list string * option error :=
  match lines with
  | [] => ([], None)
  | line :: rest =>
      if (MaxScanTokenSize <=? N.of_nat (String.length line))%N
      then ([], Some (errorString "bufio.Scanner: token too long"))
      else let '(tokens, err) := scanTokens rest in (dropCR line :: tokens, err)
  end.

(** The values that the loop [for sc.Scan() { jobs <- sc.Text() }] sends
    to the workers. *)
Definition jobs (input : string) : list string :=
  (scanTokens (rawLines input)).1.

Section Run.
Context `{URLSyntax}.
Variable env : Env.
Variable s : Scanner.

(** The body of one worker: [for url := range jobs { s.Scan(url) }], on
    the values this worker receives. *)
Definition worker (received : list string) : M unit :=
  forM received (Scan env s).

(** [main] with [--concurrency 1] after the scanner is made: the single
    worker receives every job, in the order of the input. *)
Definition mainSingleWorker (input : string) : M unit :=
  worker (jobs input) ;;;
  match (scanTokens (rawLines input)).2 with
  | Some err => print (Printf "Error reading input: %v\n" [AErr err])
  | None => ret tt
  end.

End Run.

(** ** The worker pool of [main]

    The goroutines of [main] in the command's [main.go] (the file whose
    text the repository's README.md carries) as a transition system.  One step is one
    move of one goroutine, picked by the scheduler; a goroutine that is
    blocked has no step.

    The system comes in two layers.  The first, [step], keeps what the
    goroutines do to the channel and to the wait group, and takes every
    scan to return: it is the frame in which the moves are counted and
    ordered.  The second, [stepSystem] below, runs it with the scans: the
    return of [s.Scan(url)] is the computation [Scan] above, applied to
    the world of the worker, and a scan that waits for a reply without
    deadline does not return. *)

(** Where the main goroutine stands. *)
Inductive MainPC : Type :=
  | Starting (i : Z)        (* at the test of [for i := 0; i < *concurrency; i++] *)
  | Reading                 (* at [sc.Scan()] *)
  | Sending (url : string)  (* at [jobs <- sc.Text()] *)
  | Closing                 (* at [close(jobs)] *)
  | Joining                 (* at [wg.Wait()] *)
  | Returned.                (* past [wg.Wait()] *)

(** Where a worker goroutine stands. *)
Inductive WorkerPC : Type :=
  | Receiving               (* at [for url := range jobs] *)
  | Scanning (url : string) (* in [s.Scan(url)] *)
  | Exited.                 (* after the deferred [wg.Done()] *)

Inductive Event : Type :=
  | Took (i : nat) (url : string)      (* worker [i] received [url] *)
  | Scanned (i : nat) (url : string).  (* [s.Scan(url)] returned in worker [i] *)

Record Pool : Type := mkPool {
  mainPC : MainPC;
  pending : list string;    (* the tokens [sc] has yet to return *)
  closed : bool;            (* [jobs] is closed *)
  wg : Z;                   (* the counter of the wait group *)
  workers : list WorkerPC;  (* the workers, in the order they were started *)
  events : list Event
}.

Inductive Thread : Type := MainThread | WorkerThread (i : nat).

(** [main] is about to start the workers. *)
Definition initial (tokens : list string) : Pool :=
  mkPool (Starting 0) tokens false 0 [] [].

(** A move of the main goroutine.  The channel [jobs] has no buffer: the
    send waits for a worker to receive, and it is the receiving worker
    that completes it. *)
Definition stepMain (concurrency : Z) (p : Pool) : option Pool :=
  match mainPC p with
  | Starting i =>
      if (i <? concurrency)%Z then
        Some (mkPool (Starting (i + 1)) (pending p) (closed p) (wg p + 1)
                (workers p ++ [Receiving]) (events p))
      else
        Some (mkPool Reading (pending p) (closed p) (wg p) (workers p) (events p))
  | Reading =>
      match pending p with
      | url :: rest =>
          Some (mkPool (Sending url) rest (closed p) (wg p) (workers p) (events p))
      | [] =>
          Some (mkPool Closing [] (closed p) (wg p) (workers p) (events p))
      end
  | Sending _ => None
  | Closing =>
      Some (mkPool Joining (pending p) true (wg p) (workers p) (events p))
  | Joining =>
      if (wg p =? 0)%Z then
        Some (mkPool Returned (pending p) (closed p) (wg p) (workers p) (events p))
      else None
  | Returned => None
  end.

(** A move of worker [i]: it receives the value that main is sending,
    leaves its loop when [jobs] is closed, or returns from [s.Scan(url)].
    In this frame the return from a scan is a move like the others;
    whether the scan does return, and what it has done by then, is said
    by [stepSystem]. *)
Definition stepWorker (i : nat) (p : Pool) : option Pool :=
  match workers p !! i with
  | Some Receiving =>
      match mainPC p with
      | Sending url =>
          Some (mkPool Reading (pending p) (closed p) (wg p)
                  (<[i := Scanning url]> (workers p)) (events p ++ [Took i url]))
      | _ =>
          if closed p then
            Some (mkPool (mainPC p) (pending p) (closed p) (wg p - 1)
                    (<[i := Exited]> (workers p)) (events p))
          else None
      end
  | Some (Scanning url) =>
      Some (mkPool (mainPC p) (pending p) (closed p) (wg p)
              (<[i := Receiving]> (workers p)) (events p ++ [Scanned i url]))
  | _ => None
  end.

Definition step (concurrency : Z) (t : Thread) (p : Pool) : option Pool :=
  match t with
  | MainThread => stepMain concurrency p
  | WorkerThread i => stepWorker i p
  end.

(** The pool after the moves of [schedule], if every one of them is a
    move that the goroutine can make. *)
Fixpoint run (concurrency : Z) (schedule : list Thread) (p : Pool) : option Pool :=
  match schedule with
  | [] => Some p
  | t :: rest =>
      match step concurrency t p with
      | Some p' => run concurrency rest p'
      | None => None
      end
  end.

(** [main] from the start of the workers on, under [schedule]. *)
Definition mainPool (concurrency : Z) (input : string) (schedule : list Thread)
    : option Pool :=
  run concurrency schedule (initial (jobs input)).

(** ** The pool with its scans

    Every worker carries the world it has made: the log of its own
    network operations and what it wrote.  (The workers write to one
    standard output and how their lines interleave there is open; a world
    is the share of one worker.) *)

Section Scans.
Context `{URLSyntax}.

(** What the run does not control: the outside world as worker [i] meets
    it, and which of the network operations of worker [i], counted from
    0, never gets a reply.  Such an operation ends at its deadline, with
    the error that [envOf] holds for it, and does not end without one. *)
Record Outside : Type := mkOutside {
  envOf : nat → Env;
  unanswered : nat → nat → bool
}.

(** One of the operations [cs], the first of which is number [n], waits
    for ever: it gets no reply and carries no deadline.  ([http.Client.Do]
    with [Timeout] zero has no time limit; an operation with a deadline
    returns when the deadline expires.) *)
Fixpoint waitsForever (silent : nat → bool) (n : nat) (cs : list Call) : bool :=
  match cs with
  | [] => false
  | c :: cs' =>
      match deadline c with
      | None => silent n
      | Some _ => false
      end || waitsForever silent (S n) cs'
  end.

(** [s.Scan(url)] in worker [i], started in the world [w] of the worker,
    does not return: one of the operations it issues waits for ever. *)
Definition stalls (out : Outside) (s : Scanner) (i : nat) (url : string)
    (w : World) : bool :=
  waitsForever (unanswered out i) (length (calls w))
    (drop (length (calls w)) (calls (Scan (envOf out i) s url w).2)).

Record System : Type := mkSystem {
  pool : Pool;
  worlds : list World   (* the world of each worker, in the order they were started *)
}.

(** A move of a goroutine.  A worker that main starts has made nothing
    yet.  A worker in [s.Scan(url)] moves when the scan returns, and its
    world is then the one the scan leaves. *)
Definition stepSystem (out : Outside) (s : Scanner) (concurrency : Z)
    (t : Thread) (st : System) : option System :=
  match t with
  | MainThread =>
      match stepMain concurrency (pool st) with
      | Some p' =>
          Some (mkSystem p'
                  match mainPC (pool st) with
                  | Starting i =>
                      if (i <? concurrency)%Z then worlds st ++ [emptyWorld]
                      else worlds st
                  | _ => worlds st
                  end)
      | None => None
      end
  | WorkerThread i =>
      match workers (pool st) !! i with
      | Some (Scanning url) =>
          let w := default emptyWorld (worlds st !! i) in
          if stalls out s i url w then None
          else
            match stepWorker i (pool st) with
            | Some p' =>
                Some (mkSystem p'
                        (<[i := (Scan (envOf out i) s url w).2]> (worlds st)))
            | None => None
            end
      | _ =>
          match stepWorker i (pool st) with
          | Some p' => Some (mkSystem p' (worlds st))
          | None => None
          end
      end
  end.

Fixpoint runSystem (out : Outside) (s : Scanner) (concurrency : Z)
    (schedule : list Thread) (st : System) : option System :=
  match schedule with
  | [] => Some st
  | t :: rest =>
      match stepSystem out s concurrency t st with
      | Some st' => runSystem out s concurrency rest st'
      | None => None
      end
  end.

(** [main] after the scanner [s] is made, under [schedule]. *)
Definition mainSystem (out : Outside) (s : Scanner) (concurrency : Z)
    (input : string) (schedule : list Thread) : option System :=
  runSystem out s concurrency schedule (mkSystem (initial (jobs input)) []).

End Scans.

End Main.

(* ===================================================================== *)
(** * The earlier single-file program ([package main] with [pvreplace]) *)
(* ===================================================================== *)

Module Legacy.

(** The white space of [unicode.IsSpace], as UTF-8 byte sequences: the six
    ASCII ones, U+0085, U+00A0, U+1680, U+2000 to U+200A, U+2028, U+2029,
    U+202F, U+205F and U+3000. *)
Definition bytes (l : list nat) : string :=
  string_of_list_ascii (ascii_of_nat <$> l).

Definition spaces : list string :=
  bytes <$> [[9]; [10]; [11]; [12]; [13]; [32];
             [194; 133]; [194; 160]; [225; 154; 128];
             [226; 128; 128]; [226; 128; 129]; [226; 128; 130];
             [226; 128; 131]; [226; 128; 132]; [226; 128; 133];
             [226; 128; 134]; [226; 128; 135]; [226; 128; 136];
             [226; 128; 137]; [226; 128; 138];
             [226; 128; 168]; [226; 128; 169]; [226; 128; 175];
             [226; 129; 159]; [227; 128; 128]].

(** [strings.TrimLeftFunc(s, unicode.IsSpace)]; [fuel] bounds the number
    of sequences taken off, and the length of [s] is enough. *)
Fixpoint trimLeft (seqs : list string) (fuel : nat) (s : string) : string :=
  match fuel with
  | O => s
  | S fuel' =>
      match list_find (Strings.HasPrefix s) seqs with
      | Some (_, seq) => trimLeft seqs fuel' (Strings.skipn (String.length seq) s)
      | None => s
      end
  end.

(** [strings.TrimSpace(s)]: the last rune of a string is white space when
    the string ends with one of the sequences. *)
Definition TrimSpace (s : string) : string :=
  let s := trimLeft spaces (String.length s) s in
  String.rev (trimLeft (String.rev <$> spaces) (String.length s) (String.rev s)).

Record Flags : Type := mkFlags {
  userAgent : string;
  timeout : Z;
  noColor : bool;
  verbose : bool;
  skipSpecialChar : bool;
  jsonOutput : bool
}.

Import Scanner.

Section Run.
Variable env : Env.
Variable flags : Flags.

(** [fetch(url, userAgent, timeout)]: a client of its own for each call,
    with [Timeout: time.Duration(timeout) * time.Second]. *)
Definition fetch (url : string) : M (string + error) :=
  perform env Static
    (clientDeadline (mkClient (mkTransport true None)
                       (wrap64 (wrap64 (timeout flags) * Second))))
    url.

(** [domScanner.GetDOM(url)]: [chromedp.Run] on the context of the
    session, which has no deadline. *)
Definition GetDOM (url : string) : M (string + error) :=
  perform env Rendering None url.

(** [runPvreplace(inputURL, payload)]. *)
Definition runPvreplace (inputURL payload : string) : M (string + error) :=
  λ w,
    let args := ["pvreplace"; "-silent"; "-payload"; payload;
                 "-fuzzing-mode"; "single"] in
    let r := exec env (length (commands w)) args inputURL in
    (match r with
     | inl out => inl (TrimSpace out)
     | inr err => inr err
     end,
     mkWorld (calls w) (commands w ++ [mkCommand args inputURL r])
       (generated w) (stdout w)).

Definition emptyCount : gmap string Z :=
  list_to_map [("allowed", 0%Z); ("blocked", 0%Z); ("converted", 0%Z)].

Definition printRecord (output : JSONOutput) : M unit :=
  print (PrintlnJSON (Marshal output)).

(** The loop [for _, testURL := range testURLs], which ends at the first
    test URL that could be fetched. *)
Fixpoint probeFirst (reflectedInDOM : bool) (char : string)
    (testURLs : list string) (acc : Sets) : M Sets :=
  match testURLs with
  | [] => ret acc
  | testURL :: rest =>
      let testURL := TrimSpace testURL in
      if String.eqb testURL "" then probeFirst reflectedInDOM char rest acc
      else
        when (verbose flags && negb (jsonOutput flags))
          (if noColor flags
           then print (Printf "CHECKING: %s\n" [AStr testURL])
           else print (Printf "\033[95mCHECKING: %s\033[0m\n" [AStr testURL])) ;;;
        let* r := (if reflectedInDOM then GetDOM testURL else fetch testURL) in
        match r with
        | inr err =>
            when (verbose flags)
              (print (Printf "Error fetching test URL: %v\n" [AErr err])) ;;;
            probeFirst reflectedInDOM char rest acc
        | inl testBody =>
            if Strings.Contains testBody ("rix4uni" +:+ char) then
              ret (mkSets (allowed acc ++ [char]) (blocked acc) (converted acc))
            else
              match conversions !! char with
              | Some conv =>
                  if Strings.Contains testBody ("rix4uni" +:+ conv) then
                    ret (mkSets (allowed acc) (blocked acc)
                           (converted acc ++ [char +:+ " âž” " +:+ conv]))
                  else
                    ret (mkSets (allowed acc) (blocked acc ++ [char]) (converted acc))
              | None =>
                  ret (mkSets (allowed acc) (blocked acc ++ [char]) (converted acc))
              end
        end
  end.

(** The body of the loop [for _, char := range specialChars]. *)
Definition probe (inputURL baseURL : string) (reflectedInDOM : bool)
    (acc : Sets) (char : string) : M Sets :=
  let* r :=
    (if Strings.Contains inputURL "?" then
       runPvreplace baseURL ("rix4uni" +:+ char)
     else if Strings.Contains inputURL "{payload}" then
       ret (inl (Strings.ReplaceAll inputURL "{payload}" ("rix4uni" +:+ char)))
     else ret (inl "")) in
  match r with
  | inr err =>
      print (Printf "Error running pvreplace for char '%s': %v\n" [AStr char; AErr err]) ;;;
      ret acc
  | inl testURLRaw =>
      probeFirst reflectedInDOM char (Strings.Split testURLRaw Main.newline) acc
  end.

(** The body of the loop [for _, baseURL := range baseURLs]. *)
Definition processBase (inputURL baseURL : string) : M unit :=
  let baseURL := TrimSpace baseURL in
  if String.eqb baseURL "" then ret tt
  else
    let output := mkJSONOutput inputURL baseURL false None None None None in
    when (negb (jsonOutput flags))
      (if noColor flags
       then print (Printf "BASEURL: %s\n" [AStr baseURL])
       else print (Printf "\033[94mBASEURL: %s\033[0m\n" [AStr baseURL])) ;;;
    (* First, check for normal reflection *)
    let* r := fetch baseURL in
    match r with
    | inr err =>
        when (verbose flags)
          (print (Printf "Error fetching base URL: %v\n" [AErr err]))
    | inl body =>
        let* r := (if negb (Strings.Contains body "rix4uni") then
               (* If no normal reflection, check for DOM reflection *)
               let* r := GetDOM baseURL in
               match r with
               | inr err =>
                   when (verbose flags)
                     (print (Printf "Error fetching DOM: %v\n" [AErr err])) ;;;
                   ret None
               | inl body =>
                   ret (Some (body, Strings.Contains body "rix4uni"))
               end
             else ret (Some (body, false))) in
        match r with
        | None => ret tt
        | Some (body, reflectedInDOM) =>
            if Strings.Contains body "rix4uni" then
              let output := setReflected output true in
              when (negb (jsonOutput flags))
                (if noColor flags then print (Println "REFLECTED: YES")
                 else print (Println "\033[92mREFLECTED: YES\033[0m")) ;;;
              if skipSpecialChar flags then
                when (jsonOutput flags)
                  (printRecord
                     (mkJSONOutput (Processing output) (BaseURL output)
                        (Reflected output) (Some []) (Some []) (Some [])
                        (Some emptyCount)))
              else
                let* r := foldM (probe inputURL baseURL reflectedInDOM)
                                (mkSets [] [] []) specialChars in
                if jsonOutput flags then
                  printRecord
                    (mkJSONOutput (Processing output) (BaseURL output)
                       (Reflected output)
                       (Some (allowed r)) (Some (blocked r)) (Some (converted r))
                       (Some (list_to_map [("allowed", lenZ (allowed r));
                                           ("blocked", lenZ (blocked r));
                                           ("converted", lenZ (converted r))])))
                else if noColor flags then
                  print (Printf "ALLOWED: %v\n" [AStrs (allowed r)]) ;;;
                  print (Printf "BLOCKED: %v\n" [AStrs (blocked r)]) ;;;
                  print (Printf "CONVERTED: %v\n" [AStrs (converted r)])
                else
                  print (Printf "\033[32mALLOWED: %v\033[0m\n" [AStrs (allowed r)]) ;;;
                  print (Printf "\033[31mBLOCKED: %v\033[0m\n" [AStrs (blocked r)]) ;;;
                  print (Printf "\033[33mCONVERTED: %v\033[0m\n" [AStrs (converted r)])
            else
              let output := setReflected output false in
              if jsonOutput flags then
                printRecord
                  (mkJSONOutput (Processing output) (BaseURL output)
                     (Reflected output) (Some []) (Some []) (Some [])
                     (Some emptyCount))
              else if noColor flags then print (Println "REFLECTED: NO")
              else print (Println "\033[91mREFLECTED: NO\033[0m")
        end
    end.

Definition processURL (inputURL : string) : M unit :=
  when (negb (jsonOutput flags))
    (if noColor flags
     then print (Printf "\nPROCESSING: %s\n" [AStr inputURL])
     else print (Printf "\n\033[96mPROCESSING: %s\033[0m\n" [AStr inputURL])) ;;;
  if Strings.Contains inputURL "?" then
    let* r := runPvreplace inputURL "rix4uni" in
    match r with
    | inr err => print (Printf "Error running pvreplace: %v\n" [AErr err])
    | inl baseURLsRaw =>
        forM (Strings.Split baseURLsRaw Main.newline) (processBase inputURL)
    end
  else if Strings.Contains inputURL "{payload}" then
    let baseURLsRaw := Strings.ReplaceAll inputURL "{payload}" "rix4uni" in
    forM (Strings.Split baseURLsRaw Main.newline) (processBase inputURL)
  else
    print (Printf "No injection points found for URL: %s\n" [AStr inputURL]).

(** [main] after the flags are read: every line of standard input goes
    to [processURL], in order. *)
Definition main (input : string) : M unit :=
  forM (Main.jobs input) processURL ;;;
  match (Main.scanTokens (Main.rawLines input)).2 with
  | Some err => print (Printf "Error reading input: %v\n" [AErr err])
  | None => ret tt
  end.

End Run.
End Legacy.

(* ===================================================================== *)
(** * The wording of the specification *)
(* ===================================================================== *)

(** Definitions that follow the sentences of the specification, to be
    compared with the program. *)
Module Spec.
Import NetURL.

(** The elements of [l] in the order of their first occurrence. *)
Fixpoint firstOccurrences (seen l : list string) : list string :=
  match l with
  | [] => []
  | x :: l' =>
      if decide (x ∈ seen) then firstOccurrences seen l'
      else x :: firstOccurrences (x :: seen) l'
  end.

(** "each distinct query parameter key (order: as parsed)". *)
Definition distinctKeys (query : string) : list string :=
  firstOccurrences [] (queryPairs query).*1.

(** "that key's value is replaced by payload": in the text of one
    parameter. *)
Definition replaceValue (key payload segment : string) : string :=
  match parseSegment segment with
  | Some (k, _) =>
      if String.eqb k key
      then (Strings.Cut segment "=").1.1 +:+ "=" +:+ payload
      else segment
  | None => segment
  end.

(** "each differing from the original only in one parameter's value, all
    others byte-identical to the input". *)
Definition candidate (inputURL payload key : string) : string :=
  let '(u, frag, hasFragment) := Strings.Cut inputURL "#" in
  let '(rest, query, _) := Strings.Cut u "?" in
  rest +:+ "?"
    +:+ Strings.Join (replaceValue key payload <$> Strings.Split query "&") "&"
    +:+ (if hasFragment then "#" +:+ frag else "").

(** "for each distinct query parameter key (order: as parsed), produce one
    target URL". *)
Definition generate (inputURL payload : string) : list string :=
  let '(u, _, _) := Strings.Cut inputURL "#" in
  let '(_, query, _) := Strings.Cut u "?" in
  candidate inputURL payload <$> distinctKeys query.

(** The three verdicts of the classifier; [VConverted] carries the entity. *)
Inductive Verdict : Type :=
  | VAllowed
  | VBlocked
  | VConverted (entity : string).

#[global] Instance Verdict_eq_dec : EqDecision Verdict.
Proof. solve_decision. Defined.

(** "containment of marker+character → allowed; else, if an encodedForm is
    defined for this character and marker+encodedForm is contained →
    converted; else → blocked". *)
Definition classify (body marker character : string)
    (encodedForm : option string) : Verdict :=
  if Strings.Contains body (marker +:+ character) then VAllowed
  else
    match encodedForm with
    | Some entity =>
        if Strings.Contains body (marker +:+ entity) then VConverted entity
        else VBlocked
    | None => VBlocked
    end.

End Spec.


(* ===================================================================== *)
(** * Notions used in the statements *)
(* ===================================================================== *)

Module Notions.
Import Strings NetURL Utils.

(** The three bytes that separate the segments, keys and values of a
    query. *)
Definition separator (c : ascii) : bool :=
  Ascii.eqb c "&" || Ascii.eqb c "=" || Ascii.eqb c ";".

Fixpoint allBytes (f : ascii → bool) (s : string) : bool :=
  match s with
  | EmptyString => true
  | String c s' => f c && allBytes f s'
  end.

Definition noSeparator (s : string) : bool := allBytes (λ c, negb (separator c)) s.

(** [s] has no byte [x]. *)
Definition lacks (x : ascii) (s : string) : bool :=
  allBytes (λ c, negb (Ascii.eqb c x)) s.

(** The number of segments that the separator ["&"] cuts a query into,
    which is what [parseQuery] holds against its limit. *)
Definition params (query : string) : Z := Z.of_nat (Count query "&") + 1.

(** The number of values that a map holds. *)
Definition total (v : Values) : nat :=
  sum_list (List.length <$> (map_to_list v).*2).

(** The text of one pair in an encoded query. *)
Definition segment (kv : string * string) : string :=
  QueryEscape kv.1 +:+ "=" +:+ QueryEscape kv.2.

(** The pairs of a map, key by key in the order [ks]. *)
Definition entriesOf (v : Values) (ks : list string) : list (string * string) :=
  ks ≫= λ k, (λ x, (k, x)) <$> default [] (v !! k).

(** How [Encode] extends its buffer by one pair. *)
Definition writeSegment (buf p : string) : string :=
  (if Nat.ltb 0 (String.length buf) then buf +:+ "&" else buf) +:+ p.

(** The values that a list of pairs gives for [k], in order. *)
Definition valuesOf (k : string) (pairs : list (string * string)) : list string :=
  (filter (λ p, p.1 = k) pairs).*2.

(** Every key of the map carries at least one value. *)
Definition populated (v : Values) : Prop :=
  ∀ k vs, v !! k = Some vs → vs ≠ [].

(** The value that the copy holds for [k] when the target key is [key]. *)
Definition copied (key payload k : string) (v : list string) : list string :=
  if String.eqb k key then [payload] else v.

(** A URL whose query is [n] times the parameter [a=1]. *)
Definition manyParams (n : N) : string :=
  "http://x/?" +:+ Join (replicate (N.to_nat n) "a=1") "&".

(** The run-time keeps the order of the entries it is given. *)
Definition sameOrder : nat → RangeOrder := λ _ entries, entries.

Section URL.
Context `{URLSyntax}.

(** [u] with another query. *)
Definition withQuery (u : URL) (query : string) : URL :=
  mkURL (hier u) (ForceQuery u) query (Fragment u).

(** The target for [key]. *)
Definition candidate (u : URL) (payload key : string) : string :=
  String_ (withQuery u (Encode (<[key := [payload]]> (Query u)))).

End URL.

End Notions.

(* ===================================================================== *)
(** * Notions used in the statements about the scanner *)
(* ===================================================================== *)

Module ScanNotions.
Import NetURL Scanner.

(** An item of standard output that is not a JSON record. *)
Definition notJSON (o : Out) : Prop := ∀ j, o ≠ PrintlnJSON j.

(** A computation that only writes lines to standard output. *)
Definition quiet (m : M unit) : Prop :=
  ∀ w, calls (m w).2 = calls w ∧ commands (m w).2 = commands w ∧
       generated (m w).2 = generated w ∧
       ∃ os, stdout (m w).2 = stdout w ++ os ∧ Forall notJSON os.

(** The channel and the deadline of the probes of one candidate. *)
Definition probeChannel (reflectedInDOM : bool) : Channel :=
  if reflectedInDOM then Rendering else Static.

Definition probeDeadline (s : Scanner) (reflectedInDOM : bool) : option Z :=
  if reflectedInDOM then Some (30 * Second)%Z else clientDeadline (client s).

(** The entry of the converted list for a character and its entity. *)
Definition entry (char entity : string) : string := char +:+ " ➔ " +:+ entity.

(** A verdict filed in the result lists. *)
Definition recordVerdict (acc : Sets) (char : string) (v : Spec.Verdict) : Sets :=
  match v with
  | Spec.VAllowed => mkSets (allowed acc ++ [char]) (blocked acc) (converted acc)
  | Spec.VBlocked => mkSets (allowed acc) (blocked acc ++ [char]) (converted acc)
  | Spec.VConverted entity =>
      mkSets (allowed acc) (blocked acc) (converted acc ++ [entry char entity])
  end.

(** The verdict on one probe: none when no probe was issued or when its
    fetch failed. *)
Definition verdictOf (p : string * option Call) : option Spec.Verdict :=
  match p.2 with
  | Some c =>
      match reply c with
      | inl body => Some (Spec.classify body "rix4uni" p.1 (conversions !! p.1))
      | inr _ => None
      end
  | None => None
  end.

(** The entry that a probe adds to the converted list. *)
Definition convertedEntry (p : string * option Call) : option string :=
  match verdictOf p with
  | Some (Spec.VConverted entity) => Some (entry p.1 entity)
  | _ => None
  end.

(** The three result lists that a log of probes gives. *)
Definition allowedOf (log : list (string * option Call)) : list string :=
  (filter (λ p, verdictOf p = Some Spec.VAllowed) log).*1.

Definition blockedOf (log : list (string * option Call)) : list string :=
  (filter (λ p, verdictOf p = Some Spec.VBlocked) log).*1.

Definition convertedOf (log : list (string * option Call)) : list string :=
  omap convertedEntry log.

(** One probe filed in the result lists. *)
Definition fileProbe (acc : Sets) (p : string * option Call) : Sets :=
  match verdictOf p with
  | Some v => recordVerdict acc p.1 v
  | None => acc
  end.

(** [char] is in none of the three lists. *)
Definition absent (A B C : list string) (char : string) : Prop :=
  (char ∉ A) ∧ (char ∉ B) ∧ ∀ entity, entry char entity ∉ C.

(** [char] is in the list of its verdict and in no other. *)
Definition placed (A B C : list string) (char : string) (v : Spec.Verdict) : Prop :=
  match v with
  | Spec.VAllowed => char ∈ A ∧ (char ∉ B) ∧ ∀ entity, entry char entity ∉ C
  | Spec.VBlocked => (char ∉ A) ∧ char ∈ B ∧ ∀ entity, entry char entity ∉ C
  | Spec.VConverted entity =>
      (char ∉ A) ∧ (char ∉ B) ∧ ∀ entity', entry char entity' ∈ C ↔ entity' = entity
  end.

(** The record of section 6 of the specification, with its three arrays
    and the counts of their members. *)
Definition wellFormedRecord (j : JSON) : Prop :=
  ∃ (processing baseurl : string) (reflected : bool) (A B C : list string),
    j = JObject [("processing", JString processing);
                 ("baseurl", JString baseurl);
                 ("reflected", JBool reflected);
                 ("allowed", JArray (JString <$> A));
                 ("blocked", JArray (JString <$> B));
                 ("converted", JArray (JString <$> C));
                 ("count", JObject [("allowed", JNumber (lenZ A));
                                    ("blocked", JNumber (lenZ B));
                                    ("converted", JNumber (lenZ C))])].

(** Every JSON record among [os] is well formed. *)
Definition recordsOK (os : list Out) : Prop :=
  Forall (λ o, ∀ j, o = PrintlnJSON j → wellFormedRecord j) os.

(** The fields of [output] that [printJSON] completes are either all nil
    or hold three lists and their lengths. *)
Definition consistent (output : JSONOutput) : Prop :=
  (Allowed output = None ∧ Blocked output = None ∧
   Converted output = None ∧ Count output = None) ∨
  ∃ A B C,
    Allowed output = Some A ∧ Blocked output = Some B ∧
    Converted output = Some C ∧
    Count output = Some (list_to_map [("allowed", lenZ A);
                                      ("blocked", lenZ B);
                                      ("converted", lenZ C)]).

(** The deadline of a static fetch when [timeout] seconds are configured:
    the client's [Timeout] is [time.Duration(timeout) * time.Second], and a
    [Timeout] that is not positive sets no deadline. *)
Definition staticDeadline (timeout : Z) : option Z :=
  let d := wrap64 (wrap64 timeout * Second) in
  if (0 <? d)%Z then Some d else None.

(** A computation that, from any state, only appends network operations
    that satisfy [P] and output items that satisfy [Q]. *)
Definition appends {A : Type} (P : Call → Prop) (Q : Out → Prop) (m : M A) : Prop :=
  ∀ w, ∃ cs os,
    calls (m w).2 = calls w ++ cs ∧ stdout (m w).2 = stdout w ++ os ∧
    Forall P cs ∧ Forall Q os.

(** An output item that, if it is a JSON record, is well formed. *)
Definition recordOK (o : Out) : Prop := ∀ j, o = PrintlnJSON j → wellFormedRecord j.

(** The deadline that a network operation of the earlier program is to
    carry: the client timeout for a static fetch, none for a render. *)
Definition legacyDeadlineOK (flags : Legacy.Flags) (c : Call) : Prop :=
  match channel c with
  | Static => deadline c = staticDeadline (Legacy.timeout flags)
  | Rendering => deadline c = None
  end.

(** The entry that the earlier program adds to the converted list; its
    source spells the arrow with other bytes. *)
Definition legacyEntry (char entity : string) : string :=
  char +:+ " âž” " +:+ entity.

Definition legacyRecordVerdict (acc : Sets) (char : string) (v : Spec.Verdict)
    : Sets :=
  match v with
  | Spec.VAllowed => mkSets (allowed acc ++ [char]) (blocked acc) (converted acc)
  | Spec.VBlocked => mkSets (allowed acc) (blocked acc ++ [char]) (converted acc)
  | Spec.VConverted entity =>
      mkSets (allowed acc) (blocked acc) (converted acc ++ [legacyEntry char entity])
  end.

(** The test URLs that the earlier program reads off the lines it is
    given: the lines trimmed, the blank ones left out. *)
Definition testURLsOf (lines : list string) : list string :=
  filter (λ url, url ≠ "") (Legacy.TrimSpace <$> lines).

(** The test URLs of a character in the earlier program, for a turn of
    the probe loop that starts in the state [w]: for an input with a
    question mark the lines that [pvreplace] writes for the candidate, and
    none at all when the command fails; for another input with the
    placeholder the input with the placeholder replaced. *)
Definition legacyTestURLs (env : Env) (inputURL baseURL char : string)
    (w : World) : option (list string) :=
  if Strings.Contains inputURL "?" then
    match exec env (List.length (commands w))
            ["pvreplace"; "-silent"; "-payload"; "rix4uni" +:+ char;
             "-fuzzing-mode"; "single"] baseURL with
    | inl out =>
        Some (testURLsOf (Strings.Split (Legacy.TrimSpace out) Main.newline))
    | inr _ => None
    end
  else if Strings.Contains inputURL "{payload}" then
    Some (testURLsOf
            (Strings.Split
               (Strings.ReplaceAll inputURL "{payload}" ("rix4uni" +:+ char))
               Main.newline))
  else Some [].

(** The number of entries of the three lists. *)
Definition entries (acc : Sets) : nat :=
  (List.length (allowed acc) + List.length (blocked acc)
   + List.length (converted acc))%nat.

(** A network operation that returned an error. *)
Definition failed (c : Call) : Prop := ∃ err, reply c = inr err.

(** A server that answers every static fetch with [static] and every
    render with [rendered]; map loops keep the order of the entries. *)
Definition server (static rendered : string + error) : Env :=
  mkEnv (λ _ ch _, match ch with Static => static | Rendering => rendered end)
        (λ _ _ _, inr (errorString "exec: not started"))
        (λ _ _ entries, entries).

(** The options of a run with default flags, [--json] and [--verbose]
    apart, and the scanner they give. *)
Definition options (timeout : Z) (json verbose : bool) : Options :=
  mkOptions "Mozilla/5.0" timeout false false verbose json "" 10 false.

Definition scannerOf (o : Options) : Scanner :=
  mkScanner o
    (mkClient (mkTransport (negb (VerifySSL o)) None)
              (wrap64 (wrap64 (Timeout o) * Second)))
    (mkDOMScanner [DefaultExecAllocatorOptions;
                   Flag "headless" true;
                   Flag "disable-gpu" true;
                   Flag "no-sandbox" true;
                   Flag "disable-dev-shm-usage" true;
                   Flag "ignore-certificate-errors" true]).

(** An item of standard output that is a JSON record. *)
Definition isRecord (o : Out) : Prop := ∃ j, o = PrintlnJSON j.

(** A computation that, from any state, appends at most [n] network
    operations, runs no external command, and writes at most [k] items to
    standard output, all of which satisfy [Q]. *)
Definition within {A : Type} (n k : nat) (Q : Out → Prop) (m : M A) : Prop :=
  ∀ w, ∃ cs os,
    calls (m w).2 = calls w ++ cs ∧ commands (m w).2 = commands w ∧
    stdout (m w).2 = stdout w ++ os ∧
    (List.length cs ≤ n)%nat ∧ (List.length os ≤ k)%nat ∧ Forall Q os.

(** What a scanner may write: without [--json] lines that are no JSON
    records; with [--json] JSON records only, unless [--verbose] adds
    lines to them. *)
Definition outKind (s : Scanner) (o : Out) : Prop :=
  if JSONOutput_ (opts s) then
    if Verbose (opts s) then True else isRecord o
  else notJSON o.

(** A bound that is [h] without [--json] and [j] with it. *)
Definition lines (s : Scanner) (h j : nat) : nat :=
  if JSONOutput_ (opts s) then j else h.

(** A computation that runs no external command. *)
Definition noCommand {A : Type} (m : M A) : Prop :=
  ∀ w, commands (m w).2 = commands w.

Section URL.
Context `{URLSyntax}.

(** The generator yields a candidate for the input, whatever the payload
    and whatever call of the run it is. *)
Definition generatorSucceeds (env : Env) (inputURL : string) : Prop :=
  ∀ g payload, ∃ testURL rest,
    Utils.GenerateTargetURLs (order env g) inputURL payload = inl (testURL :: rest).

(** The deadline that a network operation of the scanner [s] is to carry. *)
Definition deadlineOK (s : Scanner) (c : Call) : Prop :=
  match channel c with
  | Static => deadline c = clientDeadline (client s)
  | Rendering => deadline c = Some (30 * Second)%Z
  end.

(** The candidates that a scan of [inputURL] started in the state [w]
    goes through. *)
Definition candidatesAt (env : Env) (inputURL : string) (w : World) : list string :=
  match Utils.GenerateTargetURLs (order env (generated w)) inputURL "rix4uni" with
  | inl baseURLs => baseURLs
  | inr _ => []
  end.

End URL.

End ScanNotions.

(* ===================================================================== *)
(** * Notions used in the statements about the worker pool *)
(* ===================================================================== *)

Module PoolNotions.
Import Main.

Definition workerOf (e : Event) : nat :=
  match e with Took i _ | Scanned i _ => i end.

(** The events of worker [i], in order. *)
Definition eventsOf (i : nat) (es : list Event) : list Event :=
  filter (λ e, workerOf e = i) es.

(** The URLs received, and the URLs whose scan returned, in order. *)
Definition taken (es : list Event) : list string :=
  omap (λ e, match e with Took _ url => Some url | _ => None end) es.

Definition scanned (es : list Event) : list string :=
  omap (λ e, match e with Scanned _ url => Some url | _ => None end) es.

(** The URLs that the workers are scanning. *)
Definition scanning (ws : list WorkerPC) : list string :=
  omap (λ pc, match pc with Scanning url => Some url | _ => None end) ws.

(** The workers that have not left their loop. *)
Definition running (pc : WorkerPC) : bool :=
  match pc with Exited => false | _ => true end.

Definition live (ws : list WorkerPC) : list WorkerPC := filter running ws.

(** The value main is sending, if it is. *)
Definition inFlight (pc : MainPC) : list string :=
  match pc with Sending url => [url] | _ => [] end.

(** The events of a worker that scanned [urls], one after the other. *)
Definition rounds (i : nat) (urls : list string) : list Event :=
  urls ≫= λ url, [Took i url; Scanned i url].

(** The receipt that a worker in the middle of a scan has not yet
    matched with a return. *)
Definition current (i : nat) (pc : WorkerPC) : list Event :=
  match pc with Scanning url => [Took i url] | _ => [] end.

(** What every state of a run on [tokens] with the level [c] satisfies:
    the number of workers, the wait group, the tokens and the events. *)
Record invariant (c : Z) (tokens : list string) (p : Pool) : Prop := mkInvariant {
  inv_size :
    match mainPC p with
    | Starting i => (0 ≤ i ≤ Z.max 0 c)%Z ∧ length (workers p) = Z.to_nat i
    | _ => length (workers p) = Z.to_nat c
    end;
  inv_wg : wg p = Z.of_nat (length (live (workers p)));
  inv_queue : taken (events p) ++ inFlight (mainPC p) ++ pending p = tokens;
  inv_scanning : taken (events p) ≡ₚ scanned (events p) ++ scanning (workers p);
  inv_closed :
    match mainPC p with
    | Joining | Returned => pending p = []
    | Closing => closed p = false ∧ pending p = []
    | _ => closed p = false
    end;
  inv_alive : closed p = false → Forall (λ pc, pc ≠ Exited) (workers p);
  inv_returned : mainPC p = Returned → wg p = 0%Z;
  inv_rounds :
    ∀ i pc, workers p !! i = Some pc →
      ∃ urls, eventsOf i (events p) = rounds i urls ++ current i pc;
  inv_events : Forall (λ e, workerOf e < length (workers p))%nat (events p)
}.

(** The number of moves that are left to the goroutines: those of main
    from where it stands, three for every token yet to be read, one for
    every scan under way and one for every worker yet to leave. *)
Definition phase (c : Z) (pc : MainPC) : nat :=
  match pc with
  | Starting i => 2 * Z.to_nat (c - i) + 4
  | Reading => 3
  | Sending _ => 5
  | Closing => 2
  | Joining => 1
  | Returned => 0
  end.

Definition movesLeft (c : Z) (p : Pool) : nat :=
  (phase c (mainPC p) + 3 * List.length (pending p)
   + List.length (scanning (workers p)) + List.length (live (workers p)))%nat.

(** What the worlds of the workers are in every state of a run: there is
    one for each worker, and the world of worker [i] is the one that the
    scans of the URLs whose scan has returned in [i] leave, one scan after
    the other, from the empty world. *)
Definition scansDone `{NetURL.URLSyntax} (out : Outside) (s : Scanner.Scanner)
    (st : System) : Prop :=
  List.length (worlds st) = List.length (workers (pool st)) ∧
  ∀ i w, worlds st !! i = Some w →
    w = (worker (envOf out i) s (scanned (eventsOf i (events (pool st)))) emptyWorld).2.

(** No scan waits for ever. *)
Definition neverStalls `{NetURL.URLSyntax} (out : Outside) (s : Scanner.Scanner)
    : Prop :=
  ∀ i url w, stalls out s i url w = false.

(** A schedule that takes [main] to its return with worker 0 doing all
    the work: the workers start, worker 0 receives and scans every token,
    [jobs] is closed, the workers leave. *)
Definition sequential (concurrency : nat) (tokens : list string) : list Thread :=
  replicate (S concurrency) MainThread
  ++ (tokens ≫= λ _, [MainThread; WorkerThread 0; WorkerThread 0])
  ++ [MainThread; MainThread]
  ++ (WorkerThread <$> seq 0 concurrency)
  ++ [MainThread].

(** Two workers and two tokens: the second scan returns first. *)
Definition overtaking : list Thread :=
  [MainThread; MainThread; MainThread;
   MainThread; WorkerThread 0;
   MainThread; WorkerThread 1;
   WorkerThread 1; WorkerThread 0;
   MainThread; MainThread; WorkerThread 0; WorkerThread 1; MainThread].

End PoolNotions.

(* ===================================================================== *)
(** * Facts about package [strings] *)
(* ===================================================================== *)

Module StringsFacts.
Import Strings.

Lemma sapp_nil_r (s : string) : s +:+ "" = s.
Proof. induction s as [|c s IH]; [done|]. change (String c (s +:+ "") = String c s). by rewrite IH. Qed.

Lemma sapp_cons (c : ascii) (s t : string) : String c s +:+ t = String c (s +:+ t).
Proof. reflexivity. Qed.

Lemma sapp_assoc (s t u : string) : (s +:+ t) +:+ u = s +:+ t +:+ u.
Proof.
  induction s as [|c s IH]; [reflexivity|].
  rewrite !sapp_cons. by rewrite IH.
Qed.

Lemma slength_app (s t : string) :
  String.length (s +:+ t) = String.length s + String.length t.
Proof.
  induction s as [|c s IH]; [reflexivity|]. rewrite sapp_cons. simpl. by rewrite IH.
Qed.

Lemma HasPrefix_app (p t : string) : HasPrefix (p +:+ t) p = true.
Proof.
  induction p as [|c p IH]; [reflexivity|].
  rewrite sapp_cons. simpl. by rewrite Ascii.eqb_refl.
Qed.

Lemma HasPrefix_inv (s p : string) :
  HasPrefix s p = true → s = p +:+ skipn (String.length p) s.
Proof.
  revert s. induction p as [|c p IH]; intros s Hp; [reflexivity|].
  destruct s as [|d s]; [done|]. simpl in Hp.
  destruct (Ascii.eqb_spec d c) as [->|]; [|done].
  rewrite sapp_cons. simpl. f_equal. by apply IH.
Qed.

Lemma HasPrefix_iff (s p : string) :
  HasPrefix s p = true ↔ ∃ t, s = p +:+ t.
Proof.
  split.
  - intros Hp. eexists. by apply HasPrefix_inv.
  - intros [t ->]. apply HasPrefix_app.
Qed.

Lemma HasPrefix_weaken (a b p : string) :
  HasPrefix a p = true → HasPrefix (a +:+ b) p = true.
Proof.
  intros [t ->]%HasPrefix_iff. rewrite sapp_assoc. apply HasPrefix_app.
Qed.

(** [strings.Contains] is the substring relation. *)
Lemma Contains_iff (s sub : string) :
  Contains s sub = true ↔ ∃ a b, s = a +:+ sub +:+ b.
Proof.
  split.
  - induction s as [|c s IH]; simpl; intros Hc.
    + rewrite orb_false_r in Hc. apply HasPrefix_iff in Hc as [t ->].
      by exists "", t.
    + apply orb_true_iff in Hc as [Hp|Hc].
      * apply HasPrefix_iff in Hp as [t ->]. by exists "", t.
      * destruct (IH Hc) as (a & b & ->). by exists (String c a), b.
  - intros (a & b & ->). induction a as [|c a IH].
    + change (Contains (sub +:+ b) sub = true).
      destruct (sub +:+ b) eqn:E; simpl; rewrite <-E, HasPrefix_app; done.
    + rewrite sapp_cons. simpl. rewrite IH. apply orb_true_r.
Qed.

Lemma Contains_app_r (a s sub : string) :
  Contains s sub = true → Contains (a +:+ s) sub = true.
Proof.
  intros (x & y & ->)%Contains_iff. apply Contains_iff.
  exists (a +:+ x), y. by rewrite sapp_assoc.
Qed.

Lemma Contains_app_l (s b sub : string) :
  Contains s sub = true → Contains (s +:+ b) sub = true.
Proof.
  intros (x & y & ->)%Contains_iff. apply Contains_iff.
  exists x, (y +:+ b). by rewrite !sapp_assoc.
Qed.

Lemma skipn_cons (n : nat) (c : ascii) (s : string) :
  skipn (S n) (String c s) = skipn n s.
Proof. reflexivity. Qed.

Lemma splitFrom_nonempty (old : string) (k : nat) (s : string) :
  splitFrom old k s ≠ [].
Proof.
  revert k. induction s as [|c s IH]; intros k; [done|]. simpl.
  destruct k; [|apply IH].
  destruct (HasPrefix _ _); [done|]. by destruct (splitFrom old 0 s).
Qed.

Lemma Join_cons (e : string) (rest : list string) (sep : string) :
  rest ≠ [] → Join (e :: rest) sep = e +:+ sep +:+ Join rest sep.
Proof. by destruct rest. Qed.

Section Replace.
Variables old new : string.
Hypothesis old_nonempty : old ≠ "".

Lemma HasPrefix_old (c : ascii) (s : string) :
  HasPrefix (String c s) old = true →
  String c s = old +:+ skipn (String.length old - 1) s.
Proof.
  intros Hp%HasPrefix_inv. destruct old as [|d o]; [done|].
  simpl in *. by rewrite Nat.sub_0_r.
Qed.

(** Joining the pieces with [old] gives the scanned text back. *)
Lemma Join_splitFrom (k : nat) (s : string) :
  Join (splitFrom old k s) old = skipn k s.
Proof.
  revert k. induction s as [|c s IH]; intros k.
  - by destruct k.
  - simpl. destruct k as [|k]; [|apply IH].
    destruct (HasPrefix (String c s) old) eqn:Hp.
    + rewrite Join_cons by apply splitFrom_nonempty.
      rewrite IH. symmetry. exact (HasPrefix_old _ _ Hp).
    + specialize (IH 0). pose proof (splitFrom_nonempty old 0 s) as Hne.
      destruct (splitFrom old 0 s) as [|p r]; [done|].
      destruct r as [|q r].
      * simpl in *. by rewrite IH.
      * rewrite Join_cons in IH by done. rewrite Join_cons by done.
        rewrite sapp_cons. by rewrite IH.
Qed.

(** The scan writes the pieces joined with [new]. *)
Lemma replaceFrom_Join (k : nat) (s : string) :
  replaceFrom old new k s = Join (splitFrom old k s) new.
Proof.
  revert k. induction s as [|c s IH]; intros k.
  - by destruct k.
  - simpl. destruct k as [|k]; [|apply IH].
    destruct (HasPrefix (String c s) old) eqn:Hp.
    + rewrite Join_cons by apply splitFrom_nonempty. by rewrite IH.
    + specialize (IH 0). pose proof (splitFrom_nonempty old 0 s) as Hne.
      destruct (splitFrom old 0 s) as [|p r]; [done|].
      destruct r as [|q r].
      * simpl in *. by rewrite IH.
      * rewrite Join_cons in IH by done. rewrite Join_cons by done.
        rewrite sapp_cons. by rewrite IH.
Qed.

Lemma first_piece_prefix (s p : string) (r : list string) :
  splitFrom old 0 s = p :: r → ∃ t, s = p +:+ t.
Proof.
  intros E. pose proof (Join_splitFrom 0 s) as HJ. rewrite E in HJ.
  simpl skipn in HJ. destruct r as [|q r].
  - exists "". simpl in HJ. by rewrite sapp_nil_r.
  - rewrite Join_cons in HJ by done. eauto.
Qed.

(** No piece contains [old]. *)
Lemma splitFrom_free (k : nat) (s : string) :
  Forall (λ p, Contains p old = false) (splitFrom old k s).
Proof.
  revert k. induction s as [|c s IH]; intros k.
  - constructor; [|constructor]. destruct old; [done|]. done.
  - simpl. destruct k as [|k]; [|apply IH].
    destruct (HasPrefix (String c s) old) eqn:Hp.
    + constructor; [|apply IH]. destruct old; [done|]. done.
    + specialize (IH 0). destruct (splitFrom old 0 s) as [|p r] eqn:E.
      { by destruct (splitFrom_nonempty old 0 s). }
      apply Forall_cons in IH as [Hfree Hr]. constructor; [|done].
      simpl. rewrite Hfree, orb_false_r.
      destruct (HasPrefix (String c p) old) eqn:Hp'; [|done].
      destruct (first_piece_prefix _ _ _ E) as [t ->].
      apply (HasPrefix_weaken _ t) in Hp'. rewrite sapp_cons in Hp'. congruence.
Qed.

End Replace.

(** What [strings.ReplaceAll] does for a non-empty [old]: the text is cut
    into pieces free of [old] that, joined with [old], give the text back;
    the result is the same pieces joined with [new]. *)
Lemma ReplaceAll_pieces (s old new : string) :
  old ≠ "" →
  ∃ pieces,
    s = Join pieces old ∧
    Forall (λ p, Contains p old = false) pieces ∧
    ReplaceAll s old new = Join pieces new.
Proof.
  intros Hne. exists (splitFrom old 0 s). split_and!.
  - by rewrite Join_splitFrom.
  - by apply splitFrom_free.
  - destruct old; [done|]. by apply replaceFrom_Join.
Qed.

(** A text that contains [old] has at least two pieces. *)
Lemma Join_free_pieces (pieces : list string) (old : string) :
  old ≠ "" →
  Forall (λ p, Contains p old = false) pieces →
  Contains (Join pieces old) old = true → (2 ≤ List.length pieces)%nat.
Proof.
  intros Hne Hfree Hc. destruct pieces as [|p [|q r]]; simpl in *; [| |lia].
  - by destruct old.
  - apply Forall_cons in Hfree as [Hp _]. congruence.
Qed.

End StringsFacts.

(* ===================================================================== *)
(** * Facts about package [net/url] *)
(* ===================================================================== *)

Module NetURLFacts.
Import Strings NetURL Notions StringsFacts.

(** Case analysis over the 256 bytes. *)
Ltac each_byte c :=
  destruct c as [[] [] [] [] [] [] [] []]; vm_compute; try done.

(** ** Escaping one byte *)

Lemma unescaped_plain (c : ascii) :
  shouldEscape c = false →
  Ascii.eqb c "%" = false ∧ Ascii.eqb c "+" = false ∧ separator c = false.
Proof. each_byte c. Qed.

Lemma hex_digits (c : ascii) :
  let hi := upperhex (N.shiftr (N_of_ascii c) 4) in
  let lo := upperhex (N.land (N_of_ascii c) 15) in
  ishex hi && ishex lo = true ∧
  ascii_of_N (N.lor (N.shiftl (unhex hi) 4) (unhex lo)) = c ∧
  separator hi = false ∧ separator lo = false.
Proof. each_byte c. Qed.

(** ** [QueryUnescape] undoes [QueryEscape] *)

Lemma QueryUnescape_QueryEscape (s : string) :
  QueryUnescape (QueryEscape s) = Some s.
Proof.
  induction s as [|c s IH]; [done|]. simpl.
  destruct (shouldEscape c) eqn:Hesc.
  - destruct (Ascii.eqb_spec c " ") as [->|Hsp].
    + simpl. by rewrite IH.
    + destruct (hex_digits c) as (Hhex & Hbyte & _). simpl in Hhex, Hbyte.
      cbn [QueryUnescape]. rewrite Ascii.eqb_refl, Hhex, Hbyte, IH. done.
  - destruct (unescaped_plain c Hesc) as (Hpct & Hplus & _).
    simpl. by rewrite Hpct, Hplus, IH.
Qed.

(** ** Escaped text has no separator *)

Lemma QueryEscape_noSeparator (s : string) : noSeparator (QueryEscape s) = true.
Proof.
  induction s as [|c s IH]; [done|]. simpl.
  destruct (shouldEscape c) eqn:Hesc.
  - destruct (Ascii.eqb c " "); [done|].
    destruct (hex_digits c) as (_ & _ & Hhi & Hlo). simpl in Hhi, Hlo.
    unfold noSeparator. cbn [allBytes]. rewrite Hhi, Hlo. exact IH.
  - destruct (unescaped_plain c Hesc) as (_ & _ & Hsep).
    unfold noSeparator. cbn [allBytes]. by rewrite Hsep.
Qed.

Lemma noSeparator_cons (c : ascii) (s : string) :
  noSeparator (String c s) = true → separator c = false ∧ noSeparator s = true.
Proof.
  unfold noSeparator. simpl. intros [Hc Hs]%andb_true_iff.
  by apply negb_true_iff in Hc.
Qed.

Lemma separator_inv (c : ascii) :
  separator c = false →
  Ascii.eqb c "&" = false ∧ Ascii.eqb c "=" = false ∧ Ascii.eqb c ";" = false.
Proof.
  unfold separator. intros Hs.
  apply orb_false_iff in Hs as [Hs H3]. by apply orb_false_iff in Hs as [H1 H2].
Qed.

Lemma lacks_cons (x c : ascii) (s : string) :
  lacks x (String c s) = true → Ascii.eqb c x = false ∧ lacks x s = true.
Proof.
  unfold lacks. simpl. intros [Hc Hs]%andb_true_iff.
  by apply negb_true_iff in Hc.
Qed.

Lemma lacks_app (x : ascii) (a b : string) :
  lacks x (a +:+ b) = lacks x a && lacks x b.
Proof.
  induction a as [|c a IH]; [done|]. rewrite sapp_cons. unfold lacks in *.
  simpl. by rewrite IH, andb_assoc.
Qed.

Lemma noSeparator_lacks (s : string) :
  noSeparator s = true →
  lacks "&" s = true ∧ lacks "=" s = true ∧ lacks ";" s = true.
Proof.
  induction s as [|c s IH]; [done|].
  intros [Hc Hs]%noSeparator_cons. apply separator_inv in Hc as (H1 & H2 & H3).
  destruct (IH Hs) as (I1 & I2 & I3). unfold lacks in *. simpl.
  by rewrite H1, H2, H3, I1, I2, I3.
Qed.

(** ** Cutting and splitting text without separators *)

Lemma Cut_found (x : ascii) (a b : string) :
  lacks x a = true → Cut (a +:+ String x b) x = (a, b, true).
Proof.
  induction a as [|c a IH]; intros Ha.
  - change (Cut (String x b) x = ("", b, true)). simpl. by rewrite Ascii.eqb_refl.
  - apply lacks_cons in Ha as [Hc Ha].
    rewrite sapp_cons. simpl. by rewrite Hc, (IH Ha).
Qed.

Lemma Split_single (x : ascii) (a : string) :
  lacks x a = true → Split a x = [a].
Proof.
  induction a as [|c a IH]; intros Ha; [done|].
  apply lacks_cons in Ha as [Hc Ha]. simpl. by rewrite Hc, (IH Ha).
Qed.

Lemma Split_cons (x : ascii) (a b : string) :
  lacks x a = true → Split (a +:+ String x b) x = a :: Split b x.
Proof.
  induction a as [|c a IH]; intros Ha.
  - change (Split (String x b) x = "" :: Split b x). simpl. by rewrite Ascii.eqb_refl.
  - apply lacks_cons in Ha as [Hc Ha].
    rewrite sapp_cons. simpl. by rewrite Hc, (IH Ha).
Qed.

Lemma Contains_byte (x : ascii) (a : string) :
  lacks x a = true → Contains a (String x "") = false.
Proof.
  induction a as [|c a IH]; [done|].
  intros [Hc Ha]%lacks_cons. simpl. by rewrite Hc, (IH Ha).
Qed.

(** Splitting a joined list of pieces without ["&"] gives the pieces. *)
Lemma Split_Join (x : ascii) (pieces : list string) :
  pieces ≠ [] → Forall (λ p, lacks x p = true) pieces →
  Split (Join pieces (String x "")) x = pieces.
Proof.
  induction pieces as [|p ps IH]; intros Hne Hall; [done|].
  apply Forall_cons in Hall as [Hp Hps]. destruct ps as [|q ps].
  - simpl. by apply Split_single.
  - rewrite Join_cons by done.
    change (String x "" +:+ ?t) with (String x t).
    rewrite Split_cons by done. f_equal. by apply IH.
Qed.

(** ** A query written by [Encode] is read back by [ParseQuery] *)

Lemma segment_lacks (x : ascii) (kv : string * string) :
  Ascii.eqb x "&" || Ascii.eqb x ";" = true → lacks x (segment kv) = true.
Proof.
  intros Hx. unfold segment.
  destruct (noSeparator_lacks _ (QueryEscape_noSeparator kv.1)) as (K1 & _ & K3).
  destruct (noSeparator_lacks _ (QueryEscape_noSeparator kv.2)) as (V1 & _ & V3).
  rewrite lacks_app. change ("=" +:+ ?t) with (String "="%char t).
  apply orb_true_iff in Hx as [->%Ascii.eqb_eq| ->%Ascii.eqb_eq].
  - rewrite K1. unfold lacks in *. simpl. by rewrite V1.
  - rewrite K3. unfold lacks in *. simpl. by rewrite V3.
Qed.

Lemma segment_nonempty (kv : string * string) : segment kv ≠ "".
Proof.
  unfold segment. intros E. apply (f_equal String.length) in E.
  rewrite !slength_app in E. simpl in E. lia.
Qed.

Lemma parseSegment_segment (kv : string * string) :
  parseSegment (segment kv) = Some kv.
Proof.
  unfold parseSegment.
  rewrite (Contains_byte ";" _ (segment_lacks ";" kv eq_refl)).
  destruct (String.eqb_spec (segment kv) "") as [E|_].
  { by destruct (segment_nonempty kv). }
  unfold segment. change ("=" +:+ ?t) with (String "="%char t).
  rewrite Cut_found.
  2:{ by destruct (noSeparator_lacks _ (QueryEscape_noSeparator kv.1)) as (_ & ? & _). }
  rewrite !QueryUnescape_QueryEscape. by destruct kv.
Qed.

Lemma queryPairs_Join (pairs : list (string * string)) :
  queryPairs (Join (segment <$> pairs) "&") = pairs.
Proof.
  unfold queryPairs. destruct pairs as [|kv pairs]; [done|].
  rewrite (Split_Join "&").
  - generalize (kv :: pairs). intros l. induction l as [|x l IH]; [done|].
    csimpl. rewrite parseSegment_segment. csimpl. by rewrite IH.
  - done.
  - apply Forall_fmap, Forall_forall. intros x _. by apply segment_lacks.
Qed.

Lemma foldl_writeSegment (buf : string) (ps : list string) :
  Forall (λ p, p ≠ "") ps →
  foldl writeSegment buf ps =
    match ps with
    | [] => buf
    | _ => if String.eqb buf "" then Join ps "&" else buf +:+ "&" +:+ Join ps "&"
    end.
Proof.
  revert buf. induction ps as [|p ps IH]; intros buf Hne; [done|].
  apply Forall_cons in Hne as [Hp Hps]. simpl foldl. rewrite (IH _ Hps).
  assert (writeSegment buf p ≠ "") as Hw.
  { unfold writeSegment. intros E. apply (f_equal String.length) in E.
    rewrite slength_app in E. destruct p; [done|]. simpl in E. lia. }
  destruct ps as [|q ps].
  - unfold writeSegment. destruct buf as [|c buf]; [reflexivity|].
    cbn [String.length Nat.ltb Nat.leb String.eqb Join]. by rewrite sapp_assoc.
  - destruct (String.eqb_spec (writeSegment buf p) "") as [|_]; [done|].
    rewrite (Join_cons p) by done. unfold writeSegment.
    destruct buf as [|c buf]; [reflexivity|].
    cbn [String.length Nat.ltb Nat.leb String.eqb]. by rewrite !sapp_assoc.
Qed.

Lemma encodeKey_writeSegment (buf k : string) (vs : list string) :
  encodeKey buf k vs = foldl writeSegment buf (segment <$> ((λ x, (k, x)) <$> vs)).
Proof.
  unfold encodeKey. revert buf. induction vs as [|x vs IH]; intros buf; [done|].
  simpl. by rewrite IH.
Qed.

Lemma sortedKeys_empty (v : Values) : size v = 0 → sortedKeys v = [].
Proof. intros ->%map_size_empty_inv. by unfold sortedKeys; rewrite map_to_list_empty. Qed.

(** [Encode] writes the pairs, keys in increasing order, joined by ["&"]. *)
Lemma Encode_Join (v : Values) :
  Encode v = Join (segment <$> entriesOf v (sortedKeys v)) "&".
Proof.
  unfold Encode. destruct (Nat.eqb_spec (size v) 0) as [E|_].
  { by rewrite (sortedKeys_empty _ E). }
  assert (∀ ks buf,
    foldl (λ buf k, encodeKey buf k (default [] (v !! k))) buf ks
    = foldl writeSegment buf (segment <$> entriesOf v ks)) as Hfold.
  { induction ks as [|k ks IH]; intros buf; [done|].
    unfold entriesOf. rewrite bind_cons, fmap_app, foldl_app. simpl.
    by rewrite IH, encodeKey_writeSegment. }
  rewrite Hfold, foldl_writeSegment.
  - by destruct (segment <$> _).
  - apply Forall_fmap, Forall_forall. intros kv _. apply segment_nonempty.
Qed.

(** ** What [parseQuery] stores under a key *)

Lemma valuesOf_cons (k k0 v0 : string) (ps : list (string * string)) :
  valuesOf k ((k0, v0) :: ps) =
    if decide (k0 = k) then v0 :: valuesOf k ps else valuesOf k ps.
Proof.
  unfold valuesOf. rewrite filter_cons. simpl. by destruct (decide (k0 = k)).
Qed.

Lemma lookup_foldl_Add (pairs : list (string * string)) (m : Values) (k : string) :
  foldl (λ m kv, Add m kv.1 kv.2) m pairs !! k =
    if decide (valuesOf k pairs = []) then m !! k
    else Some (default [] (m !! k) ++ valuesOf k pairs).
Proof.
  revert m. induction pairs as [|[k0 v0] ps IH]; intros m; [done|].
  simpl foldl. rewrite IH, valuesOf_cons. unfold Add.
  destruct (decide (k0 = k)) as [->|Hne].
  - rewrite lookup_insert_eq. cbn [default].
    rewrite (decide_False (P := _ :: _ = [])) by done.
    destruct (decide (valuesOf k ps = [])) as [->|_]; [done|].
    unfold id. by rewrite <-(assoc_L (++)).
  - by rewrite lookup_insert_ne.
Qed.

Lemma valuesOf_entriesOf (v : Values) (ks : list string) (k : string) :
  NoDup ks →
  valuesOf k (entriesOf v ks) = if decide (k ∈ ks) then default [] (v !! k) else [].
Proof.
  unfold valuesOf, entriesOf. induction ks as [|k0 ks IH]; intros Hnd; [done|].
  apply NoDup_cons in Hnd as [Hk0 Hnd]. rewrite bind_cons, filter_app, fmap_app, (IH Hnd).
  assert (∀ l : list string,
    (filter (λ p : string * string, p.1 = k) ((λ x, (k0, x)) <$> l)).*2
    = if decide (k0 = k) then l else []) as Hone.
  { intros l. destruct (decide (k0 = k)) as [Heq|Hne].
    - induction l as [|x l IHl]; [done|].
      rewrite fmap_cons, filter_cons_True by done. by rewrite fmap_cons, IHl.
    - induction l as [|x l IHl]; [done|].
      by rewrite fmap_cons, filter_cons_False. }
  rewrite Hone. destruct (decide (k0 = k)) as [->|Hne].
  - rewrite (decide_True (P := k ∈ k :: ks)) by (by left).
    rewrite (decide_False (P := k ∈ ks)) by done. by rewrite app_nil_r.
  - destruct (decide (k ∈ ks)).
    + by rewrite (decide_True (P := k ∈ k0 :: ks)) by (by right).
    + rewrite (decide_False (P := k ∈ k0 :: ks)); [done|].
      intros [?|?]%elem_of_cons; congruence.
Qed.

Lemma sortedKeys_Permutation (v : Values) : sortedKeys v ≡ₚ (map_to_list v).*1.
Proof. apply merge_sort_Permutation. Qed.

Lemma NoDup_sortedKeys (v : Values) : NoDup (sortedKeys v).
Proof. rewrite sortedKeys_Permutation. apply NoDup_fst_map_to_list. Qed.

Lemma elem_of_sortedKeys (v : Values) (k : string) :
  k ∈ sortedKeys v ↔ is_Some (v !! k).
Proof.
  rewrite sortedKeys_Permutation, list_elem_of_fmap. split.
  - intros ([k' x] & -> & Hin). apply elem_of_map_to_list in Hin. eauto.
  - intros [x Hx]. exists (k, x). split; [done|]. by apply elem_of_map_to_list.
Qed.

(** ** The limit on the number of parameters *)

Lemma length_Split (s : string) (x : ascii) :
  List.length (Split s x) = S (Count s x).
Proof.
  induction s as [|c s IH]; [done|]. cbn.
  destruct (Ascii.eqb c x); cbn; [by rewrite IH|].
  by destruct (Split s x).
Qed.

Lemma params_Join (pieces : list string) :
  pieces ≠ [] → Forall (λ p, lacks "&" p = true) pieces →
  params (Join pieces "&") = Z.of_nat (List.length pieces).
Proof.
  intros Hne Hall. unfold params.
  pose proof (length_Split (Join pieces "&") "&") as Hlen.
  rewrite (Split_Join "&") in Hlen by done. lia.
Qed.

Lemma length_queryPairs (query : string) :
  (Z.of_nat (List.length (queryPairs query)) ≤ params query)%Z.
Proof.
  unfold queryPairs, params.
  assert (List.length (omap parseSegment (Split query "&"))
          ≤ List.length (Split query "&"))%nat as Hle.
  { induction (Split query "&") as [|p ps IH]; [done|].
    csimpl. destruct (parseSegment p); cbn; lia. }
  rewrite length_Split in Hle. lia.
Qed.

Lemma ParseQuery_within (query : string) :
  (params query ≤ 10000)%Z →
  ParseQuery query = foldl (λ m kv, Add m kv.1 kv.2) ∅ (queryPairs query).
Proof.
  intros Hle. unfold ParseQuery, parseQuery, urlParamsWithinMax, defaultMaxParams.
  fold (params query). by destruct (Z.leb_spec (params query) 10000); [|lia].
Qed.

Lemma ParseQuery_beyond (query : string) :
  (10000 < params query)%Z → ParseQuery query = ∅.
Proof.
  intros Hlt. unfold ParseQuery, parseQuery, urlParamsWithinMax, defaultMaxParams.
  fold (params query). by destruct (Z.leb_spec (params query) 10000); [lia|].
Qed.

(** ** The number of values of a map *)

Lemma sum_list_Permutation (l k : list nat) : l ≡ₚ k → sum_list l = sum_list k.
Proof. induction 1; cbn; lia. Qed.

Lemma total_insert (v : Values) (k : string) (x : list string) :
  total (<[k := x]> v) = (List.length x + total (delete k v))%nat.
Proof.
  unfold total. rewrite <-insert_delete_eq.
  rewrite (sum_list_Permutation _ (List.length <$> ((k, x) :: map_to_list (delete k v)).*2)).
  - done.
  - do 2 apply fmap_Permutation. apply map_to_list_insert, lookup_delete_eq.
Qed.

Lemma total_lookup (v : Values) (k : string) :
  total v = (List.length (default [] (v !! k)) + total (delete k v))%nat.
Proof.
  destruct (v !! k) as [x|] eqn:Hk.
  - rewrite <-(insert_id v k x) at 1 by done. apply total_insert.
  - by rewrite delete_id.
Qed.

Lemma total_Add (v : Values) (k x : string) : total (Add v k x) = S (total v).
Proof.
  unfold Add. rewrite total_insert, (total_lookup v k), length_app. cbn. lia.
Qed.

Lemma total_foldl_Add (pairs : list (string * string)) (v : Values) :
  total (foldl (λ m kv, Add m kv.1 kv.2) v pairs) = (total v + List.length pairs)%nat.
Proof.
  revert v. induction pairs as [|kv pairs IH]; intros v; cbn; [lia|].
  rewrite IH, total_Add. lia.
Qed.

(** A parsed query holds no more values than the query has segments. *)
Lemma total_ParseQuery (query : string) :
  (Z.of_nat (total (ParseQuery query)) ≤ 10000)%Z.
Proof.
  destruct (Z.leb_spec (params query) 10000) as [Hle|Hlt].
  - rewrite ParseQuery_within, total_foldl_Add by done.
    pose proof (length_queryPairs query). unfold total.
    rewrite map_to_list_empty. cbn. lia.
  - rewrite ParseQuery_beyond by done. unfold total.
    rewrite map_to_list_empty. cbn. lia.
Qed.

(** Setting a key that is there to one value does not add a value. *)
Lemma total_Set (v : Values) (k x : string) :
  populated v → is_Some (v !! k) → (total (<[k := [x]]> v) ≤ total v)%nat.
Proof.
  intros Hpop [old Hold]. rewrite total_insert, (total_lookup v k), Hold. cbn.
  specialize (Hpop k old Hold). destruct old; [done|]. cbn. lia.
Qed.

Lemma length_entriesOf (v : Values) : List.length (entriesOf v (sortedKeys v)) = total v.
Proof.
  assert (∀ ks, List.length (entriesOf v ks)
                = sum_list ((λ k, List.length (default [] (v !! k))) <$> ks)) as Hlen.
  { unfold entriesOf. induction ks as [|k ks IH]; [done|].
    rewrite bind_cons, length_app, length_fmap, IH. done. }
  rewrite Hlen.
  rewrite (sum_list_Permutation _
             ((λ k, List.length (default [] (v !! k))) <$> (map_to_list v).*1)).
  2:{ apply fmap_Permutation, sortedKeys_Permutation. }
  unfold total. rewrite <-!list_fmap_compose. f_equal.
  apply Forall_fmap_ext, Forall_forall. intros [k x] Hin.
  apply elem_of_map_to_list in Hin. cbn. by rewrite Hin.
Qed.

(** The text that [Encode] writes has one segment for each value. *)
Lemma params_Encode (v : Values) :
  params (Encode v) = Z.max 1 (Z.of_nat (total v)).
Proof.
  rewrite Encode_Join, <-length_entriesOf.
  destruct (entriesOf v (sortedKeys v)) as [|kv pairs] eqn:E; [done|].
  rewrite params_Join.
  - rewrite length_fmap. cbn [List.length]. lia.
  - done.
  - apply Forall_fmap, Forall_forall. intros x _. by apply segment_lacks.
Qed.

(** [ParseQuery] reads back what [Encode] wrote, for a map that holds no
    more values than the limit. *)
Lemma ParseQuery_Encode (v : Values) :
  populated v → (Z.of_nat (total v) ≤ 10000)%Z → ParseQuery (Encode v) = v.
Proof.
  intros Hpop Hle. apply map_eq. intros k.
  rewrite ParseQuery_within by (rewrite params_Encode; lia).
  rewrite Encode_Join, queryPairs_Join, lookup_foldl_Add, lookup_empty.
  rewrite valuesOf_entriesOf by apply NoDup_sortedKeys.
  destruct (v !! k) as [vs|] eqn:Hk.
  - rewrite (decide_True (P := k ∈ sortedKeys v)) by (apply elem_of_sortedKeys; eauto).
    simpl. rewrite decide_False by eauto. done.
  - rewrite (decide_False (P := k ∈ sortedKeys v)).
    2:{ rewrite elem_of_sortedKeys, Hk. by intros [? ?]. }
    by rewrite decide_True.
Qed.

Lemma ParseQuery_populated (query : string) : populated (ParseQuery query).
Proof.
  intros k vs. unfold ParseQuery, parseQuery.
  destruct (negb _); [by rewrite lookup_empty|].
  rewrite lookup_foldl_Add, lookup_empty.
  destruct (decide _) as [|Hne]; [done|]. simpl. by intros [= <-].
Qed.

(** The keys of a parsed query are the keys of its pairs, for a query
    within the limit. *)
Lemma ParseQuery_is_Some (query k : string) :
  (params query ≤ 10000)%Z →
  is_Some (ParseQuery query !! k) ↔ k ∈ (queryPairs query).*1.
Proof.
  intros Hle. rewrite ParseQuery_within by done.
  rewrite lookup_foldl_Add, lookup_empty.
  induction (queryPairs query) as [|[k0 v0] ps IH].
  - simpl. split; [by intros [? ?]|by intros ?%elem_of_nil].
  - rewrite valuesOf_cons. destruct (decide (k0 = k)) as [->|Hne].
    + rewrite (decide_False (P := _ :: _ = [])) by done.
      rewrite fmap_cons. split; [intros _; by left|eauto].
    + rewrite IH, fmap_cons, elem_of_cons. simpl. split; [by right|].
      by intros [?|?].
Qed.

End NetURLFacts.

(* ===================================================================== *)
(** * Facts about the target generator *)
(* ===================================================================== *)

Module UtilsFacts.
Import Strings NetURL Utils Notions StringsFacts NetURLFacts.

Lemma foldl_Add_values (k : string) (v : list string) (newParams : Values) :
  foldl (λ newParams val, Add newParams k val) newParams v =
    match v with
    | [] => newParams
    | _ => <[k := default [] (newParams !! k) ++ v]> newParams
    end.
Proof.
  revert newParams. induction v as [|x v IH]; intros newParams; [done|].
  simpl foldl. rewrite IH. unfold Add. destruct v as [|y v]; [done|].
  rewrite lookup_insert_eq, insert_insert_eq. cbn [default from_option].
  unfold id. by rewrite <-(assoc_L (++)).
Qed.

Lemma copyParam_insert (key payload k : string) (v : list string) (m : Values) :
  m !! k = None → v ≠ [] →
  copyParam key payload m (k, v) = <[k := copied key payload k v]> m.
Proof.
  intros Hk Hv. unfold copyParam, copied, Set_.
  destruct (String.eqb k key); [done|].
  rewrite foldl_Add_values, Hk. by destruct v.
Qed.

(** The loop over the copy, on entries with distinct keys. *)
Lemma lookup_foldl_copyParam (key payload : string)
    (l : list (string * list string)) (m0 : Values) (k : string) :
  NoDup l.*1 →
  (∀ k v, (k, v) ∈ l → v ≠ [] ∧ m0 !! k = None) →
  foldl (copyParam key payload) m0 l !! k =
    match (list_to_map l : Values) !! k with
    | Some v => Some (copied key payload k v)
    | None => m0 !! k
    end.
Proof.
  revert m0. induction l as [|[k0 v0] l IH]; intros m0 Hnd Hl; [done|].
  rewrite fmap_cons in Hnd. apply NoDup_cons in Hnd as [Hk0 Hnd].
  destruct (Hl k0 v0) as [Hv0 Hm0]; [by left|].
  cbn [foldl]. rewrite copyParam_insert by done. rewrite IH; [|done|].
  - cbn [list_to_map foldr]. cbn [fst snd curry].
    destruct (decide (k0 = k)) as [->|Hne].
    + rewrite !lookup_insert_eq.
      by rewrite (not_elem_of_list_to_map_1 (M := gmap string)) by done.
    + by rewrite !lookup_insert_ne by done.
  - intros k' v' Hin. destruct (Hl k' v') as [? ?]; [by right|]. split; [done|].
    rewrite lookup_insert_ne; [done|]. intros ->. apply Hk0.
    apply list_elem_of_fmap. by exists (k', v').
Qed.

(** Whatever order the run-time picks, the copy for [key] is the parsed
    query with [key] set to the payload alone. *)
Lemma copy_params (inner : RangeOrder) (q : Values) (key payload : string) :
  legalOrder inner → populated q → is_Some (q !! key) →
  foldl (copyParam key payload) ∅ (inner (map_to_list q)) = <[key := [payload]]> q.
Proof.
  intros Hlegal Hpop [v0 Hkey]. apply map_eq. intros k.
  assert (NoDup (inner (map_to_list q)).*1) as Hnd.
  { rewrite (Hlegal _). apply NoDup_fst_map_to_list. }
  rewrite lookup_foldl_copyParam; [|done|].
  - rewrite (list_to_map_proper (M := gmap string) _ (map_to_list q)) by done.
    rewrite list_to_map_to_list, lookup_empty. unfold copied.
    destruct (decide (k = key)) as [->|Hne].
    + by rewrite Hkey, String.eqb_refl, lookup_insert_eq.
    + rewrite lookup_insert_ne by done.
      destruct (q !! k); [|done].
      by destruct (String.eqb_spec k key).
  - intros k' v' Hin. rewrite (Hlegal _) in Hin.
    apply elem_of_map_to_list in Hin. split; [by eapply Hpop|done].
Qed.

(** The keys the loop visits are the distinct keys of the query. *)
Lemma firstOccurrences_spec (seen l : list string) :
  NoDup (Spec.firstOccurrences seen l) ∧
  ∀ x, x ∈ Spec.firstOccurrences seen l ↔ x ∈ l ∧ x ∉ seen.
Proof.
  revert seen. induction l as [|y l IH]; intros seen.
  - split; [constructor|]. intros x. split; [by intros ?%elem_of_nil|].
    by intros [?%elem_of_nil _].
  - simpl. destruct (decide (y ∈ seen)) as [Hy|Hy].
    + destruct (IH seen) as [Hnd Hel]. split; [done|]. intros x.
      rewrite Hel, elem_of_cons. split; [tauto|].
      intros [[->|?] ?]; tauto.
    + destruct (IH (y :: seen)) as [Hnd Hel]. split.
      * constructor; [|done]. rewrite Hel, elem_of_cons. tauto.
      * intros x. rewrite !elem_of_cons, Hel, elem_of_cons.
        destruct (decide (x = y)) as [->|]; tauto.
Qed.

Lemma range_keys (ro : RangeOrder) (query : string) :
  legalOrder ro → (params query ≤ 10000)%Z →
  (ro (map_to_list (ParseQuery query))).*1 ≡ₚ Spec.distinctKeys query.
Proof.
  intros Hlegal Hle. rewrite (Hlegal _). unfold Spec.distinctKeys.
  destruct (firstOccurrences_spec [] (queryPairs query).*1) as [Hnd Hel].
  apply NoDup_Permutation.
  - apply NoDup_fst_map_to_list.
  - done.
  - intros k. rewrite Hel, <-ParseQuery_is_Some by done.
    assert (k ∉ @nil string) as Hnil by (by intros ?%elem_of_nil).
    rewrite list_elem_of_fmap. split.
    + intros ([k' x] & -> & Hin). apply elem_of_map_to_list in Hin. eauto.
    + intros [[x Hx] _]. exists (k, x). split; [done|]. by apply elem_of_map_to_list.
Qed.

Lemma size_ParseQuery (query : string) :
  (params query ≤ 10000)%Z →
  size (ParseQuery query) = List.length (Spec.distinctKeys query).
Proof.
  intros Hle. rewrite <-(range_keys (λ l, l) query) by (done || by intros ?).
  by rewrite length_fmap, length_map_to_list.
Qed.

(** A query beyond the limit has no parameter for [Query]. *)
Lemma size_ParseQuery_beyond (query : string) :
  (10000 < params query)%Z → size (ParseQuery query) = 0.
Proof. intros Hlt. by rewrite ParseQuery_beyond. Qed.

Section Fanout.
Context `{URLSyntax}.

(** The generator on a URL without placeholder that parses and has a
    query parameter. *)
Lemma GenerateTargetURLs_fanout (ro : nat → RangeOrder)
    (inputURL payload : string) (u : URL) :
  Contains inputURL "{payload}" = false →
  Parse inputURL = inl u →
  size (Query u) ≠ 0 →
  (∀ i, legalOrder (ro i)) →
  GenerateTargetURLs ro inputURL payload
    = inl (candidate u payload <$> (ro 0 (map_to_list (Query u))).*1).
Proof.
  intros Hph Hparse Hsize Hlegal. unfold GenerateTargetURLs.
  rewrite Hph, Hparse. destruct (Nat.eqb_spec (size (Query u)) 0) as [|_]; [done|].
  f_equal. rewrite <-list_fmap_compose.
  rewrite <-(imap_const (candidate u payload ∘ fst)). apply imap_ext.
  intros i [key v] Hin. unfold targetFor, candidate, withQuery. simpl.
  rewrite copy_params; [done|apply Hlegal|apply ParseQuery_populated|].
  apply list_elem_of_lookup_2 in Hin. rewrite (Hlegal 0 _) in Hin.
  apply elem_of_map_to_list in Hin. eauto.
Qed.

End Fanout.
End UtilsFacts.

(* ===================================================================== *)
(** * The target generator: claims *)
(* ===================================================================== *)

Module GeneratorClaims.
Import Strings NetURL Utils Notions StringsFacts NetURLFacts UtilsFacts.

(** C1 (as amended).  For an input URL without the placeholder token that
    parses, whose query has at most 10000 segments between its ["&"] (the
    limit of [net/url]) and k >= 1 distinct keys, the generator returns
    exactly k candidates, one for each distinct key, in the order in which
    the run-time visits the parameter map (any permutation of the keys).
    The candidate for a key is the parsed URL written back with a query
    that [Values.Encode] produced; read back with [ParseQuery], that query
    gives the payload as the only value of the key and, for every other
    key, the decoded values of the input in their order. *)
Theorem fanout_one_target_per_key `{URLSyntax} (ro : nat → RangeOrder)
    (inputURL payload : string) (u : URL) :
  Contains inputURL "{payload}" = false →
  Parse inputURL = inl u →
  (params (RawQuery u) ≤ 10000)%Z →
  Spec.distinctKeys (RawQuery u) ≠ [] →
  (∀ i, legalOrder (ro i)) →
  ∃ keys targets,
    GenerateTargetURLs ro inputURL payload = inl targets ∧
    keys ≡ₚ Spec.distinctKeys (RawQuery u) ∧
    List.length targets = List.length (Spec.distinctKeys (RawQuery u)) ∧
    Forall2 (λ key target,
               ∃ query,
                 target = String_ (withQuery u query) ∧
                 query = Encode (<[key := [payload]]> (Query u)) ∧
                 ParseQuery query !! key = Some [payload] ∧
                 ∀ k, k ≠ key → ParseQuery query !! k = Query u !! k)
            keys targets.
Proof.
  intros Hph Hparse Hlimit Hkeys Hlegal.
  exists (ro 0 (map_to_list (Query u))).*1,
         (candidate u payload <$> (ro 0 (map_to_list (Query u))).*1).
  assert (size (Query u) ≠ 0) as Hsize.
  { unfold Query. rewrite size_ParseQuery by done. by destruct (Spec.distinctKeys _). }
  split_and!.
  - by apply GenerateTargetURLs_fanout.
  - by apply range_keys.
  - rewrite length_fmap. unfold Query. by rewrite (range_keys _ _ (Hlegal 0)).
  - apply Forall2_fmap_r, Forall_Forall2_diag, Forall_forall. intros key Hkey.
    exists (Encode (<[key := [payload]]> (Query u))).
    assert (populated (<[key := [payload]]> (Query u))) as Hpop.
    { intros k vs. destruct (decide (key = k)) as [->|Hne].
      - rewrite lookup_insert_eq. by intros [= <-].
      - rewrite lookup_insert_ne by done. apply ParseQuery_populated. }
    assert (is_Some (Query u !! key)) as Hsome.
    { rewrite (Hlegal 0 _) in Hkey. apply list_elem_of_fmap in Hkey as ([k x] & -> & Hin).
      apply elem_of_map_to_list in Hin. eauto. }
    assert (Z.of_nat (total (<[key := [payload]]> (Query u))) ≤ 10000)%Z as Htotal.
    { pose proof (total_Set (Query u) key payload (ParseQuery_populated _) Hsome).
      pose proof (total_ParseQuery (RawQuery u)). unfold Query in *. lia. }
    rewrite (ParseQuery_Encode _ Hpop Htotal). split_and!; [done|done| |].
    + apply lookup_insert_eq.
    + intros k Hne. by rewrite lookup_insert_ne.
Qed.

Lemma fanout_one_target_per_key_witness :
  ∃ keys targets,
    GenerateTargetURLs sameOrder "http://x/search?q=1&lang=en" "rix4uni" = inl targets ∧
    keys ≡ₚ Spec.distinctKeys "q=1&lang=en" ∧
    List.length targets = List.length (Spec.distinctKeys "q=1&lang=en") ∧
    Forall2 (λ key target,
               ∃ query,
                 target = String_ (withQuery
                            (@mkURL PlainURL.syntax (PlainURL.mkHier "http" "" "x" "/search" false)
                                   false "q=1&lang=en" None) query) ∧
                 query = Encode (<[key := ["rix4uni"]]> (ParseQuery "q=1&lang=en")) ∧
                 ParseQuery query !! key = Some ["rix4uni"] ∧
                 ∀ k, k ≠ key → ParseQuery query !! k = ParseQuery "q=1&lang=en" !! k)
            keys targets.
Proof.
  apply (fanout_one_target_per_key sameOrder "http://x/search?q=1&lang=en" "rix4uni"
           (@mkURL PlainURL.syntax (PlainURL.mkHier "http" "" "x" "/search" false)
                  false "q=1&lang=en" None)).
  - vm_compute. reflexivity.
  - vm_compute. reflexivity.
  - vm_compute. discriminate.
  - vm_compute. discriminate.
  - intros i entries. reflexivity.
Defined.

(** The candidates of the input [http://x/?b=1&a=2], whatever order the
    run-time picks: every one has its parameters in increasing order of
    the keys. *)
Lemma fanout_b_a (ro : nat → RangeOrder) :
  (∀ i, legalOrder (ro i)) →
  ∃ keys,
    keys ≡ₚ ["a"; "b"] ∧
    GenerateTargetURLs ro "http://x/?b=1&a=2" "rix4uni"
      = inl ((λ key, if String.eqb key "a" then "http://x/?a=rix4uni&b=1"
                     else "http://x/?a=2&b=rix4uni") <$> keys).
Proof.
  intros Hlegal.
  set (u := @mkURL PlainURL.syntax (PlainURL.mkHier "http" "" "x" "/" false) false "b=1&a=2" None).
  exists (ro 0 (map_to_list (Query u))).*1. split.
  - rewrite (Hlegal 0 _). vm_compute. reflexivity.
  - rewrite (GenerateTargetURLs_fanout ro _ _ u);
      [|vm_compute; reflexivity|vm_compute; reflexivity
       |vm_compute; discriminate|done].
    f_equal. apply Forall_fmap_ext, Forall_forall. intros key Hin.
    rewrite (Hlegal 0 _) in Hin.
    change (key ∈ ["a"; "b"]) in Hin.
    apply elem_of_cons in Hin as [->|Hin]; [vm_compute; reflexivity|].
    apply list_elem_of_singleton in Hin as ->. vm_compute. reflexivity.
Qed.

(** C1, as stated, fails: on [http://x/?b=1&a=2] the specification asks for
    [http://x/?b=rix4uni&a=2] and [http://x/?b=1&a=rix4uni]; no order that
    the run-time may pick makes the generator return them. *)
Lemma fanout_rewrites_query :
  ¬ ∃ ro : nat → RangeOrder,
      (∀ i, legalOrder (ro i)) ∧
      GenerateTargetURLs ro "http://x/?b=1&a=2" "rix4uni"
        = inl (Spec.generate "http://x/?b=1&a=2" "rix4uni").
Proof.
  intros (ro & Hlegal & Hgen).
  destruct (fanout_b_a ro Hlegal) as (keys & _ & Heq). rewrite Heq in Hgen.
  assert (Spec.generate "http://x/?b=1&a=2" "rix4uni"
          = ["http://x/?b=rix4uni&a=2"; "http://x/?b=1&a=rix4uni"]) as Hspec.
  { vm_compute. reflexivity. }
  rewrite Hspec in Hgen. injection Hgen as Hgen.
  destruct keys as [|k1 keys]; [discriminate|].
  rewrite fmap_cons in Hgen. injection Hgen as Hfirst _.
  by destruct (String.eqb k1 "a").
Qed.

(** C2.  For an input URL that contains the placeholder token, the
    generator returns exactly one candidate, whatever else the URL holds
    (query parameters or not): the input is the token-free pieces around
    the occurrences of the token, and the candidate is these pieces with
    the payload in the place of every occurrence. *)
Theorem placeholder_single_target `{URLSyntax} (ro : nat → RangeOrder)
    (inputURL payload : string) :
  Contains inputURL "{payload}" = true →
  ∃ pieces,
    (2 ≤ List.length pieces)%nat ∧
    Forall (λ p, Contains p "{payload}" = false) pieces ∧
    inputURL = Join pieces "{payload}" ∧
    GenerateTargetURLs ro inputURL payload = inl [Join pieces payload].
Proof.
  intros Hph.
  destruct (ReplaceAll_pieces inputURL "{payload}" payload) as (pieces & Hin & Hfree & Hrep);
    [done|].
  exists pieces. split_and!; [|done|done|].
  - apply (Join_free_pieces pieces "{payload}"); [done|done|]. by rewrite <-Hin.
  - unfold GenerateTargetURLs. by rewrite Hph, Hrep.
Qed.

Lemma placeholder_single_target_witness :
  ∃ pieces,
    (2 ≤ List.length pieces)%nat ∧
    Forall (λ p, Contains p "{payload}" = false) pieces ∧
    "http://x/{payload}?q={payload}&r=1" = Join pieces "{payload}" ∧
    GenerateTargetURLs sameOrder "http://x/{payload}?q={payload}&r=1" "rix4uni"
      = inl [Join pieces "rix4uni"].
Proof.
  apply (placeholder_single_target sameOrder
           "http://x/{payload}?q={payload}&r=1" "rix4uni").
  vm_compute. reflexivity.
Defined.

(** C10.  A URL that contains the placeholder token is never parsed: for
    every parser and every input, malformed or not, the generator returns
    the single candidate [ReplaceAll inputURL token payload]; and when the
    generator fails with "invalid URL", the input has no placeholder token
    and the error is the one of [url.Parse]. *)
Theorem invalid_url_only_without_placeholder `{URLSyntax}
    (ro : nat → RangeOrder) (inputURL payload : string) :
  (Contains inputURL "{payload}" = true →
   ∀ (other : URLSyntax) (ro' : nat → RangeOrder),
     @GenerateTargetURLs other ro' inputURL payload
       = inl [ReplaceAll inputURL "{payload}" payload]) ∧
  (∀ err,
     GenerateTargetURLs ro inputURL payload = inr (wrapError "invalid URL: " err) →
     Contains inputURL "{payload}" = false ∧ Parse inputURL = inr err).
Proof.
  split.
  - intros Hph other ro'. unfold GenerateTargetURLs. by rewrite Hph.
  - intros err. unfold GenerateTargetURLs.
    destruct (Contains inputURL "{payload}"); [done|].
    destruct (Parse inputURL) as [u|err']; [|by intros [= ->]].
    by destruct (Nat.eqb (size (Query u)) 0).
Qed.

(** A malformed URL with the token: [url.Parse] rejects it, the generator
    accepts it. *)
Lemma invalid_url_only_without_placeholder_witness :
  Parse "://{payload}"
    = inr (urlError "parse" "://{payload}" (errorString "missing protocol scheme")) ∧
  GenerateTargetURLs sameOrder "://{payload}" "rix4uni" = inl ["://rix4uni"].
Proof.
  split; [vm_compute; reflexivity|].
  apply (invalid_url_only_without_placeholder sameOrder "://{payload}" "rix4uni").
  vm_compute. reflexivity.
Defined.

End GeneratorClaims.

(* ===================================================================== *)
(** * The target generator: outcomes and the text of the candidates *)
(* ===================================================================== *)

Module GeneratorProperties.
Import Strings NetURL Utils Scanner Notions ScanNotions.
Import StringsFacts NetURLFacts UtilsFacts.

(** ** Strings *)

Lemma Contains_empty (s : string) : Contains s "" = true.
Proof. by destruct s. Qed.

Lemma Contains_refl (s : string) : Contains s s = true.
Proof. apply Contains_iff. exists "", "". by rewrite sapp_nil_r. Qed.

Lemma Contains_tail (s a b : string) :
  Contains s (a +:+ b) = true → Contains s b = true.
Proof.
  intros (x & y & ->)%Contains_iff. apply Contains_iff.
  exists (x +:+ a), y. by rewrite !sapp_assoc.
Qed.

Lemma Contains_Join (l : list string) (sep x sub : string) :
  x ∈ l → Contains x sub = true → Contains (Join l sep) sub = true.
Proof.
  intros Hx Hsub. induction l as [|e l IH]; [by apply elem_of_nil in Hx|].
  destruct l as [|e' l].
  - apply list_elem_of_singleton in Hx as ->. done.
  - rewrite Join_cons by done. apply elem_of_cons in Hx as [->|Hx].
    + by apply Contains_app_l.
    + apply Contains_app_r, Contains_app_r. by apply IH.
Qed.

Lemma lacks_Contains (x : ascii) (s : string) :
  Contains s (String x "") = false → lacks x s = true.
Proof.
  induction s as [|c s IH]; [done|]. cbn.
  destruct (Ascii.eqb c x); [done|]. cbn. apply IH.
Qed.

Lemma lacks_Cut (x : ascii) (s : string) :
  lacks x s = true → Cut s x = (s, "", false).
Proof.
  induction s as [|c s IH]; [done|]. intros Hs.
  apply lacks_cons in Hs as [Hc Hs]. cbn. by rewrite Hc, IH.
Qed.

Lemma lacks_HasSuffix (x : ascii) (s : string) :
  lacks x s = true → HasSuffix s x = false.
Proof.
  induction s as [|c s IH]; [done|]. intros Hs.
  apply lacks_cons in Hs as [Hc Hs]. cbn. destruct s; [done|by apply IH].
Qed.

(** The text in front of the first [sep] has no more bytes [x] than the
    whole. *)
Lemma lacks_Cut_before (x sep : ascii) (s : string) :
  lacks x s = true → lacks x (Cut s sep).1.1 = true.
Proof.
  induction s as [|c s IH]; [done|]. intros Hs.
  apply lacks_cons in Hs as [Hc Hs]. cbn.
  destruct (Ascii.eqb c sep); [done|].
  specialize (IH Hs). destruct (Cut s sep) as [[before after] found].
  cbn in *. by rewrite Hc, IH.
Qed.

(** ** Escaped text *)

(** A byte that [QueryEscape] never writes: one it escapes, other than
    the two it uses for that. *)
Lemma escaped_digits (c : ascii) :
  shouldEscape (upperhex (N.shiftr (N_of_ascii c) 4)) = false ∧
  shouldEscape (upperhex (N.land (N_of_ascii c) 15)) = false.
Proof. each_byte c. Qed.

Lemma QueryEscape_lacks (x : ascii) (s : string) :
  shouldEscape x = true → Ascii.eqb x "%" = false → Ascii.eqb x "+" = false →
  lacks x (QueryEscape s) = true.
Proof.
  intros Hx Hpct Hplus.
  assert (∀ a, shouldEscape a = false → Ascii.eqb a x = false) as Hplain.
  { intros a Ha. destruct (Ascii.eqb_spec a x) as [->|]; [congruence|done]. }
  assert (∀ a, Ascii.eqb x a = false → Ascii.eqb a x = false) as Hsym.
  { intros a Ha. by rewrite Ascii.eqb_sym. }
  induction s as [|c s IH]; [done|]. cbn [QueryEscape].
  destruct (shouldEscape c) eqn:Hc.
  - destruct (Ascii.eqb c " ").
    + unfold lacks in *. cbn [allBytes]. by rewrite (Hsym "+"%char Hplus), IH.
    + destruct (escaped_digits c) as [Hhi Hlo].
      unfold lacks in *. cbn [allBytes].
      by rewrite (Hsym "%"%char Hpct), (Hplain _ Hhi), (Hplain _ Hlo), IH.
  - unfold lacks in *. cbn [allBytes]. by rewrite (Hplain _ Hc), IH.
Qed.

Lemma lacks_Join (x : ascii) (l : list string) (sep : string) :
  lacks x sep = true → Forall (λ e, lacks x e = true) l →
  lacks x (Join l sep) = true.
Proof.
  intros Hsep Hl. induction Hl as [|e l He Hl IH]; [done|].
  destruct l as [|e' l]; [done|].
  rewrite Join_cons by done. by rewrite !lacks_app, He, Hsep, IH.
Qed.

(** The text that [Values.Encode] writes has no byte that [QueryEscape]
    escapes, other than [%], [+], [=] and [&]. *)
Lemma Encode_lacks (x : ascii) (v : Values) :
  shouldEscape x = true → Ascii.eqb x "%" = false → Ascii.eqb x "+" = false →
  Ascii.eqb x "=" = false → Ascii.eqb x "&" = false →
  lacks x (Encode v) = true.
Proof.
  intros Hx Hpct Hplus Heq Hamp. rewrite Encode_Join. apply lacks_Join.
  - unfold lacks. cbn [allBytes]. by rewrite Ascii.eqb_sym, Hamp.
  - apply Forall_fmap, Forall_forall. intros [k val] _. unfold segment, compose. cbn [fst snd].
    rewrite !lacks_app, !QueryEscape_lacks by done.
    unfold lacks. cbn [allBytes]. by rewrite Ascii.eqb_sym, Heq.
Qed.

Lemma Encode_lacks_specialChars (v : Values) :
  Forall (λ char, Contains (Encode v) char = false) specialChars.
Proof.
  repeat constructor; apply Contains_byte, Encode_lacks; reflexivity.
Qed.

(** ** The query of a URL *)

Lemma Query_empty (query : string) :
  size (ParseQuery query) = 0
  ↔ queryPairs query = [] ∨ (10000 < params query)%Z.
Proof.
  destruct (Z.leb_spec (params query) 10000) as [Hle|Hlt].
  - rewrite size_ParseQuery by done. unfold Spec.distinctKeys.
    destruct (queryPairs query) as [|[k v] pairs]; [by split; [left|]|]. cbn.
    rewrite decide_False by apply not_elem_of_nil.
    split; [done|]. intros [?|?]; [done|lia].
  - rewrite size_ParseQuery_beyond by done. split; [by right|done].
Qed.

Lemma Encode_segment (v : Values) (key value : string) :
  v !! key = Some [value] →
  Contains (Encode v) (QueryEscape key +:+ "=" +:+ QueryEscape value) = true.
Proof.
  intros Hkey. rewrite Encode_Join.
  apply (Contains_Join _ _ (segment (key, value))); [|apply Contains_refl].
  apply list_elem_of_fmap. exists (key, value). split; [done|].
  unfold entriesOf. apply list_elem_of_bind. exists key. split.
  - rewrite Hkey. cbn. apply list_elem_of_singleton. done.
  - apply elem_of_sortedKeys. by exists [value].
Qed.

Section Generator.
Context `{URLSyntax}.

(** A text without question mark parses, if it does, to a URL without
    query. *)
Lemma Parse_no_query (rawURL : string) (u : URL) :
  Contains rawURL "?" = false → Parse rawURL = inl u → RawQuery u = "".
Proof.
  intros Hq%lacks_Contains. unfold Parse.
  pose proof (lacks_Cut_before "?" "#" rawURL Hq) as Hbefore.
  destruct (Cut rawURL "#") as [[t frag] found]. cbn [fst] in Hbefore.
  destruct (stringContainsCTLByte t); [done|].
  rewrite (lacks_HasSuffix _ _ Hbefore), (lacks_Cut _ _ Hbefore). cbn [andb].
  destruct (parseHier t) as [h|]; [|done].
  destruct (String.eqb frag ""); [by intros [= <-]|].
  destruct (parseFragment frag); [by intros [= <-]|done].
Qed.

Lemma Contains_String_ (u : URL) (sub : string) :
  Contains (RawQuery u) sub = true → Contains (String_ u) sub = true.
Proof.
  intros Hsub. unfold String_.
  destruct (String.eqb_spec (RawQuery u) "") as [Hempty|Hquery].
  - rewrite Hempty in Hsub. destruct sub; [apply Contains_empty|done].
  - rewrite orb_true_r. by apply Contains_app_r, Contains_app_l, Contains_app_r.
Qed.

Lemma fanout_targets (ro : nat → RangeOrder) (inputURL payload : string)
    (targets : list string) :
  (∀ i, legalOrder (ro i)) →
  Contains inputURL "{payload}" = false →
  GenerateTargetURLs ro inputURL payload = inl targets →
  ∃ u, Parse inputURL = inl u ∧ queryPairs (RawQuery u) ≠ [] ∧
       (params (RawQuery u) ≤ 10000)%Z ∧
       targets = candidate u payload <$> (ro 0 (map_to_list (Query u))).*1.
Proof.
  intros Hlegal Hph Hgen.
  destruct (Parse inputURL) as [u|err] eqn:Hparse.
  - exists u. destruct (Nat.eqb_spec (size (Query u)) 0) as [Hzero|Hsize].
    + unfold GenerateTargetURLs in Hgen. rewrite Hph, Hparse in Hgen.
      by destruct (Nat.eqb_spec (size (Query u)) 0).
    + rewrite (GenerateTargetURLs_fanout ro _ _ u) in Hgen by done.
      injection Hgen as <-. split_and!; [done| | |done].
      * intros Hnone. apply Hsize, Query_empty. by left.
      * destruct (Z.leb_spec (params (RawQuery u)) 10000) as [|Hlt]; [done|].
        destruct Hsize. apply Query_empty. by right.
  - unfold GenerateTargetURLs in Hgen. by rewrite Hph, Hparse in Hgen.
Qed.

End Generator.

(** X4.  The outcomes of the generator, and no other.  It succeeds with a
    list that is never empty, on an input that holds the placeholder or
    that parses to a URL whose query is within the limit of 10000
    segments and has at least one pair that decodes; it fails with
    "invalid URL" and the parser's error on an input without placeholder
    that does not parse; it fails with "no injection points found" on an
    input without placeholder that parses to a URL whose query has no
    pair that decodes or is beyond the limit. *)
Theorem generator_outcomes `{URLSyntax} (ro : nat → RangeOrder)
    (inputURL payload : string) :
  (∀ i, legalOrder (ro i)) →
  match GenerateTargetURLs ro inputURL payload with
  | inl targets =>
      targets ≠ [] ∧
      (Contains inputURL "{payload}" = true ∨
       ∃ u, Parse inputURL = inl u ∧ queryPairs (RawQuery u) ≠ [] ∧
            (params (RawQuery u) ≤ 10000)%Z)
  | inr err =>
      Contains inputURL "{payload}" = false ∧
      ((∃ e, Parse inputURL = inr e ∧ err = wrapError "invalid URL: " e) ∨
       (∃ u, Parse inputURL = inl u ∧
             (queryPairs (RawQuery u) = [] ∨ (10000 < params (RawQuery u))%Z) ∧
             err = errorString "no injection points found"))
  end.
Proof.
  intros Hlegal.
  destruct (GenerateTargetURLs ro inputURL payload) as [targets|err] eqn:Hgen.
  - destruct (Contains inputURL "{payload}") eqn:Hph.
    + split; [|by left]. unfold GenerateTargetURLs in Hgen. rewrite Hph in Hgen.
      by injection Hgen as <-.
    + destruct (fanout_targets ro inputURL payload targets Hlegal Hph Hgen)
        as (u & Hparse & Hpairs & Hlimit & ->).
      split; [|right; by exists u].
      intros Hnil%fmap_nil_inv%fmap_nil_inv.
      pose proof (Hlegal 0 (map_to_list (Query u))) as Hperm.
      rewrite Hnil in Hperm. apply Permutation_nil, map_to_list_empty_iff in Hperm.
      assert (size (ParseQuery (RawQuery u)) = 0) as Hsize.
      { unfold Query in Hperm. by rewrite Hperm. }
      apply Query_empty in Hsize as [?|?]; [done|lia].
  - unfold GenerateTargetURLs in Hgen.
    destruct (Contains inputURL "{payload}"); [done|]. split; [done|].
    destruct (Parse inputURL) as [u|e]; [|left; exists e; by injection Hgen as <-].
    right. exists u. destruct (Nat.eqb_spec (size (Query u)) 0) as [Hzero|]; [|done].
    injection Hgen as <-. split_and!; [done| |done]. by apply Query_empty.
Qed.

Lemma generator_outcomes_witness :
  match GenerateTargetURLs sameOrder "http://x/static/page?" "rix4uni" with
  | inl targets =>
      targets ≠ [] ∧
      (Contains "http://x/static/page?" "{payload}" = true ∨
       ∃ u, Parse "http://x/static/page?" = inl u ∧ queryPairs (RawQuery u) ≠ [] ∧
            (params (RawQuery u) ≤ 10000)%Z)
  | inr err =>
      Contains "http://x/static/page?" "{payload}" = false ∧
      ((∃ e, Parse "http://x/static/page?" = inr e ∧
             err = wrapError "invalid URL: " e) ∨
       (∃ u, Parse "http://x/static/page?" = inl u ∧
             (queryPairs (RawQuery u) = [] ∨ (10000 < params (RawQuery u))%Z) ∧
             err = errorString "no injection points found"))
  end.
Proof.
  apply (generator_outcomes sameOrder "http://x/static/page?" "rix4uni").
  intros i entries. reflexivity.
Defined.

(** X5.  An input that has neither a question mark nor the placeholder
    yields no candidate: the generator fails, with "no injection points
    found" if the input parses and with "invalid URL" if it does not. *)
Theorem no_query_no_candidate `{URLSyntax} (ro : nat → RangeOrder)
    (inputURL payload : string) :
  Contains inputURL "?" = false →
  Contains inputURL "{payload}" = false →
  GenerateTargetURLs ro inputURL payload
    = match Parse inputURL with
      | inl _ => inr (errorString "no injection points found")
      | inr e => inr (wrapError "invalid URL: " e)
      end.
Proof.
  intros Hq Hph. unfold GenerateTargetURLs. rewrite Hph.
  destruct (Parse inputURL) as [u|e] eqn:Hparse; [|done].
  unfold Query. rewrite (Parse_no_query inputURL u Hq Hparse). done.
Qed.

Lemma no_query_no_candidate_witness :
  GenerateTargetURLs sameOrder "http://x/static/page" "rix4uni"
    = match Parse "http://x/static/page" with
      | inl _ => inr (errorString "no injection points found")
      | inr e => inr (wrapError "invalid URL: " e)
      end.
Proof.
  apply (no_query_no_candidate sameOrder "http://x/static/page" "rix4uni");
    reflexivity.
Defined.

(** X6.  Every candidate carries the payload: as it is in the candidate
    of an input with the placeholder, and in the form that
    [url.QueryEscape] gives it in the candidates of an input without. *)
Theorem candidates_carry_payload `{URLSyntax} (ro : nat → RangeOrder)
    (inputURL payload : string) (targets : list string) :
  (∀ i, legalOrder (ro i)) →
  GenerateTargetURLs ro inputURL payload = inl targets →
  Forall (λ target,
            Contains target (if Contains inputURL "{payload}" then payload
                             else QueryEscape payload) = true) targets.
Proof.
  intros Hlegal Hgen. destruct (Contains inputURL "{payload}") eqn:Hph.
  - unfold GenerateTargetURLs in Hgen. rewrite Hph in Hgen. injection Hgen as <-.
    constructor; [|constructor].
    change (replaceFrom _ _ _ _) with (ReplaceAll inputURL "{payload}" payload).
    destruct (ReplaceAll_pieces inputURL "{payload}" payload)
      as (pieces & Hin & Hfree & ->); [done|].
    assert (2 ≤ List.length pieces)%nat as Hlen.
    { apply (Join_free_pieces pieces "{payload}"); [done|done|]. by rewrite <-Hin. }
    destruct pieces as [|p1 [|p2 rest]]; [cbn in Hlen; lia..|].
    rewrite Join_cons by done. apply Contains_app_r, Contains_app_l, Contains_refl.
  - destruct (fanout_targets ro inputURL payload targets Hlegal Hph Hgen)
      as (u & Hparse & Hpairs & Hlimit & ->).
    apply Forall_fmap, Forall_forall. intros key _. unfold compose, candidate.
    apply Contains_String_. cbn [RawQuery withQuery].
    apply (Contains_tail _ (QueryEscape key +:+ "=")). rewrite sapp_assoc.
    apply Encode_segment, lookup_insert_eq.
Qed.

Lemma candidates_carry_payload_witness :
  Forall (λ target,
            Contains target
              (if Contains "http://x/search?q=1&lang=en" "{payload}"
               then "rix4uni<" else QueryEscape "rix4uni<") = true)
    ["http://x/search?lang=en&q=rix4uni%3C";
     "http://x/search?lang=rix4uni%3C&q=1"].
Proof.
  apply (candidates_carry_payload
           (λ _ entries, merge_sort (λ a b, String.le b.1 a.1) entries)
           "http://x/search?q=1&lang=en" "rix4uni<").
  - intros i entries. apply merge_sort_Permutation.
  - vm_compute. reflexivity.
Defined.

(** X7.  In a candidate of an input without the placeholder, the query is
    the text that [Values.Encode] wrote: none of the twelve special
    characters of the scanner occurs in it, whatever the input and the
    payload hold. *)
Theorem fanout_query_is_escaped `{URLSyntax} (ro : nat → RangeOrder)
    (inputURL payload : string) (u : URL) (targets : list string) :
  (∀ i, legalOrder (ro i)) →
  Contains inputURL "{payload}" = false →
  Parse inputURL = inl u →
  GenerateTargetURLs ro inputURL payload = inl targets →
  Forall (λ target,
            ∃ query,
              target = String_ (withQuery u query) ∧
              Forall (λ char, Contains query char = false) specialChars)
         targets.
Proof.
  intros Hlegal Hph Hparse Hgen.
  destruct (fanout_targets ro inputURL payload targets Hlegal Hph Hgen)
    as (u' & Hparse' & Hpairs & Hlimit & ->).
  assert (u' = u) as -> by congruence.
  apply Forall_fmap, Forall_forall. intros key _. unfold compose, candidate.
  eexists. split; [done|]. apply Encode_lacks_specialChars.
Qed.

Lemma fanout_query_is_escaped_witness :
  Forall (λ target,
            ∃ query,
              target = String_ (withQuery
                         (@mkURL PlainURL.syntax
                            (PlainURL.mkHier "http" "" "x" "/search" false)
                            false "q=<1>" None) query) ∧
              Forall (λ char, Contains query char = false) specialChars)
    ["http://x/search?q=rix4uni%3C"].
Proof.
  apply (fanout_query_is_escaped sameOrder "http://x/search?q=<1>" "rix4uni<").
  - intros i entries. reflexivity.
  - vm_compute. reflexivity.
  - vm_compute. reflexivity.
  - vm_compute. reflexivity.
Defined.

End GeneratorProperties.

(* ===================================================================== *)
(** * Facts about the scanner *)
(* ===================================================================== *)

Module ScannerFacts.
Import Strings NetURL Utils Scanner Notions ScanNotions.

(** Closes a goal [l' = l ++ ?new] where [l'] is [l] with items appended. *)
Ltac appended :=
  rewrite <-?(assoc_L (++));
  first [ reflexivity | symmetry; apply app_nil_r ].

Lemma notJSON_Printf (f : string) (args : list Arg) : notJSON (Printf f args).
Proof. by intros j. Qed.

Lemma notJSON_Println (l : string) : notJSON (Println l).
Proof. by intros j. Qed.

Create HintDb scan.
#[local] Hint Resolve notJSON_Printf notJSON_Println : scan.
#[local] Hint Constructors Forall : scan.

(** ** The monad *)

Lemma foldM_cons {A S : Type} (f : S → A → M S) (acc : S) (a : A) (l : list A)
    (w : World) :
  foldM f acc (a :: l) w = foldM f (f acc a w).1 l (f acc a w).2.
Proof. cbn [foldM]. unfold bind. by destruct (f acc a w). Qed.

Lemma forM_cons {A : Type} (f : A → M unit) (a : A) (l : list A) (w : World) :
  forM (a :: l) f w = forM l f (f a w).2.
Proof. cbn [forM]. unfold bind. by destruct (f a w). Qed.

Lemma bind_run {A B : Type} (m : M A) (k : A → M B) (w : World) :
  bind m k w = k (m w).1 (m w).2.
Proof. unfold bind. by destruct (m w). Qed.

Lemma quiet_ret : quiet (ret tt).
Proof. intros w. split_and!; try done. exists []. split; [appended|constructor]. Qed.

Lemma quiet_print (o : Out) : notJSON o → quiet (print o).
Proof.
  intros Ho w. split_and!; try done. exists [o]. split; [done|].
  by repeat constructor.
Qed.

Lemma quiet_when (b : bool) (m : M unit) : quiet m → quiet (when b m).
Proof. destruct b; [done|]. intros _. apply quiet_ret. Qed.

Lemma quiet_if (b : bool) (m1 m2 : M unit) :
  quiet m1 → quiet m2 → quiet (if b then m1 else m2).
Proof. by destruct b. Qed.

Lemma quiet_seq (m1 m2 : M unit) : quiet m1 → quiet m2 → quiet (m1 ;;; m2).
Proof.
  intros H1 H2 w. rewrite bind_run.
  destruct (H1 w) as (Hc & Hm & Hg & os1 & Ho & Hn).
  destruct (H2 (m1 w).2) as (Hc' & Hm' & Hg' & os2 & Ho' & Hn').
  split_and!; try congruence.
  exists (os1 ++ os2). split; [|by apply Forall_app].
  by rewrite Ho', Ho, <-(assoc_L (++)).
Qed.

#[local] Hint Resolve quiet_ret quiet_print quiet_when quiet_if quiet_seq : scan.

Section Run.
Context `{URLSyntax}.
Variable env : Env.
Variable s : Scanner.

(** One turn of the probe loop. *)
Lemma probe_spec (inputURL : string) (reflectedInDOM : bool)
    (acc : Sets) (char : string) (w : World) :
  let oc :=
    match GenerateTargetURLs (order env (generated w)) inputURL ("rix4uni" +:+ char) with
    | inl (testURL :: _) =>
        Some (mkCall (probeChannel reflectedInDOM) testURL
                (probeDeadline s reflectedInDOM)
                (net env (length (calls w)) (probeChannel reflectedInDOM) testURL))
    | _ => None
    end in
  let r := probe env s inputURL reflectedInDOM acc char w in
  r.1 = fileProbe acc (char, oc) ∧
  calls r.2 = calls w ++ option_list oc ∧
  commands r.2 = commands w ∧
  generated r.2 = S (generated w) ∧
  ∃ os, stdout r.2 = stdout w ++ os ∧ Forall notJSON os.
Proof.
  unfold probe, bind, generate, fileProbe, verdictOf, Spec.classify. cbn [fst snd].
  destruct (GenerateTargetURLs _ _ _) as [[|testURL rest]|err]; cbn -[conversions].
  1,3: (split_and!; [done|appended|done|done|exists []; split; [appended|constructor]]).
  unfold when, fetch, GetDOM, perform, print, ret, bind, probeChannel, probeDeadline.
  destruct (Verbose (opts s)), (JSONOutput_ (opts s)), (NoColor (opts s)),
    reflectedInDOM; cbn -[conversions];
  destruct (net env _ _ _) as [testBody|err]; cbn -[conversions];
  try destruct (Contains testBody ("rix4uni" +:+ char)); cbn -[conversions];
  try destruct (conversions !! char) as [conv|]; cbn -[conversions];
  try destruct (Contains testBody _); cbn -[conversions];
  (split_and!; [done|done|done|done|]);
  eexists; (split; [appended|eauto with scan]).
Qed.

(** The probe loop over [chars]: one entry per character with the network
    operation of its probe, if one was issued. *)
Lemma probes_spec (inputURL : string) (reflectedInDOM : bool)
    (chars : list string) (acc : Sets) (w : World) :
  ∃ (log : list (string * option Call)) (os : list Out),
    log.*1 = chars ∧
    (foldM (probe env s inputURL reflectedInDOM) acc chars w).1
      = foldl fileProbe acc log ∧
    calls (foldM (probe env s inputURL reflectedInDOM) acc chars w).2
      = calls w ++ omap snd log ∧
    commands (foldM (probe env s inputURL reflectedInDOM) acc chars w).2
      = commands w ∧
    generated (foldM (probe env s inputURL reflectedInDOM) acc chars w).2
      = generated w + length chars ∧
    stdout (foldM (probe env s inputURL reflectedInDOM) acc chars w).2
      = stdout w ++ os ∧
    Forall notJSON os ∧
    Forall (λ p, ∀ c, p.2 = Some c →
                 channel c = probeChannel reflectedInDOM ∧
                 deadline c = probeDeadline s reflectedInDOM) log ∧
    (generatorSucceeds env inputURL → Forall (λ p, is_Some p.2) log).
Proof.
  revert acc w. induction chars as [|char chars IH]; intros acc w.
  - exists [], []. cbn. split_and!; try done; try appended; by constructor.
  - pose proof (probe_spec inputURL reflectedInDOM acc char w) as Hstep.
    cbv zeta in Hstep. rewrite !foldM_cons.
    destruct (probe env s inputURL reflectedInDOM acc char w) as [acc1 w1].
    cbn [fst snd] in *.
    destruct Hstep as (Hacc & Hcalls & Hcmd & Hgen & os1 & Hout & Hos1).
    destruct (IH acc1 w1) as (log & os & Hlog & Hres & Hc & Hm & Hg & Ho & Hos & Hch & Hok).
    set (oc := match GenerateTargetURLs (order env (generated w)) inputURL
                       ("rix4uni" +:+ char) with
               | inl (testURL :: _) =>
                   Some (mkCall (probeChannel reflectedInDOM) testURL
                           (probeDeadline s reflectedInDOM)
                           (net env (length (calls w))
                                (probeChannel reflectedInDOM) testURL))
               | _ => None
               end) in *.
    exists ((char, oc) :: log), (os1 ++ os). split_and!.
    + by rewrite fmap_cons, Hlog.
    + by rewrite Hres, Hacc.
    + rewrite Hc, Hcalls, <-(assoc_L (++)). by destruct oc.
    + by rewrite Hm.
    + rewrite Hg, Hgen. cbn [length]. lia.
    + by rewrite Ho, Hout, <-(assoc_L (++)).
    + by apply Forall_app.
    + constructor; [|done]. intros c. cbn [snd]. unfold oc.
      destruct (GenerateTargetURLs _ _ _) as [[|testURL rest]|err]; try done.
      by intros [= <-].
    + intros Hsucc. constructor; [|by apply Hok]. cbn [snd]. unfold oc.
      destruct (Hsucc (generated w) ("rix4uni" +:+ char)) as (t & ts & ->). eauto.
Qed.

Lemma quiet_printReflected (reflected : bool) : quiet (printReflected s reflected).
Proof. unfold printReflected. repeat apply quiet_if; eauto with scan. Qed.

(** [printJSON] writes nothing, or one well-formed record. *)
Lemma printJSON_spec (output : JSONOutput) (w : World) :
  consistent output →
  calls (printJSON s output w).2 = calls w ∧
  commands (printJSON s output w).2 = commands w ∧
  generated (printJSON s output w).2 = generated w ∧
  ∃ os, stdout (printJSON s output w).2 = stdout w ++ os ∧ recordsOK os.
Proof.
  intros Hcons. unfold printJSON.
  destruct (JSONOutput_ (opts s)); cbn.
  2:{ split_and!; try done. exists []. split; [appended|constructor]. }
  split_and!; try done. eexists. split; [done|].
  constructor; [|constructor]. intros j [= <-]. unfold Marshal.
  destruct Hcons as [(-> & -> & -> & ->)|(A & B & C & -> & -> & -> & ->)];
    cbn -[marshalCount list_to_map zeroCount].
  - exists (Processing output), (BaseURL output), (Reflected output), [], [], [].
    reflexivity.
  - exists (Processing output), (BaseURL output), (Reflected output), A, B, C.
    reflexivity.
Qed.

End Run.

(** ** The result lists, from the log of the probes *)

Lemma allowed_foldl (log : list (string * option Call)) (acc : Sets) :
  allowed (foldl fileProbe acc log)
    = allowed acc ++ allowedOf log.
Proof.
  unfold allowedOf.
  revert acc. induction log as [|p log IH]; intros acc; cbn [foldl].
  - by rewrite app_nil_r.
  - rewrite IH, filter_cons. unfold fileProbe.
    destruct (verdictOf p) as [[| |entity]|]; cbn.
    + rewrite decide_True by done. by rewrite fmap_cons, <-(assoc_L (++)).
    + by rewrite decide_False.
    + by rewrite decide_False.
    + by rewrite decide_False.
Qed.

Lemma blocked_foldl (log : list (string * option Call)) (acc : Sets) :
  blocked (foldl fileProbe acc log)
    = blocked acc ++ blockedOf log.
Proof.
  unfold blockedOf.
  revert acc. induction log as [|p log IH]; intros acc; cbn [foldl].
  - by rewrite app_nil_r.
  - rewrite IH, filter_cons. unfold fileProbe.
    destruct (verdictOf p) as [[| |entity]|]; cbn.
    + by rewrite decide_False.
    + rewrite decide_True by done. by rewrite fmap_cons, <-(assoc_L (++)).
    + by rewrite decide_False.
    + by rewrite decide_False.
Qed.

Lemma converted_foldl (log : list (string * option Call)) (acc : Sets) :
  converted (foldl fileProbe acc log) = converted acc ++ convertedOf log.
Proof.
  unfold convertedOf.
  revert acc. induction log as [|p log IH]; intros acc; cbn [foldl].
  - by rewrite app_nil_r.
  - rewrite IH. unfold fileProbe, convertedEntry at 2. cbn [omap list_omap].
    unfold convertedEntry at 1.
    destruct (verdictOf p) as [[| |entity]|]; cbn; try done.
    by rewrite <-(assoc_L (++)).
Qed.

Lemma entry_inj (c c' e e' : string) :
  String.length c = 1 → String.length c' = 1 →
  entry c e = entry c' e' → c = c' ∧ e = e'.
Proof.
  destruct c as [|a [|]]; try done. destruct c' as [|a' [|]]; try done.
  intros _ _. unfold entry. intros [= -> He]. split; [done|]. exact He.
Qed.

Lemma entry_not_char (c e x : string) : String.length x = 1 → entry c e ≠ x.
Proof.
  intros Hx E. apply (f_equal String.length) in E. rewrite Hx in E.
  unfold entry in E. rewrite !StringsFacts.slength_app in E. simpl in E. lia.
Qed.

Section Log.
Variable log : list (string * option Call).
Hypothesis distinct : NoDup log.*1.
Hypothesis bytes : Forall (λ p, String.length p.1 = 1) log.

Lemma log_unique (p q : string * option Call) :
  p ∈ log → q ∈ log → p.1 = q.1 → p = q.
Proof using distinct.
  clear bytes. induction log as [|x l IH]; [by intros ?%elem_of_nil|].
  rewrite fmap_cons in distinct. apply NoDup_cons in distinct as [Hx Hl].
  intros [->|Hp]%elem_of_cons [->|Hq]%elem_of_cons E; [done| | |by apply IH].
  - destruct Hx. rewrite E. by apply list_elem_of_fmap_2.
  - destruct Hx. rewrite <-E. by apply list_elem_of_fmap_2.
Qed.

Lemma elem_of_allowedOf (char : string) :
  char ∈ allowedOf log ↔
  ∃ p, p ∈ log ∧ p.1 = char ∧ verdictOf p = Some Spec.VAllowed.
Proof.
  unfold allowedOf. rewrite list_elem_of_fmap. split.
  - intros (p & -> & [Hv Hp]%list_elem_of_filter). eauto.
  - intros (p & Hp & <- & Hv). exists p. split; [done|].
    by apply list_elem_of_filter.
Qed.

Lemma elem_of_blockedOf (char : string) :
  char ∈ blockedOf log ↔
  ∃ p, p ∈ log ∧ p.1 = char ∧ verdictOf p = Some Spec.VBlocked.
Proof.
  unfold blockedOf. rewrite list_elem_of_fmap. split.
  - intros (p & -> & [Hv Hp]%list_elem_of_filter). eauto.
  - intros (p & Hp & <- & Hv). exists p. split; [done|].
    by apply list_elem_of_filter.
Qed.

Lemma elem_of_convertedOf (x : string) :
  x ∈ convertedOf log ↔
  ∃ p entity, p ∈ log ∧ verdictOf p = Some (Spec.VConverted entity) ∧
              x = entry p.1 entity.
Proof.
  unfold convertedOf. rewrite list_elem_of_omap. unfold convertedEntry. split.
  - intros (p & Hp & Hx). destruct (verdictOf p) as [[| |entity]|] eqn:Hv; try done.
    injection Hx as <-. eauto.
  - intros (p & entity & Hp & Hv & ->). exists p. by rewrite Hv.
Qed.

Lemma char_length (p : string * option Call) : p ∈ log → String.length p.1 = 1.
Proof using bytes. intros Hp. by eapply Forall_forall in bytes. Qed.

(** A character whose probe got a verdict is in the list of that verdict
    and in no other. *)
Lemma placed_of_log (p : string * option Call) (v : Spec.Verdict) :
  p ∈ log → verdictOf p = Some v →
  placed (allowedOf log) (blockedOf log) (convertedOf log) p.1 v.
Proof using distinct bytes.
  intros Hp Hv.
  assert (∀ v', (∃ q, q ∈ log ∧ q.1 = p.1 ∧ verdictOf q = Some v') → v' = v) as Hone.
  { intros v' (q & Hq & E & Hv'). rewrite (log_unique q p Hq Hp E) in Hv'. congruence. }
  assert (∀ entity, entry p.1 entity ∈ convertedOf log → Spec.VConverted entity = v)
    as Hconv.
  { intros entity (q & entity' & Hq & Hv' & E)%elem_of_convertedOf.
    apply entry_inj in E as [E ->]; [|by apply char_length..].
    apply Hone. eauto. }
  destruct v as [| |entity]; cbn.
  - split_and!.
    + apply elem_of_allowedOf. eauto.
    + by intros ?%elem_of_blockedOf%Hone.
    + by intros entity ?%Hconv.
  - split_and!.
    + by intros ?%elem_of_allowedOf%Hone.
    + apply elem_of_blockedOf. eauto.
    + by intros entity ?%Hconv.
  - split_and!.
    + by intros ?%elem_of_allowedOf%Hone.
    + by intros ?%elem_of_blockedOf%Hone.
    + intros entity'. split.
      * by intros [= ->]%Hconv.
      * intros ->. apply elem_of_convertedOf. eauto.
Qed.

(** A character without verdict is in no list. *)
Lemma absent_of_log (p : string * option Call) :
  p ∈ log → verdictOf p = None →
  absent (allowedOf log) (blockedOf log) (convertedOf log) p.1.
Proof using distinct bytes.
  intros Hp Hv.
  assert (∀ v', ¬ ∃ q, q ∈ log ∧ q.1 = p.1 ∧ verdictOf q = Some v') as Hnone.
  { intros v' (q & Hq & E & Hv'). rewrite (log_unique q p Hq Hp E) in Hv'. congruence. }
  split_and!.
  - by intros ?%elem_of_allowedOf%Hnone.
  - by intros ?%elem_of_blockedOf%Hnone.
  - intros entity (q & entity' & Hq & Hv' & E)%elem_of_convertedOf.
    apply entry_inj in E as [E ->]; [|by apply char_length..].
    apply (Hnone (Spec.VConverted entity')). eauto.
Qed.

Lemma NoDup_convertedOf : NoDup (convertedOf log).
Proof using distinct bytes.
  unfold convertedOf. induction log as [|p l IH]; [constructor|].
  rewrite fmap_cons in distinct. apply NoDup_cons in distinct as [Hp Hl].
  apply Forall_cons in bytes as [Hb Hbs]. cbn [omap list_omap].
  destruct (convertedEntry p) as [x|] eqn:Hx; [|by apply IH].
  constructor; [|by apply IH].
  intros (q & Hq & Hqx)%list_elem_of_omap. unfold convertedEntry in *.
  destruct (verdictOf p) as [[| |e]|]; try done.
  destruct (verdictOf q) as [[| |e']|]; try done.
  injection Hx as <-. injection Hqx as E.
  apply entry_inj in E as [E _]; [|by eapply Forall_forall in Hbs|done].
  apply Hp. rewrite <-E. by apply list_elem_of_fmap_2.
Qed.

(** The three lists have no member in common and no member twice. *)
Lemma NoDup_lists :
  NoDup (allowedOf log ++ blockedOf log ++ convertedOf log).
Proof using distinct bytes.
  assert (∀ P `{∀ x, Decision (P x)},
            NoDup (filter P log).*1) as Hsub.
  { intros P ?. eapply sublist_NoDup; [exact distinct|].
    apply fmap_sublist, sublist_filter. }
  assert (∀ x, x ∈ allowedOf log ∨ x ∈ blockedOf log → x ∉ convertedOf log) as Hconv.
  { intros x Hx (q & entity & _ & _ & ->)%elem_of_convertedOf.
    assert (String.length (entry q.1 entity) = 1) as Hlen.
    { destruct Hx as [(p & Hp & <- & _)%elem_of_allowedOf
                     |(p & Hp & <- & _)%elem_of_blockedOf]; by apply char_length. }
    by apply (entry_not_char q.1 entity _ Hlen). }
  apply NoDup_app. split_and!.
  - apply Hsub.
  - intros x Hx [Hb|Hc]%elem_of_app.
    + apply elem_of_allowedOf in Hx as (p & Hp & <- & Hv).
      apply elem_of_blockedOf in Hb as (q & Hq & E & Hv').
      rewrite (log_unique q p Hq Hp E) in Hv'. congruence.
    + apply (Hconv x); eauto.
  - apply NoDup_app. split_and!.
    + apply Hsub.
    + intros x Hx Hc. apply (Hconv x); eauto.
    + apply NoDup_convertedOf.
Qed.

End Log.

(** Every probe adds at most one member. *)
Lemma length_lists (log : list (string * option Call)) :
  (length (allowedOf log) + length (blockedOf log) + length (convertedOf log)
     ≤ length log)%nat.
Proof.
  unfold allowedOf, blockedOf, convertedOf.
  induction log as [|p l IH]; [done|].
  rewrite !filter_cons. cbn [omap list_omap]. unfold convertedEntry at 1.
  destruct (verdictOf p) as [[| |e]|].
  - rewrite decide_True by done. rewrite decide_False by done.
    rewrite fmap_cons. cbn [length]. lia.
  - rewrite decide_False by done. rewrite decide_True by done.
    rewrite fmap_cons. cbn [length]. lia.
  - rewrite !decide_False by done. cbn [length]. lia.
  - rewrite !decide_False by done. cbn [length]. lia.
Qed.

(** ** The per-candidate state machine *)

Section Candidate.
Context `{URLSyntax}.
Variable env : Env.
Variable s : Scanner.

Lemma checkSpecialChars_spec (inputURL baseURL : string) (reflectedInDOM : bool)
    (output : JSONOutput) (w : World) :
  ∃ (log : list (string * option Call)) (os : list Out),
    log.*1 = specialChars ∧
    (checkSpecialChars env s inputURL baseURL reflectedInDOM output w).1
      = mkJSONOutput (Processing output) (BaseURL output) (Reflected output)
          (Some (allowedOf log)) (Some (blockedOf log)) (Some (convertedOf log))
          (Some (list_to_map [("allowed", lenZ (allowedOf log));
                              ("blocked", lenZ (blockedOf log));
                              ("converted", lenZ (convertedOf log))])) ∧
    calls (checkSpecialChars env s inputURL baseURL reflectedInDOM output w).2
      = calls w ++ omap snd log ∧
    commands (checkSpecialChars env s inputURL baseURL reflectedInDOM output w).2
      = commands w ∧
    stdout (checkSpecialChars env s inputURL baseURL reflectedInDOM output w).2
      = stdout w ++ os ∧
    Forall notJSON os ∧
    Forall (λ p, ∀ c, p.2 = Some c →
                 channel c = probeChannel reflectedInDOM ∧
                 deadline c = probeDeadline s reflectedInDOM) log ∧
    (generatorSucceeds env inputURL → Forall (λ p, is_Some p.2) log).
Proof.
  destruct (probes_spec env s inputURL reflectedInDOM specialChars (mkSets [] [] []) w)
    as (log & os1 & Hlog & Hres & Hc & Hm & _ & Ho & Hos1 & Hch & Hok).
  unfold checkSpecialChars. rewrite !bind_run.
  set (r := foldM (probe env s inputURL reflectedInDOM) (mkSets [] [] []) specialChars w) in *.
  assert (allowed r.1 = allowedOf log) as Ha by (by rewrite Hres, allowed_foldl).
  assert (blocked r.1 = blockedOf log) as Hb by (by rewrite Hres, blocked_foldl).
  assert (converted r.1 = convertedOf log) as Hcv by (by rewrite Hres, converted_foldl).
  match goal with
  | |- context [when ?b ?m r.2] =>
      assert (quiet (when b m)) as Hq
        by (apply quiet_when, quiet_if; repeat apply quiet_seq; eauto with scan);
      destruct (Hq r.2) as (Hc' & Hm' & _ & os2 & Ho' & Hos2)
  end.
  exists log, (os1 ++ os2). cbn [ret fst snd]. split_and!; try done.
  - by rewrite Ha, Hb, Hcv.
  - by rewrite Hc'.
  - by rewrite Hm'.
  - by rewrite Ho', Ho, <-(assoc_L (++)).
  - by apply Forall_app.
Qed.

Lemma deadlineOK_probes (reflectedInDOM : bool)
    (log : list (string * option Call)) :
  Forall (λ p, ∀ c, p.2 = Some c →
               channel c = probeChannel reflectedInDOM ∧
               deadline c = probeDeadline s reflectedInDOM) log →
  Forall (deadlineOK s) (omap snd log) ∧
  Forall (λ c, channel c = probeChannel reflectedInDOM) (omap snd log).
Proof.
  induction 1 as [|[char [c|]] log Hp _ [IH1 IH2]]; cbn [omap list_omap snd].
  - by split; constructor.
  - destruct (Hp c eq_refl) as [Hch Hdl]. split; constructor; try done.
    unfold deadlineOK. rewrite Hch, Hdl. by destruct reflectedInDOM.
  - done.
Qed.

(** What follows the detection of a reflection in [body]. *)
Lemma reflected_spec (inputURL baseURL : string) (reflectedInDOM : bool)
    (output : JSONOutput) (w : World) :
  consistent output →
  let m :=
    (printReflected s true ;;;
     if SkipSpecialChar (opts s) then printJSON s output
     else
       let* output := checkSpecialChars env s inputURL baseURL reflectedInDOM output in
       printJSON s output) in
  ∃ (probes : list Call) (os : list Out),
    calls (m w).2 = calls w ++ probes ∧
    commands (m w).2 = commands w ∧
    stdout (m w).2 = stdout w ++ os ∧
    recordsOK os ∧
    Forall (deadlineOK s) probes ∧
    Forall (λ c, channel c = probeChannel reflectedInDOM) probes.
Proof.
  intros Hcons m. subst m. rewrite bind_run.
  destruct (quiet_printReflected s true w) as (Hc0 & Hm0 & _ & os0 & Ho0 & Hos0).
  set (w0 := (printReflected s true w).2) in *.
  assert (recordsOK os0) as Hrec0.
  { eapply Forall_impl; [exact Hos0|]. intros o Ho j ->. by destruct (Ho j). }
  destruct (SkipSpecialChar (opts s)).
  - destruct (printJSON_spec s output w0 Hcons) as (Hc & Hm & _ & os & Ho & Hos).
    exists [], (os0 ++ os). split_and!; try constructor.
    + by rewrite Hc, Hc0, app_nil_r.
    + by rewrite Hm.
    + by rewrite Ho, Ho0, <-(assoc_L (++)).
    + by apply Forall_app.
  - rewrite bind_run.
    destruct (checkSpecialChars_spec inputURL baseURL reflectedInDOM output w0)
      as (log & os1 & Hlog & Hout & Hc1 & Hm1 & Ho1 & Hos1 & Hch & _).
    set (r := checkSpecialChars env s inputURL baseURL reflectedInDOM output w0) in *.
    assert (consistent r.1) as Hcons1.
    { right. rewrite Hout. by eexists _, _, _. }
    destruct (printJSON_spec s r.1 r.2 Hcons1) as (Hc & Hm & _ & os & Ho & Hos).
    destruct (deadlineOK_probes _ _ Hch) as [Hdl Hchan].
    exists (omap snd log), (os0 ++ os1 ++ os). split_and!; try done.
    + by rewrite Hc, Hc1, Hc0.
    + by rewrite Hm, Hm1.
    + by rewrite Ho, Ho1, Ho0, <-!(assoc_L (++)).
    + apply Forall_app. split; [done|]. apply Forall_app. split; [|done].
      eapply Forall_impl; [exact Hos1|]. intros o Hn j ->. by destruct (Hn j).
Qed.

Lemma notJSON_recordsOK (os : list Out) : Forall notJSON os → recordsOK os.
Proof.
  intros Hos. eapply Forall_impl; [exact Hos|]. intros o Ho j ->. by destruct (Ho j).
Qed.

(** What follows when no reflection was found. *)
Lemma not_reflected_spec (output : JSONOutput) (w : World) :
  consistent output →
  let m := (printReflected s false ;;; printJSON s output) in
  ∃ os : list Out,
    calls (m w).2 = calls w ∧ commands (m w).2 = commands w ∧
    stdout (m w).2 = stdout w ++ os ∧ recordsOK os.
Proof.
  intros Hcons m. subst m. rewrite bind_run.
  destruct (quiet_printReflected s false w) as (Hc0 & Hm0 & _ & os0 & Ho0 & Hos0).
  destruct (printJSON_spec s output (printReflected s false w).2 Hcons)
    as (Hc & Hm & _ & os & Ho & Hos).
  exists (os0 ++ os). split_and!.
  - by rewrite Hc.
  - by rewrite Hm.
  - by rewrite Ho, Ho0, <-(assoc_L (++)).
  - apply Forall_app. split; [by apply notJSON_recordsOK|done].
Qed.

(** The state machine of one candidate: the static fetch, the rendering
    fetch when the static body does not show the marker, and then the
    probes, all through one channel. *)
Lemma processBaseURL_spec (inputURL baseURL : string) (w : World) :
  let c1 := mkCall Static baseURL (clientDeadline (client s))
              (net env (length (calls w)) Static baseURL) in
  let c2 := mkCall Rendering baseURL (Some (30 * Second)%Z)
              (net env (S (length (calls w))) Rendering baseURL) in
  let w' := (processBaseURL env s inputURL baseURL w).2 in
  ∃ (probes : list Call) (os : list Out),
    commands w' = commands w ∧
    stdout w' = stdout w ++ os ∧
    recordsOK os ∧
    Forall (deadlineOK s) probes ∧
    match reply c1 with
    | inr _ => calls w' = calls w ++ [c1] ∧ Forall notJSON os
    | inl body =>
        if Contains body "rix4uni" then
          calls w' = calls w ++ c1 :: probes ∧
          Forall (λ c, channel c = Static) probes
        else
          match reply c2 with
          | inr _ => calls w' = calls w ++ [c1; c2] ∧ Forall notJSON os
          | inl body2 =>
              calls w' = calls w ++ c1 :: c2 :: probes ∧
              Forall (λ c, channel c = Rendering) probes ∧
              (Contains body2 "rix4uni" = false → probes = [])
          end
    end.
Proof.
  intros c1 c2 w'. subst w'. unfold processBaseURL. rewrite bind_run.
  match goal with
  | |- context [when ?b ?m w] =>
      assert (quiet (when b m)) as Hq by eauto with scan;
      destruct (Hq w) as (Hc0 & Hm0 & _ & os0 & Ho0 & Hos0);
      set (w0 := (when b m w).2) in *; clearbody w0; clear Hq
  end.
  rewrite bind_run. unfold fetch, perform. cbn [fst snd]. rewrite Hc0.
  fold c1. set (w1 := mkWorld _ _ _ _).
  assert (calls w1 = calls w ++ [c1]) as Hc1 by done.
  assert (commands w1 = commands w) as Hm1 by done.
  assert (stdout w1 = stdout w ++ os0) as Ho1 by done.
  clearbody w1. cbn [reply c1]. subst c1.
  destruct (net env (length (calls w)) Static baseURL) as [body|err].
  2:{ match goal with
      | |- context [when ?b ?m w1] =>
          assert (quiet (when b m)) as Hq by eauto with scan;
          destruct (Hq w1) as (Hc & Hm & _ & os & Ho & Hos)
      end.
      exists [], (os0 ++ os). split_and!; try constructor.
      - by rewrite Hm.
      - by rewrite Ho, Ho1, <-(assoc_L (++)).
      - apply notJSON_recordsOK. by apply Forall_app.
      - by rewrite Hc.
      - by apply Forall_app. }
  rewrite bind_run. destruct (Contains body "rix4uni") eqn:Hbody; cbn [negb].
  - cbn [ret fst snd]. rewrite Hbody. cbv zeta.
    match goal with
    | |- context [setReflected ?o true] =>
        destruct (reflected_spec inputURL baseURL false (setReflected o true) w1)
          as (probes & os & Hc & Hm & Ho & Hos & Hdl & Hch); [by left|]
    end.
    cbv zeta in Hc, Hm, Ho. exists probes, (os0 ++ os). split_and!; try done.
    + by rewrite Hm.
    + by rewrite Ho, Ho1, <-(assoc_L (++)).
    + apply Forall_app. split; [by apply notJSON_recordsOK|done].
    + by rewrite Hc, Hc1, <-(assoc_L (++)).
  - rewrite bind_run. unfold GetDOM, perform. cbn [fst snd].
    rewrite Hc1, length_app. cbn [length]. rewrite Nat.add_1_r.
    set (w2 := mkWorld _ _ _ _).
    assert (calls w2 = calls w ++ [mkCall Static baseURL (clientDeadline (client s))
                                     (inl body); c2]) as Hc2.
    { subst w2. cbn. by rewrite <-(assoc_L (++)). }
    assert (commands w2 = commands w) as Hm2 by done.
    assert (stdout w2 = stdout w ++ os0) as Ho2 by done.
    clearbody w2. subst c2. cbn [reply] in *.
    destruct (net env (S (length (calls w))) Rendering baseURL) as [body2|err2].
    + cbn [ret fst snd]. cbv zeta.
      destruct (Contains body2 "rix4uni") eqn:Hbody2.
      * match goal with
        | |- context [setReflected ?o true] =>
            destruct (reflected_spec inputURL baseURL true (setReflected o true) w2)
              as (probes & os & Hc & Hm & Ho & Hos & Hdl & Hch); [by left|]
        end.
        cbv zeta in Hc, Hm, Ho. exists probes, (os0 ++ os). split_and!; try done.
        -- by rewrite Hm.
        -- by rewrite Ho, Ho2, <-(assoc_L (++)).
        -- apply Forall_app. split; [by apply notJSON_recordsOK|done].
        -- by rewrite Hc, Hc2, <-(assoc_L (++)).
      * match goal with
        | |- context [setReflected ?o false] =>
            destruct (not_reflected_spec (setReflected o false) w2)
              as (os & Hc & Hm & Ho & Hos); [by left|]
        end.
        cbv zeta in Hc, Hm, Ho. exists [], (os0 ++ os). split_and!; try done.
        -- by rewrite Hm.
        -- by rewrite Ho, Ho2, <-(assoc_L (++)).
        -- apply Forall_app. split; [by apply notJSON_recordsOK|done].
        -- by rewrite Hc, Hc2.
    + rewrite bind_run. cbn [ret fst snd].
      match goal with
      | |- context [when ?b ?m w2] =>
          assert (quiet (when b m)) as Hq by eauto with scan;
          destruct (Hq w2) as (Hc & Hm & _ & os & Ho & Hos)
      end.
      exists [], (os0 ++ os). split_and!; try constructor.
      * by rewrite Hm.
      * by rewrite Ho, Ho2, <-(assoc_L (++)).
      * apply notJSON_recordsOK. by apply Forall_app.
      * by rewrite Hc.
      * by apply Forall_app.
Qed.


(** The network operations and the output of one candidate. *)
Lemma processBaseURL_effect (inputURL baseURL : string) (w : World) :
  ∃ (cs : list Call) (os : list Out),
    calls (processBaseURL env s inputURL baseURL w).2 = calls w ++ cs ∧
    commands (processBaseURL env s inputURL baseURL w).2 = commands w ∧
    stdout (processBaseURL env s inputURL baseURL w).2 = stdout w ++ os ∧
    recordsOK os ∧
    Forall (deadlineOK s) cs.
Proof.
  destruct (processBaseURL_spec inputURL baseURL w)
    as (probes & os & Hm & Ho & Hos & Hdl & Hcalls).
  cbv zeta in *. cbn [reply] in Hcalls.
  assert (∀ r, deadlineOK s (mkCall Static baseURL (clientDeadline (client s)) r))
    as Hd1 by done.
  assert (∀ r, deadlineOK s (mkCall Rendering baseURL (Some (30 * Second)%Z) r))
    as Hd2 by done.
  destruct (net env (length (calls w)) Static baseURL) as [body|err].
  - destruct (Contains body "rix4uni").
    + destruct Hcalls as [Hc _]. eexists _, os. split_and!; try done.
      by constructor.
    + destruct (net env (S (length (calls w))) Rendering baseURL) as [body2|err2].
      * destruct Hcalls as (Hc & _ & _). eexists _, os. split_and!; try done.
        by repeat constructor.
      * destruct Hcalls as [Hc _]. eexists _, os. split_and!; try done.
        by repeat constructor.
  - destruct Hcalls as [Hc _]. eexists _, os. split_and!; try done.
    by repeat constructor.
Qed.

Lemma forM_processBaseURL_effect (inputURL : string) (baseURLs : list string)
    (w : World) :
  ∃ (cs : list Call) (os : list Out),
    calls (forM baseURLs (processBaseURL env s inputURL) w).2 = calls w ++ cs ∧
    commands (forM baseURLs (processBaseURL env s inputURL) w).2 = commands w ∧
    stdout (forM baseURLs (processBaseURL env s inputURL) w).2 = stdout w ++ os ∧
    recordsOK os ∧
    Forall (deadlineOK s) cs.
Proof.
  revert w. induction baseURLs as [|baseURL baseURLs IH]; intros w.
  - exists [], []. cbn. split_and!; try done; try appended; constructor.
  - rewrite !forM_cons.
    destruct (processBaseURL_effect inputURL baseURL w)
      as (cs1 & os1 & Hc1 & Hm1 & Ho1 & Hos1 & Hd1).
    destruct (IH (processBaseURL env s inputURL baseURL w).2)
      as (cs & os & Hc & Hm & Ho & Hos & Hd).
    exists (cs1 ++ cs), (os1 ++ os). split_and!.
    + by rewrite Hc, Hc1, <-(assoc_L (++)).
    + by rewrite Hm.
    + by rewrite Ho, Ho1, <-(assoc_L (++)).
    + by apply Forall_app.
    + by apply Forall_app.
Qed.

(** The network operations and the output of one input URL. *)
Lemma Scan_effect (inputURL : string) (w : World) :
  ∃ (cs : list Call) (os : list Out),
    calls (Scan env s inputURL w).2 = calls w ++ cs ∧
    commands (Scan env s inputURL w).2 = commands w ∧
    stdout (Scan env s inputURL w).2 = stdout w ++ os ∧
    recordsOK os ∧
    Forall (deadlineOK s) cs.
Proof.
  unfold Scan. rewrite bind_run.
  match goal with
  | |- context [when ?b ?m w] =>
      assert (quiet (when b m)) as Hq by eauto with scan;
      destruct (Hq w) as (Hc0 & Hm0 & _ & os0 & Ho0 & Hos0);
      set (w0 := (when b m w).2) in *; clearbody w0; clear Hq
  end.
  rewrite bind_run. unfold generate. cbn [fst snd].
  set (w1 := mkWorld _ _ _ _).
  assert (calls w1 = calls w) as Hc1 by done.
  assert (commands w1 = commands w) as Hm1 by done.
  assert (stdout w1 = stdout w ++ os0) as Ho1 by done.
  clearbody w1.
  change (λ baseURL, processBaseURL env s inputURL baseURL)
    with (processBaseURL env s inputURL).
  destruct (GenerateTargetURLs _ _ _) as [baseURLs|err].
  - destruct (forM_processBaseURL_effect inputURL baseURLs w1)
      as (cs & os & Hc & Hm & Ho & Hos & Hd).
    exists cs, (os0 ++ os). split_and!; try done.
    + by rewrite Hc, Hc1.
    + by rewrite Hm.
    + by rewrite Ho, Ho1, <-(assoc_L (++)).
    + apply Forall_app. split; [by apply notJSON_recordsOK|done].
  - match goal with
    | |- context [when ?b ?m w1] =>
        assert (quiet (when b m)) as Hq by eauto with scan;
        destruct (Hq w1) as (Hc & Hm & _ & os & Ho & Hos)
    end.
    exists [], (os0 ++ os). split_and!; try constructor.
    + by rewrite Hc, Hc1, app_nil_r.
    + by rewrite Hm.
    + by rewrite Ho, Ho1, <-(assoc_L (++)).
    + apply notJSON_recordsOK. by apply Forall_app.
Qed.

(** An input that yields a candidate once yields one for every payload,
    whatever legal orders the run-time picks. *)
Lemma generator_succeeds (inputURL : string) :
  (∀ g i, legalOrder (order env g i)) →
  (∃ g payload baseURL rest,
     GenerateTargetURLs (order env g) inputURL payload = inl (baseURL :: rest)) →
  generatorSucceeds env inputURL.
Proof.
  intros Hlegal (g0 & p0 & b & bs & Hgen) g payload.
  unfold GenerateTargetURLs in *.
  destruct (Contains inputURL "{payload}"); [eauto|].
  destruct (Parse inputURL) as [u|err]; [|done].
  destruct (Nat.eqb_spec (size (Query u)) 0) as [|Hsize]; [done|].
  pose proof (Hlegal g 0 (map_to_list (Query u))) as Hperm.
  destruct (order env g 0 (map_to_list (Query u))) as [|kv l]; [|cbn; eauto].
  apply Permutation_nil_l in Hperm. destruct Hsize.
  by rewrite <-length_map_to_list, <-Hperm.
Qed.

End Candidate.

Lemma NoDup_specialChars : NoDup specialChars.
Proof. apply (bool_decide_unpack _). by vm_compute. Qed.

Lemma specialChars_bytes : Forall (λ c, String.length c = 1) specialChars.
Proof. by repeat constructor. Qed.

End ScannerFacts.

(* ===================================================================== *)
(** * Facts about the earlier program *)
(* ===================================================================== *)

Module LegacyFacts.
Import Strings NetURL Utils Scanner Notions ScanNotions ScannerFacts.

(** ** Computations that only append *)

Section Appends.
Variable P : Call → Prop.
Variable Q : Out → Prop.

Lemma appends_ret {A : Type} (a : A) : appends P Q (ret a).
Proof. intros w. exists [], []. cbn. split_and!; try appended; constructor. Qed.

Lemma appends_bind {A B : Type} (m : M A) (k : A → M B) :
  appends P Q m → (∀ a, appends P Q (k a)) → appends P Q (bind m k).
Proof.
  intros Hm Hk w. rewrite bind_run.
  destruct (Hm w) as (cs1 & os1 & Hc1 & Ho1 & HP1 & HQ1).
  destruct (Hk (m w).1 (m w).2) as (cs2 & os2 & Hc2 & Ho2 & HP2 & HQ2).
  exists (cs1 ++ cs2), (os1 ++ os2). split_and!.
  - by rewrite Hc2, Hc1, <-(assoc_L (++)).
  - by rewrite Ho2, Ho1, <-(assoc_L (++)).
  - by apply Forall_app.
  - by apply Forall_app.
Qed.

Lemma appends_print (o : Out) : Q o → appends P Q (print o).
Proof.
  intros Ho w. exists [], [o]. cbn. split_and!; try appended; by repeat constructor.
Qed.

Lemma appends_when (b : bool) (m : M unit) :
  appends P Q m → appends P Q (when b m).
Proof. destruct b; [done|]. intros _. apply appends_ret. Qed.

Lemma appends_perform (env : Env) (ch : Channel) (dl : option Z) (url : string) :
  (∀ r, P (mkCall ch url dl r)) → appends P Q (perform env ch dl url).
Proof.
  intros HP w. eexists [_], []. cbn. split_and!; try appended; by repeat constructor.
Qed.

Lemma appends_forM {A : Type} (l : list A) (f : A → M unit) :
  (∀ a, appends P Q (f a)) → appends P Q (forM l f).
Proof.
  intros Hf. induction l as [|a l IH]; [apply appends_ret|].
  cbn [forM]. apply appends_bind; [apply Hf|]. by intros _.
Qed.

Lemma appends_foldM {A S : Type} (f : S → A → M S) (acc : S) (l : list A) :
  (∀ acc a, appends P Q (f acc a)) → appends P Q (foldM f acc l).
Proof.
  intros Hf. revert acc. induction l as [|a l IH]; intros acc; [apply appends_ret|].
  cbn [foldM]. apply appends_bind; [apply Hf|]. intros acc'. apply IH.
Qed.

End Appends.

(** Takes a computation apart along its binds and branches. *)
Ltac appends_step :=
  match goal with
  | |- appends _ _ (bind _ _) => apply appends_bind; [|intros ?]
  | |- appends _ _ (ret _) => apply appends_ret
  | |- appends _ _ (when _ _) => apply appends_when
  | |- appends _ _ (forM _ _) => apply appends_forM; intros ?
  | |- appends _ _ (foldM _ _ _) => apply appends_foldM; intros ? ?
  | |- appends _ _ (if ?b then _ else _) => destruct b
  | |- appends _ _ (match ?x with _ => _ end) => destruct x
  end.

Lemma recordOK_line (o : Out) : notJSON o → recordOK o.
Proof. intros Ho j ->. by destruct (Ho j). Qed.

Lemma recordOK_lists (processing baseurl : string) (reflected : bool)
    (A B C : list string) :
  recordOK (PrintlnJSON (Marshal
    (mkJSONOutput processing baseurl reflected (Some A) (Some B) (Some C)
       (Some (list_to_map [("allowed", lenZ A); ("blocked", lenZ B);
                           ("converted", lenZ C)]))))).
Proof. intros j [= <-]. by exists processing, baseurl, reflected, A, B, C. Qed.

Section Run.
Variable env : Env.
Variable flags : Legacy.Flags.

Local Abbreviation ok := (appends (legacyDeadlineOK flags) recordOK).

Lemma ok_line (o : Out) : notJSON o → ok (print o).
Proof. intros Ho. by apply appends_print, recordOK_line. Qed.

Lemma ok_fetch (url : string) : ok (Legacy.fetch env flags url).
Proof. by apply appends_perform. Qed.

Lemma ok_GetDOM (url : string) : ok (Legacy.GetDOM env url).
Proof. by apply appends_perform. Qed.

Lemma ok_runPvreplace (inputURL payload : string) :
  ok (Legacy.runPvreplace env inputURL payload).
Proof. intros w. exists [], []. cbn. split_and!; try appended; constructor. Qed.

Lemma ok_printRecord (processing baseurl : string) (reflected : bool)
    (A B C : list string) :
  ok (Legacy.printRecord
        (mkJSONOutput processing baseurl reflected (Some A) (Some B) (Some C)
           (Some (list_to_map [("allowed", lenZ A); ("blocked", lenZ B);
                               ("converted", lenZ C)])))).
Proof. apply appends_print, recordOK_lists. Qed.

Create HintDb legacy.
#[local] Hint Resolve ok_line ok_fetch ok_GetDOM ok_runPvreplace ok_printRecord
  notJSON_Printf notJSON_Println : legacy.

Lemma ok_probeFirst (reflectedInDOM : bool) (char : string)
    (testURLs : list string) (acc : Sets) :
  ok (Legacy.probeFirst env flags reflectedInDOM char testURLs acc).
Proof.
  induction testURLs as [|testURL rest IH]; cbn [Legacy.probeFirst].
  - apply appends_ret.
  - repeat first [ assumption | appends_step | solve [eauto with legacy] ].
Qed.

Lemma ok_probe (inputURL baseURL : string) (reflectedInDOM : bool)
    (acc : Sets) (char : string) :
  ok (Legacy.probe env flags inputURL baseURL reflectedInDOM acc char).
Proof.
  unfold Legacy.probe.
  repeat first [ apply ok_probeFirst | appends_step | solve [eauto with legacy] ].
Qed.

Lemma ok_processBase (inputURL baseURL : string) :
  ok (Legacy.processBase env flags inputURL baseURL).
Proof.
  unfold Legacy.processBase, setReflected. cbn [Processing BaseURL Reflected].
  generalize (Legacy.TrimSpace baseURL). intros candidate.
  repeat first [ appends_step | solve [eauto with legacy] | apply ok_probe
               | apply (ok_printRecord _ _ _ [] [] []) ].
Qed.

(** The earlier program on one input URL: every static fetch carries the
    client timeout as its deadline, every render carries none, and every
    JSON record is well formed. *)
Lemma ok_processURL (inputURL : string) : ok (Legacy.processURL env flags inputURL).
Proof.
  unfold Legacy.processURL.
  repeat first [ apply ok_processBase | appends_step | solve [eauto with legacy] ].
Qed.

(** ** The probes of the earlier program *)

Local Abbreviation onChannel reflectedInDOM :=
  (appends (λ c, channel c = probeChannel reflectedInDOM) (λ _, True)).

Lemma onChannel_probeFirst (reflectedInDOM : bool) (char : string)
    (testURLs : list string) (acc : Sets) :
  onChannel reflectedInDOM
    (Legacy.probeFirst env flags reflectedInDOM char testURLs acc).
Proof.
  induction testURLs as [|testURL rest IH]; cbn [Legacy.probeFirst].
  - apply appends_ret.
  - repeat first [ assumption | appends_step | by apply appends_print
                 | by apply appends_perform ].
Qed.

Lemma onChannel_probe (inputURL baseURL : string) (reflectedInDOM : bool)
    (acc : Sets) (char : string) :
  onChannel reflectedInDOM
    (Legacy.probe env flags inputURL baseURL reflectedInDOM acc char).
Proof.
  unfold Legacy.probe.
  repeat first [ apply onChannel_probeFirst | appends_step | by apply appends_print ].
  all: intros w; exists [], []; cbn; split_and!; try appended; constructor.
Qed.

(** The probes of one candidate all go through the channel on which the
    marker was seen. *)
Lemma onChannel_probes (inputURL baseURL : string) (reflectedInDOM : bool)
    (acc : Sets) :
  onChannel reflectedInDOM
    (foldM (Legacy.probe env flags inputURL baseURL reflectedInDOM) acc specialChars).
Proof. apply appends_foldM. intros acc' char. apply onChannel_probe. Qed.

(** The loop over the test URLs of one character: the fetches that
    failed, one for each test URL in turn, and then either nothing more,
    every test URL having been tried, or the fetch of the next test URL,
    which returned a body, on which the character is classified. *)
Lemma legacy_probeFirst_spec (reflectedInDOM : bool) (char : string)
    (testURLs : list string) (acc : Sets) (w : World) :
  let r := Legacy.probeFirst env flags reflectedInDOM char testURLs acc w in
  ∃ tried : list Call,
    Forall failed tried ∧
    ((target <$> tried = testURLsOf testURLs ∧
      calls r.2 = calls w ++ tried ∧ r.1 = acc) ∨
     ∃ c body later,
       reply c = inl body ∧
       testURLsOf testURLs = (target <$> tried) ++ target c :: later ∧
       calls r.2 = calls w ++ tried ++ [c] ∧
       r.1 = legacyRecordVerdict acc char
               (Spec.classify body "rix4uni" char (conversions !! char))).
Proof.
  cbv zeta. revert w. induction testURLs as [|testURL rest IH]; intros w.
  - exists []. split; [constructor|]. left. split_and!; [done|appended|done].
  - cbn [Legacy.probeFirst]. unfold testURLsOf in *. rewrite fmap_cons, filter_cons.
    generalize (Legacy.TrimSpace testURL). intros url.
    destruct (String.eqb_spec url "") as [->|Hurl].
    { rewrite decide_False by (by intros ?). apply IH. }
    rewrite decide_True by done.
    rewrite !bind_run.
    set (w1 := (when _ _ w).2).
    assert (calls w1 = calls w) as Hw1.
    { unfold w1, when, print. by destruct (_ && _), (Legacy.noColor flags). }
    clearbody w1.
    set (ch := probeChannel reflectedInDOM).
    set (dl := if reflectedInDOM then None
               else clientDeadline (mkClient (mkTransport true None)
                      (wrap64 (wrap64 (Legacy.timeout flags) * Second)))).
    assert ((if reflectedInDOM then Legacy.GetDOM env url
             else Legacy.fetch env flags url) = perform env ch dl url) as ->.
    { by destruct reflectedInDOM. }
    unfold perform. cbn [fst snd]. rewrite Hw1.
    set (c := mkCall ch url dl (net env (length (calls w)) ch url)).
    assert (reply c = net env (length (calls w)) ch url) as Hc by done.
    destruct (net env (length (calls w)) ch url) as [testBody|err].
    + exists []. split; [constructor|]. right.
      exists c, testBody, (filter (λ url, url ≠ "") (Legacy.TrimSpace <$> rest)).
      split; [done|]. split; [done|].
      unfold Spec.classify, legacyRecordVerdict, legacyEntry.
      destruct (Contains testBody ("rix4uni" +:+ char)); [by split|].
      destruct (conversions !! char) as [conv|]; [|by split].
      by destruct (Contains testBody ("rix4uni" +:+ conv)).
    + rewrite bind_run.
      set (w2 := (when _ _ _).2).
      assert (calls w2 = calls w ++ [c]) as Hw2.
      { unfold w2, when, print. by destruct (Legacy.verbose flags). }
      clearbody w2. destruct (IH w2) as (tried & Htried & Hrest).
      exists (c :: tried). split; [constructor; [by exists err|done]|].
      destruct Hrest as [(Hurls & Hcalls & Hres)
                        |(c0 & body & later & Hr & Hurls & Hcalls & Hres)].
      * left. split_and!; [|rewrite Hcalls, Hw2; appended|done].
        rewrite fmap_cons, Hurls. done.
      * right. exists c0, body, later. split_and!; [done| | |done].
        -- rewrite fmap_cons, Hurls. done.
        -- rewrite Hcalls, Hw2. appended.
Qed.

(** One turn of the loop over the characters: on the test URLs of the
    character, and nothing at all when [pvreplace] fails. *)
Lemma legacy_probe_spec (inputURL baseURL : string) (reflectedInDOM : bool)
    (acc : Sets) (char : string) (w : World) :
  let r := Legacy.probe env flags inputURL baseURL reflectedInDOM acc char w in
  match legacyTestURLs env inputURL baseURL char w with
  | None => calls r.2 = calls w ∧ r.1 = acc
  | Some urls =>
      ∃ tried : list Call,
        Forall failed tried ∧
        ((target <$> tried = urls ∧ calls r.2 = calls w ++ tried ∧ r.1 = acc) ∨
         ∃ c body later,
           reply c = inl body ∧
           urls = (target <$> tried) ++ target c :: later ∧
           calls r.2 = calls w ++ tried ++ [c] ∧
           r.1 = legacyRecordVerdict acc char
                   (Spec.classify body "rix4uni" char (conversions !! char)))
  end.
Proof.
  cbv zeta. unfold Legacy.probe, legacyTestURLs. rewrite bind_run.
  destruct (Contains inputURL "?").
  - unfold Legacy.runPvreplace. cbv zeta. cbn [fst snd].
    destruct (exec env _ _ _) as [out|err].
    + match goal with
      | |- context [Legacy.probeFirst _ _ _ _ ?l _ ?w1] =>
          destruct (legacy_probeFirst_spec reflectedInDOM char l acc w1)
            as (tried & Htried & Hrest)
      end.
      exists tried. split; [done|]. exact Hrest.
    + rewrite bind_run. by split.
  - destruct (Contains inputURL "{payload}"); cbn [ret fst snd].
    + destruct (legacy_probeFirst_spec reflectedInDOM char
                  (Split (ReplaceAll inputURL "{payload}" ("rix4uni" +:+ char))
                     Main.newline) acc w) as (tried & Htried & Hrest).
      exists tried. by split.
    + destruct (legacy_probeFirst_spec reflectedInDOM char
                  (Split "" Main.newline) acc w) as (tried & Htried & Hrest).
      exists tried. by split.
Qed.

(** A computation that issues no network operation. *)
Local Abbreviation offline := (appends (λ _, False) (λ _, True)).

Lemma offline_calls {A : Type} (m : M A) (w : World) :
  offline m → calls (m w).2 = calls w.
Proof.
  intros Hm. destruct (Hm w) as (cs & os & Hcs & _ & Hnone & _).
  destruct Hnone as [|c cs []]. by rewrite Hcs, app_nil_r.
Qed.

(** The network operations of one candidate of the earlier program. *)
Lemma processBase_calls (inputURL baseURL : string) (w : World) :
  let url := Legacy.TrimSpace baseURL in
  let c1 := mkCall Static url (staticDeadline (Legacy.timeout flags))
              (net env (length (calls w)) Static url) in
  let c2 := mkCall Rendering url None
              (net env (S (length (calls w))) Rendering url) in
  let w' := (Legacy.processBase env flags inputURL baseURL w).2 in
  if String.eqb url "" then calls w' = calls w
  else
    ∃ probes : list Call,
      match reply c1 with
      | inr _ => calls w' = calls w ++ [c1]
      | inl body =>
          if Contains body "rix4uni" then
            calls w' = calls w ++ c1 :: probes ∧
            Forall (λ c, channel c = Static) probes
          else
            match reply c2 with
            | inr _ => calls w' = calls w ++ [c1; c2]
            | inl body2 =>
                calls w' = calls w ++ c1 :: c2 :: probes ∧
                Forall (λ c, channel c = Rendering) probes ∧
                (Contains body2 "rix4uni" = false → probes = [])
            end
      end.
Proof.
  cbv zeta. unfold Legacy.processBase, setReflected. cbn [Processing BaseURL Reflected reply].
  generalize (Legacy.TrimSpace baseURL). intros url.
  destruct (String.eqb url ""); [done|].
  rewrite !bind_run.
  set (w1 := (when _ _ w).2).
  assert (calls w1 = calls w) as Hw1.
  { apply offline_calls. repeat first [appends_step | by apply appends_print]. }
  clearbody w1. unfold Legacy.fetch, perform. cbn [fst snd]. rewrite Hw1.
  change (clientDeadline _) with (staticDeadline (Legacy.timeout flags)).
  set (c1 := mkCall Static url _ _).
  destruct (net env (length (calls w)) Static url) as [body|err].
  - rewrite bind_run. destruct (Contains body "rix4uni") eqn:Hbody; cbn [negb].
    + cbn [ret fst snd]. rewrite Hbody.
      match goal with |- context [calls (?m ?w2).2] =>
        assert (onChannel false m) as Hm; [|destruct (Hm w2) as (cs & os & Hcs & _ & Hch & _)]
      end.
      { repeat first [ appends_step | by apply appends_print | apply onChannel_probe ]. }
      exists cs. split; [|done]. rewrite Hcs. cbn [calls]. appended.
    + rewrite bind_run. unfold Legacy.GetDOM, perform. cbn [fst snd calls].
      rewrite length_app, Nat.add_1_r. cbn [length].
      set (c2 := mkCall Rendering url _ _).
      destruct (net env (S (length (calls w))) Rendering url) as [body2|err].
      * cbn [ret fst snd]. destruct (Contains body2 "rix4uni") eqn:Hbody2.
        -- match goal with |- context [calls (?m ?w2).2] =>
             assert (onChannel true m) as Hm;
               [|destruct (Hm w2) as (cs & os & Hcs & _ & Hch & _)]
           end.
           { repeat first [ appends_step | by apply appends_print
                          | apply onChannel_probe ]. }
           exists cs. split_and!; [|done..]. rewrite Hcs. cbn [calls]. appended.
        -- exists []. split_and!; [|done..]. rewrite offline_calls.
           ++ cbn [calls]. appended.
           ++ repeat first [appends_step | by apply appends_print].
      * exists []. rewrite bind_run. cbn [ret fst snd].
        rewrite offline_calls; [cbn [calls]; appended|].
        repeat first [appends_step | by apply appends_print].
  - exists []. rewrite offline_calls; [done|].
    repeat first [appends_step | by apply appends_print].
Qed.


(** A turn of the loop adds at most one entry to the three lists. *)
Lemma probe_entries (inputURL baseURL : string) (reflectedInDOM : bool)
    (acc : Sets) (char : string) (w : World) :
  (entries (Legacy.probe env flags inputURL baseURL reflectedInDOM acc char w).1
     ≤ S (entries acc))%nat.
Proof.
  pose proof (legacy_probe_spec inputURL baseURL reflectedInDOM acc char w) as Hspec.
  cbv zeta in Hspec.
  destruct (legacyTestURLs env inputURL baseURL char w) as [urls|];
    [|destruct Hspec as [_ ->]; lia].
  destruct Hspec as (tried & _ & [(_ & _ & ->)|(c & body & later & _ & _ & _ & ->)]);
    [lia|].
  unfold entries.
  destruct (Spec.classify _ _ _ _); cbn; rewrite length_app; cbn; lia.
Qed.

Lemma probes_entries (inputURL baseURL : string) (reflectedInDOM : bool)
    (chars : list string) (acc : Sets) (w : World) :
  (entries (foldM (Legacy.probe env flags inputURL baseURL reflectedInDOM)
              acc chars w).1
     ≤ entries acc + length chars)%nat.
Proof.
  revert acc w. induction chars as [|char chars IH]; intros acc w.
  - cbn. lia.
  - rewrite foldM_cons. etrans; [apply IH|].
    pose proof (probe_entries inputURL baseURL reflectedInDOM acc char w).
    cbn [length]. lia.
Qed.

End Run.

(** ** Two runs of the earlier program *)

(** An input with a query string goes to [pvreplace], also when it holds
    the placeholder. *)
Example query_string_comes_first :
  let flags := Legacy.mkFlags "Mozilla/5.0" 15 false false false false in
  let w := (Legacy.processURL (server (inl "") (inl "")) flags
              "http://x/{payload}?q=1" emptyWorld).2 in
  calls w = [] ∧
  commands w =
    [mkCommand ["pvreplace"; "-silent"; "-payload"; "rix4uni";
                "-fuzzing-mode"; "single"]
       "http://x/{payload}?q=1" (inr (errorString "exec: not started"))].
Proof. split; vm_compute; reflexivity. Qed.

(** When the fetch of the first test URL of a character fails, the next
    test URL is fetched and the character is classified on its body. *)
Example next_test_URL_is_tried :
  let flags := Legacy.mkFlags "Mozilla/5.0" 15 false false false false in
  let env := mkEnv (λ n _ _, match n with
                             | O => inr (errorString "timeout")
                             | _ => inl "<p>rix4uni<</p>"
                             end)
                   (λ _ _ _, inr (errorString "exec: not started"))
                   (λ _ _ entries, entries) in
  let r := Legacy.probeFirst env flags false "<"
             ["http://x/?a=rix4uni<&b=2"; "http://x/?a=1&b=rix4uni<"]
             (mkSets [] [] []) emptyWorld in
  r.1 = mkSets ["<"] [] [] ∧
  target <$> calls r.2 = ["http://x/?a=rix4uni<&b=2"; "http://x/?a=1&b=rix4uni<"].
Proof. split; vm_compute; reflexivity. Qed.

End LegacyFacts.

(* ===================================================================== *)
(** * The scanner: claims *)
(* ===================================================================== *)

Module ScannerClaims.
Import Strings NetURL Utils Scanner Notions ScanNotions.
Import StringsFacts NetURLFacts UtilsFacts ScannerFacts LegacyFacts.

(** C3.  One turn of the probe loop is fixed by the generator and the
    reply.  When the generator returns a test URL for the marker followed
    by the character, the turn issues exactly one network operation, on
    the first test URL; when that operation returns a body, whatever the
    body is, the character is filed under exactly the verdict that the
    classifier of the specification gives for the body, the marker
    [rix4uni], the character and its entry in the encoding table, that is
    in exactly one of the three lists: allowed when the body contains the
    marker followed by the character; otherwise converted when the
    character has an entity and the body contains the marker followed by
    the entity; otherwise blocked.  When the operation fails, or when the
    generator returns no test URL, the lists stay as they are and, in the
    latter case, no operation is issued.  A character without entity never
    adds to the converted list.  In the earlier program a turn fetches the
    test URLs of the character one after the other, as long as the fetches
    fail; on the first body it files the character under the verdict of
    the same classifier; when every fetch fails, or [pvreplace] does, the
    lists stay as they are. *)
Theorem probe_files_one_verdict `{URLSyntax} (env : Env) (s : Scanner)
    (flags : Legacy.Flags) (inputURL baseURL : string) (reflectedInDOM : bool)
    (acc : Sets) (char : string) (w : World) :
  match GenerateTargetURLs (order env (generated w)) inputURL ("rix4uni" +:+ char) with
  | inl (testURL :: _) =>
      let c := mkCall (probeChannel reflectedInDOM) testURL
                 (probeDeadline s reflectedInDOM)
                 (net env (length (calls w)) (probeChannel reflectedInDOM) testURL) in
      calls (probe env s inputURL reflectedInDOM acc char w).2 = calls w ++ [c] ∧
      (probe env s inputURL reflectedInDOM acc char w).1 =
        match reply c with
        | inl body =>
            recordVerdict acc char
              (Spec.classify body "rix4uni" char (conversions !! char))
        | inr _ => acc
        end
  | _ =>
      calls (probe env s inputURL reflectedInDOM acc char w).2 = calls w ∧
      (probe env s inputURL reflectedInDOM acc char w).1 = acc
  end ∧
  (∀ body,
     recordVerdict acc char (Spec.classify body "rix4uni" char (conversions !! char)) =
       if Contains body ("rix4uni" +:+ char) then
         mkSets (allowed acc ++ [char]) (blocked acc) (converted acc)
       else
         match conversions !! char with
         | Some entity =>
             if Contains body ("rix4uni" +:+ entity) then
               mkSets (allowed acc) (blocked acc)
                 (converted acc ++ [char +:+ " ➔ " +:+ entity])
             else mkSets (allowed acc) (blocked acc ++ [char]) (converted acc)
         | None => mkSets (allowed acc) (blocked acc ++ [char]) (converted acc)
         end) ∧
  (conversions !! char = None →
   converted (probe env s inputURL reflectedInDOM acc char w).1 = converted acc) ∧
  match legacyTestURLs env inputURL baseURL char w with
  | None =>
      calls (Legacy.probe env flags inputURL baseURL reflectedInDOM acc char w).2
        = calls w ∧
      (Legacy.probe env flags inputURL baseURL reflectedInDOM acc char w).1 = acc
  | Some urls =>
      ∃ tried : list Call,
        Forall failed tried ∧
        ((target <$> tried = urls ∧
          calls (Legacy.probe env flags inputURL baseURL reflectedInDOM acc char w).2
            = calls w ++ tried ∧
          (Legacy.probe env flags inputURL baseURL reflectedInDOM acc char w).1 = acc) ∨
         ∃ c body later,
           reply c = inl body ∧
           urls = (target <$> tried) ++ target c :: later ∧
           calls (Legacy.probe env flags inputURL baseURL reflectedInDOM acc char w).2
             = calls w ++ tried ++ [c] ∧
           (Legacy.probe env flags inputURL baseURL reflectedInDOM acc char w).1 =
             legacyRecordVerdict acc char
               (Spec.classify body "rix4uni" char (conversions !! char)))
  end.
Proof.
  pose proof (probe_spec env s inputURL reflectedInDOM acc char w)
    as (Hacc & Hcalls & _).
  cbv zeta in *. split_and!.
  - destruct (GenerateTargetURLs _ _ _) as [[|testURL rest]|err].
    + split; [by rewrite Hcalls, app_nil_r|by rewrite Hacc].
    + split; [exact Hcalls|]. rewrite Hacc. unfold fileProbe, verdictOf.
      cbn [fst snd]. by destruct (reply _).
    + split; [by rewrite Hcalls, app_nil_r|by rewrite Hacc].
  - intros body. unfold Spec.classify, recordVerdict, entry.
    destruct (Contains body ("rix4uni" +:+ char)); [done|].
    destruct (conversions !! char) as [entity|]; [|done].
    by destruct (Contains body ("rix4uni" +:+ entity)).
  - intros Hnone. rewrite Hacc. unfold fileProbe, verdictOf. cbn [fst snd].
    destruct (match GenerateTargetURLs _ _ _ with inl (_ :: _) => _ | _ => None end)
      as [c|]; [|done].
    destruct (reply c) as [body|]; [|done].
    rewrite Hnone. unfold Spec.classify. by destruct (Contains body _).
  - apply (legacy_probe_spec env flags inputURL baseURL reflectedInDOM acc char w).
Qed.

(** C4.  The network operations of one candidate: the static fetch of the
    candidate; when it fails, nothing more; when its body shows the
    marker, the probes, every one through the static channel; when its
    body does not show the marker, the render of the candidate and then,
    if the rendered document shows the marker, the probes, every one
    through the rendering channel (and no probe if it does not).  The
    earlier program does the same on every candidate that is not blank,
    its render without deadline. *)
Theorem probe_channel_is_fixed `{URLSyntax} (env : Env) (s : Scanner)
    (flags : Legacy.Flags) (inputURL baseURL : string) (w : World) :
  (let c1 := mkCall Static baseURL (clientDeadline (client s))
               (net env (length (calls w)) Static baseURL) in
   let c2 := mkCall Rendering baseURL (Some (30 * Second)%Z)
               (net env (S (length (calls w))) Rendering baseURL) in
   let w' := (processBaseURL env s inputURL baseURL w).2 in
   ∃ probes : list Call,
     match reply c1 with
     | inr _ => calls w' = calls w ++ [c1]
     | inl body =>
         if Contains body "rix4uni" then
           calls w' = calls w ++ c1 :: probes ∧
           Forall (λ c, channel c = Static) probes
         else
           match reply c2 with
           | inr _ => calls w' = calls w ++ [c1; c2]
           | inl body2 =>
               calls w' = calls w ++ c1 :: c2 :: probes ∧
               Forall (λ c, channel c = Rendering) probes ∧
               (Contains body2 "rix4uni" = false → probes = [])
           end
     end) ∧
  (let url := Legacy.TrimSpace baseURL in
   let c1 := mkCall Static url (staticDeadline (Legacy.timeout flags))
               (net env (length (calls w)) Static url) in
   let c2 := mkCall Rendering url None
               (net env (S (length (calls w))) Rendering url) in
   let w' := (Legacy.processBase env flags inputURL baseURL w).2 in
   if String.eqb url "" then calls w' = calls w
   else
     ∃ probes : list Call,
       match reply c1 with
       | inr _ => calls w' = calls w ++ [c1]
       | inl body =>
           if Contains body "rix4uni" then
             calls w' = calls w ++ c1 :: probes ∧
             Forall (λ c, channel c = Static) probes
           else
             match reply c2 with
             | inr _ => calls w' = calls w ++ [c1; c2]
             | inl body2 =>
                 calls w' = calls w ++ c1 :: c2 :: probes ∧
                 Forall (λ c, channel c = Rendering) probes ∧
                 (Contains body2 "rix4uni" = false → probes = [])
             end
       end).
Proof.
  split; [|apply (processBase_calls env flags inputURL baseURL w)].
  destruct (processBaseURL_spec env s inputURL baseURL w)
    as (probes & os & _ & _ & _ & _ & Hcalls).
  exists probes. cbv zeta in *. cbn [reply] in *.
  destruct (net env (length (calls w)) Static baseURL) as [body|err].
  - destruct (Contains body "rix4uni"); [done|].
    destruct (net env (S (length (calls w))) Rendering baseURL); [done|].
    by destruct Hcalls.
  - by destruct Hcalls.
Qed.

(** C5.  The probe loop makes one entry per character of the alphabet, in
    order: the network operation of its probe, if one was issued (one is
    issued for every character when the input yields a candidate and the
    run-time's orders are legal).  The operations of the loop are exactly
    these.  A character whose probe failed, or was not issued, is in none
    of the three result lists, whatever happened to the other characters;
    a character whose probe returned a body is in the list of its verdict
    and in no other.  The three lists have no member in common, no member
    twice, and together at most as many members as the alphabet has
    characters.  In the earlier program too the three lists of a probe
    loop have together at most as many members as the alphabet has
    characters. *)
Theorem probe_failures_are_local `{URLSyntax} (env : Env) (s : Scanner)
    (flags : Legacy.Flags) (inputURL baseURL : string) (reflectedInDOM : bool)
    (output : JSONOutput) (w : World) :
  (entries (foldM (Legacy.probe env flags inputURL baseURL reflectedInDOM)
              (mkSets [] [] []) specialChars w).1
     ≤ length specialChars)%nat ∧
  ∃ (probes : list (string * option Call)) (A B C : list string),
    probes.*1 = specialChars ∧
    calls (checkSpecialChars env s inputURL baseURL reflectedInDOM output w).2
      = calls w ++ omap snd probes ∧
    ((∀ g i, legalOrder (order env g i)) →
     (∃ g payload base rest,
        GenerateTargetURLs (order env g) inputURL payload = inl (base :: rest)) →
     Forall (λ p, is_Some p.2) probes) ∧
    Allowed (checkSpecialChars env s inputURL baseURL reflectedInDOM output w).1
      = Some A ∧
    Blocked (checkSpecialChars env s inputURL baseURL reflectedInDOM output w).1
      = Some B ∧
    Converted (checkSpecialChars env s inputURL baseURL reflectedInDOM output w).1
      = Some C ∧
    Forall (λ p, match p.2 with
                 | Some c =>
                     match reply c with
                     | inl body =>
                         placed A B C p.1
                           (Spec.classify body "rix4uni" p.1 (conversions !! p.1))
                     | inr _ => absent A B C p.1
                     end
                 | None => absent A B C p.1
                 end) probes ∧
    NoDup (A ++ B ++ C) ∧
    (length A + length B + length C ≤ length specialChars)%nat.
Proof.
  split.
  { apply (probes_entries env flags inputURL baseURL reflectedInDOM
             specialChars (mkSets [] [] []) w). }
  destruct (checkSpecialChars_spec env s inputURL baseURL reflectedInDOM output w)
    as (log & os & Hlog & Hout & Hc & _ & _ & _ & _ & Hok).
  assert (NoDup log.*1) as Hnd by (rewrite Hlog; apply NoDup_specialChars).
  assert (Forall (λ p, String.length p.1 = 1) log) as Hbytes.
  { apply (Forall_fmap fst (λ c, String.length c = 1)).
    rewrite Hlog. apply specialChars_bytes. }
  exists log, (allowedOf log), (blockedOf log), (convertedOf log).
  split_and!; try done.
  - intros Hlegal Hgen. by apply Hok, generator_succeeds.
  - by rewrite Hout.
  - by rewrite Hout.
  - by rewrite Hout.
  - apply Forall_forall. intros p Hp.
    pose proof (placed_of_log log Hnd Hbytes p) as Hplaced.
    pose proof (absent_of_log log Hnd Hbytes p Hp) as Habsent.
    unfold verdictOf in *. destruct p.2 as [c|]; [|by apply Habsent].
    destruct (reply c) as [body|]; [by apply Hplaced|by apply Habsent].
  - by apply NoDup_lists.
  - rewrite <-Hlog, length_fmap. apply length_lists.
Qed.

(** C9.  What a scan of one input URL adds to standard output: every JSON
    record among it is an object with the fields [processing], [baseurl],
    [reflected], the three arrays [allowed], [blocked] and [converted]
    (arrays, never [null]) and the object [count] whose three entries are
    the lengths of these arrays.  The same holds of what the earlier
    program adds to standard output for one input URL. *)
Theorem json_records_are_complete `{URLSyntax} (env : Env) (s : Scanner)
    (flags : Legacy.Flags) (inputURL : string) (w : World) :
  (∃ os : list Out,
     stdout (Scan env s inputURL w).2 = stdout w ++ os ∧
     Forall (λ o, ∀ j, o = PrintlnJSON j → wellFormedRecord j) os) ∧
  (∃ os : list Out,
     stdout (Legacy.processURL env flags inputURL w).2 = stdout w ++ os ∧
     Forall (λ o, ∀ j, o = PrintlnJSON j → wellFormedRecord j) os).
Proof.
  split.
  - destruct (Scan_effect env s inputURL w) as (cs & os & _ & _ & Ho & Hos & _).
    by exists os.
  - destruct (ok_processURL env flags inputURL w) as (cs & os & _ & Ho & _ & Hos).
    by exists os.
Qed.

End ScannerClaims.

(* ===================================================================== *)
(** * The scanner: what a scan costs and what it writes *)
(* ===================================================================== *)

Module ScannerProperties.
Import Strings NetURL Utils Scanner Notions ScanNotions.
Import StringsFacts NetURLFacts UtilsFacts ScannerFacts GeneratorProperties.

(** ** Computations within bounds *)

Section Within.
Variable Q : Out → Prop.

Lemma within_ret {A : Type} (n k : nat) (a : A) : within n k Q (ret a).
Proof.
  intros w. exists [], []. cbn. split_and!; try appended; try done; try lia.
Qed.

Lemma within_bind {A B : Type} (n1 k1 n2 k2 n k : nat) (m : M A) (f : A → M B) :
  within n1 k1 Q m → (∀ a, within n2 k2 Q (f a)) →
  (n1 + n2 ≤ n)%nat → (k1 + k2 ≤ k)%nat →
  within n k Q (bind m f).
Proof.
  intros Hm Hf Hn Hk w. rewrite bind_run.
  destruct (Hm w) as (cs1 & os1 & Hc1 & Hx1 & Ho1 & Hn1 & Hk1 & HQ1).
  destruct (Hf (m w).1 (m w).2) as (cs2 & os2 & Hc2 & Hx2 & Ho2 & Hn2 & Hk2 & HQ2).
  exists (cs1 ++ cs2), (os1 ++ os2). rewrite !length_app. split_and!.
  - by rewrite Hc2, Hc1, <-(assoc_L (++)).
  - by rewrite Hx2.
  - by rewrite Ho2, Ho1, <-(assoc_L (++)).
  - lia.
  - lia.
  - by apply Forall_app.
Qed.

Lemma within_mono {A : Type} (n k n' k' : nat) (m : M A) :
  within n k Q m → (n ≤ n')%nat → (k ≤ k')%nat → within n' k' Q m.
Proof.
  intros Hm Hn Hk w. destruct (Hm w) as (cs & os & ? & ? & ? & ? & ? & ?).
  exists cs, os. split_and!; try done; lia.
Qed.

Lemma within_ext {A : Type} (n k : nat) (m m' : M A) :
  (∀ w, m' w = m w) → within n k Q m → within n k Q m'.
Proof. intros Hext Hm w. rewrite Hext. apply Hm. Qed.

Lemma within_print (n k : nat) (o : Out) :
  Q o → (1 ≤ k)%nat → within n k Q (print o).
Proof.
  intros Ho Hk w. exists [], [o]. cbn.
  split_and!; try appended; try done; try lia. by repeat constructor.
Qed.

Lemma within_perform (env : Env) (n k : nat) (ch : Channel) (dl : option Z)
    (url : string) :
  (1 ≤ n)%nat → within n k Q (perform env ch dl url).
Proof.
  intros Hn w. eexists [_], []. cbn.
  split_and!; try appended; try done; try lia.
Qed.

Lemma within_when (n k : nat) (b : bool) (m : M unit) :
  (b = true → within n k Q m) → within n k Q (when b m).
Proof. destruct b; [by intros Hm; apply Hm|]. intros _. apply within_ret. Qed.

Lemma within_forM {A : Type} (n k : nat) (l : list A) (f : A → M unit) :
  (∀ a, within n k Q (f a)) →
  within (length l * n) (length l * k) Q (forM l f).
Proof.
  intros Hf. induction l as [|a l IH]; [apply within_ret|].
  cbn [forM length]. eapply within_bind; [apply Hf|intros _; apply IH|lia..].
Qed.

Lemma within_foldM {A S : Type} (n k : nat) (f : S → A → M S) (acc : S)
    (l : list A) :
  (∀ acc a, within n k Q (f acc a)) →
  within (length l * n) (length l * k) Q (foldM f acc l).
Proof.
  intros Hf. revert acc. induction l as [|a l IH]; intros acc; [apply within_ret|].
  cbn [foldM length]. eapply within_bind; [apply Hf|intros acc'; apply IH|lia..].
Qed.

End Within.

Lemma bind_assoc_run {A B C : Type} (m : M A) (f : A → M B) (g : B → M C)
    (w : World) :
  bind (bind m f) g w = bind m (λ a, bind (f a) g) w.
Proof. unfold bind. destruct (m w) as [a w']. by destruct (f a w'). Qed.

(** ** The operations of the scanner *)

Section Run.
Context `{URLSyntax}.
Variable env : Env.
Variable s : Scanner.

Ltac bounds := unfold lines; destruct (JSONOutput_ (opts s)); lia.

Ltac quietly :=
  repeat first [ apply quiet_when | apply quiet_if | apply quiet_seq
               | apply quiet_print | apply quiet_ret
               | apply notJSON_Printf | apply notJSON_Println ].

Lemma human_line (n h j : nat) (o : Out) :
  JSONOutput_ (opts s) = false → notJSON o → (1 ≤ h)%nat →
  within n (lines s h j) (outKind s) (print o).
Proof.
  intros Hjson Ho Hh. apply within_print.
  - unfold outKind. by rewrite Hjson.
  - unfold lines. by rewrite Hjson.
Qed.

Lemma verbose_line (n h j : nat) (o : Out) :
  Verbose (opts s) = true → notJSON o → (1 ≤ h)%nat → (1 ≤ j)%nat →
  within n (lines s h j) (outKind s) (print o).
Proof.
  intros Hverbose Ho Hh Hj. apply within_print.
  - unfold outKind. rewrite Hverbose. by destruct (JSONOutput_ (opts s)).
  - bounds.
Qed.

Lemma record_line (n h j : nat) (record : JSON) :
  JSONOutput_ (opts s) = true → (1 ≤ j)%nat →
  within n (lines s h j) (outKind s) (print (PrintlnJSON record)).
Proof.
  intros Hjson Hj. apply within_print.
  - unfold outKind. rewrite Hjson. destruct (Verbose (opts s)); [done|by exists record].
  - unfold lines. by rewrite Hjson.
Qed.

Lemma within_generate (Q : Out → Prop) (inputURL payload : string) :
  within 0 0 Q (generate env inputURL payload).
Proof.
  intros w. exists [], []. cbn. split_and!; try appended; try done.
Qed.

Lemma within_printReflected (reflected : bool) :
  within 0 (lines s 1 0) (outKind s) (printReflected s reflected).
Proof.
  unfold printReflected. destruct (JSONOutput_ (opts s)) eqn:Hjson.
  - apply within_ret.
  - destruct reflected, (NoColor (opts s));
      by apply human_line; [|apply notJSON_Println|].
Qed.

Lemma within_printJSON (output : JSONOutput) :
  within 0 (lines s 0 1) (outKind s) (printJSON s output).
Proof.
  unfold printJSON. destruct (JSONOutput_ (opts s)) eqn:Hjson; cbn [negb].
  - by apply record_line.
  - apply within_ret.
Qed.

Lemma within_probe (inputURL : string) (reflectedInDOM : bool) (acc : Sets)
    (char : string) :
  within 1 (lines s 1 0) (outKind s) (probe env s inputURL reflectedInDOM acc char).
Proof.
  unfold probe.
  apply (within_bind _ 0 0 1 (lines s 1 0)); [apply within_generate| |lia..].
  intros [[|testURL rest]|err]; try apply within_ret.
  apply (within_bind _ 0 (lines s 1 0) 1 0); [| |lia|bounds].
  - apply within_when. intros [_ Hjson%negb_true_iff]%andb_true_iff.
    destruct (NoColor (opts s)); by apply human_line; [|apply notJSON_Printf|].
  - intros _. apply (within_bind _ 1 0 0 0); [| |lia..].
    + destruct reflectedInDOM; by apply within_perform.
    + intros [testBody|err]; [|apply within_ret].
      destruct (Contains testBody _); [apply within_ret|].
      destruct (conversions !! char); [|apply within_ret].
      destruct (Contains testBody _); apply within_ret.
Qed.

Lemma within_checkSpecialChars (inputURL baseURL : string) (reflectedInDOM : bool)
    (output : JSONOutput) :
  within 12 (lines s 15 0) (outKind s)
    (checkSpecialChars env s inputURL baseURL reflectedInDOM output).
Proof.
  unfold checkSpecialChars.
  apply (within_bind _ 12 (lines s 12 0) 0 (lines s 3 0)); [| |lia|bounds].
  - eapply within_mono; [apply within_foldM; intros acc char; apply within_probe| |].
    + done.
    + cbn [length specialChars]. bounds.
  - intros r. apply (within_bind _ 0 (lines s 3 0) 0 0); [| |lia|bounds].
    + apply within_when. intros Hjson%negb_true_iff.
      destruct (NoColor (opts s)).
      all: apply (within_bind _ 0 (lines s 1 0) 0 (lines s 2 0)); [| |lia|bounds];
        [by apply human_line; [|apply notJSON_Printf|]|intros _].
      all: apply (within_bind _ 0 (lines s 1 0) 0 (lines s 1 0)); [| |lia|bounds];
        [by apply human_line; [|apply notJSON_Printf|]|intros _].
      all: by apply human_line; [|apply notJSON_Printf|].
    + intros _. apply within_ret.
Qed.

(** The work on one candidate: at most 14 network operations, of which
    at most 2 when the probes are skipped. *)
Lemma within_processBaseURL (inputURL baseURL : string) :
  within (if SkipSpecialChar (opts s) then 2 else 14) (lines s 17 1) (outKind s)
    (processBaseURL env s inputURL baseURL).
Proof.
  set (n := if SkipSpecialChar (opts s) then 2 else 14).
  assert (2 ≤ n)%nat as Hn by (unfold n; destruct (SkipSpecialChar (opts s)); lia).
  unfold processBaseURL.
  apply (within_bind _ 0 (lines s 1 0) n (lines s 16 1)); [| |lia|bounds].
  { apply within_when. intros Hjson%negb_true_iff.
    destruct (NoColor (opts s)); by apply human_line; [|apply notJSON_Printf|]. }
  intros _. apply (within_bind _ 1 0 (n - 1) (lines s 16 1)); [| |lia|bounds].
  { by apply within_perform. }
  intros [body|err].
  2: { apply within_when. intros Hverbose.
       by apply verbose_line; [|apply notJSON_Printf| |]; try lia. }
  assert (∀ body' reflectedInDOM,
            within (n - 2) (lines s 16 1) (outKind s)
              (if Contains body' "rix4uni" then
                 printReflected s true ;;;
                 if SkipSpecialChar (opts s)
                 then printJSON s (setReflected
                        (mkJSONOutput inputURL baseURL false None None None None) true)
                 else
                   let* output := checkSpecialChars env s inputURL baseURL
                                    reflectedInDOM
                                    (setReflected
                                       (mkJSONOutput inputURL baseURL false
                                          None None None None) true) in
                   printJSON s output
               else
                 printReflected s false ;;;
                 printJSON s (setReflected
                   (mkJSONOutput inputURL baseURL false None None None None) false)))
    as Htail.
  { intros body' reflectedInDOM. destruct (Contains body' "rix4uni").
    - apply (within_bind _ 0 (lines s 1 0) (n - 2) (lines s 15 1)); [| |lia|bounds].
      { apply within_printReflected. }
      intros _. unfold n. destruct (SkipSpecialChar (opts s)).
      + eapply within_mono; [apply within_printJSON|lia|bounds].
      + apply (within_bind _ 12 (lines s 15 0) 0 (lines s 0 1)); [| |lia|bounds].
        * apply within_checkSpecialChars.
        * intros output. apply within_printJSON.
    - apply (within_bind _ 0 (lines s 1 0) 0 (lines s 0 1)); [| |lia|bounds].
      + apply within_printReflected.
      + intros _. apply within_printJSON. }
  destruct (negb (Contains body "rix4uni")).
  - eapply within_ext; [intros w; apply bind_assoc_run|].
    apply (within_bind _ 1 0 (n - 2) (lines s 16 1)); [| |lia|bounds].
    { by apply within_perform. }
    intros [body2|err].
    + apply Htail.
    + eapply within_ext; [intros w; apply bind_assoc_run|].
      apply (within_bind _ 0 (lines s 1 1) 0 0); [| |lia|bounds].
      * apply within_when. intros Hverbose.
        by apply verbose_line; [|apply notJSON_Printf| |].
      * intros _. apply within_ret.
  - eapply within_mono; [apply Htail|lia|lia].
Qed.

Lemma isRecord_records (os : list Out) :
  Forall isRecord os → ∃ records, os = PrintlnJSON <$> records.
Proof.
  induction 1 as [|o os [j ->] _ (records & ->)]; [by exists []|].
  by exists (j :: records).
Qed.

(** A scan: the operations and the output it adds. *)
Lemma Scan_within (inputURL : string) (w : World) :
  ∃ cs os,
    calls (Scan env s inputURL w).2 = calls w ++ cs ∧
    commands (Scan env s inputURL w).2 = commands w ∧
    stdout (Scan env s inputURL w).2 = stdout w ++ os ∧
    (length cs ≤ (if SkipSpecialChar (opts s) then 2 else 14)
                 * length (candidatesAt env inputURL w))%nat ∧
    Forall (outKind s) os ∧
    (JSONOutput_ (opts s) = true → Verbose (opts s) = false →
     (length os ≤ length (candidatesAt env inputURL w))%nat).
Proof.
  unfold Scan. rewrite bind_run.
  match goal with
  | |- context [when ?b ?m w] =>
      assert (quiet (when b m)) as Hq by quietly;
      destruct (Hq w) as (Hc0 & Hm0 & Hg0 & os0 & Ho0 & Hos0);
      assert (JSONOutput_ (opts s) = true → os0 = []) as Hjson0;
      [|set (w0 := (when b m w).2) in *; clearbody w0; clear Hq]
  end.
  { intros Hjson. rewrite Hjson in Ho0. cbn in Ho0.
    by apply (inj (app (stdout w))); rewrite app_nil_r. }
  rewrite bind_run. unfold generate, candidatesAt. cbn [fst snd].
  rewrite Hg0.
  destruct (GenerateTargetURLs (order env (generated w)) inputURL "rix4uni")
    as [baseURLs|err].
  - change (λ baseURL, processBaseURL env s inputURL baseURL)
      with (processBaseURL env s inputURL).
    destruct (within_forM (outKind s) _ _ baseURLs (processBaseURL env s inputURL)
                (within_processBaseURL inputURL)
                (mkWorld (calls w0) (commands w0) (S (generated w)) (stdout w0)))
      as (cs & os & Hc & Hm & Ho & Hn & Hk & HQ).
    cbn [calls commands stdout] in Hc, Hm, Ho.
    exists cs, (os0 ++ os). split_and!.
    + by rewrite Hc, Hc0.
    + by rewrite Hm, Hm0.
    + by rewrite Ho, Ho0, <-(assoc_L (++)).
    + lia.
    + apply Forall_app. split; [|done].
      unfold outKind. destruct (JSONOutput_ (opts s)); [by rewrite Hjson0|done].
    + intros Hjson Hverbose. rewrite (Hjson0 Hjson). cbn [app].
      unfold lines in Hk. rewrite Hjson in Hk. lia.
  - match goal with
    | |- context [when ?b ?m ?w1] =>
        set (w1' := w1); assert (quiet (when b m)) as Hq by quietly;
        destruct (Hq w1') as (Hc1 & Hm1 & _ & os1 & Ho1 & Hos1)
    end.
    assert (Verbose (opts s) = false → os1 = []) as Hquiet.
    { intros Hverbose. rewrite Hverbose in Ho1. cbn in Ho1.
      by apply (inj (app (stdout w0))); rewrite app_nil_r. }
    exists [], (os0 ++ os1). split_and!.
    + rewrite Hc1. cbn. by rewrite Hc0, app_nil_r.
    + rewrite Hm1. cbn. done.
    + rewrite Ho1. cbn. by rewrite Ho0, <-(assoc_L (++)).
    + cbn. lia.
    + unfold outKind. destruct (JSONOutput_ (opts s)) eqn:Hjson.
      * rewrite (Hjson0 eq_refl). cbn [app].
        destruct (Verbose (opts s)) eqn:Hverbose; [by apply Forall_true|].
        by rewrite Hquiet.
      * by apply Forall_app.
    + intros Hjson Hverbose. by rewrite Hjson0, Hquiet.
Qed.

End Run.

(** ** The result lists *)

Lemma convertedOf_sublist (log : list (string * option Call)) :
  convertedOf log
    `sublist_of` omap (λ char, entry char <$> conversions !! char) log.*1.
Proof.
  induction log as [|p log IH]; [done|]. unfold convertedOf in *. csimpl.
  unfold convertedEntry at 1, verdictOf, Spec.classify.
  destruct p.2 as [c|]; [destruct (reply c) as [body|]|].
  - destruct (Contains body ("rix4uni" +:+ p.1)).
    + destruct (conversions !! p.1); [by apply sublist_cons|done].
    + destruct (conversions !! p.1) as [entity|]; [|done]. cbn.
      destruct (Contains body ("rix4uni" +:+ entity));
        [by apply sublist_skip|by apply sublist_cons].
  - destruct (conversions !! p.1); [by apply sublist_cons|done].
  - destruct (conversions !! p.1); [by apply sublist_cons|done].
Qed.

(** ** The probes of an input with the placeholder *)

Lemma placeholder_probe_calls `{URLSyntax} (env : Env) (s : Scanner)
    (inputURL : string) (reflectedInDOM : bool) (chars : list string)
    (acc : Sets) (w : World) :
  Contains inputURL "{payload}" = true →
  ∃ cs,
    calls (foldM (probe env s inputURL reflectedInDOM) acc chars w).2
      = calls w ++ cs ∧
    target <$> cs
      = (λ char, ReplaceAll inputURL "{payload}" ("rix4uni" +:+ char)) <$> chars ∧
    Forall (λ c, channel c = probeChannel reflectedInDOM) cs.
Proof.
  intros Hph. revert acc w.
  induction chars as [|char chars IH]; intros acc w.
  - exists []. cbn. split_and!; [appended|done|constructor].
  - cbn [foldM]. rewrite bind_run.
    pose proof (probe_spec env s inputURL reflectedInDOM acc char w)
      as (_ & Hcalls & _).
    unfold GenerateTargetURLs in Hcalls. rewrite Hph in Hcalls.
    cbn [option_list] in Hcalls.
    destruct (IH (probe env s inputURL reflectedInDOM acc char w).1
                 (probe env s inputURL reflectedInDOM acc char w).2)
      as (cs & Hcs & Htargets & Hchannels).
    eexists (_ :: cs). split_and!.
    + rewrite Hcs, Hcalls, <-(assoc_L (++)). reflexivity.
    + cbn. by rewrite Htargets.
    + by constructor.
Qed.

(** X8.  A scan of one input URL issues at most 14 network operations for
    each candidate that the generator returns for it, at most 2 for each
    when the probes are skipped, none when the generator fails; and it
    runs no external command. *)
Theorem scan_network_budget `{URLSyntax} (env : Env) (s : Scanner)
    (inputURL : string) (w : World) :
  ∃ cs,
    calls (Scan env s inputURL w).2 = calls w ++ cs ∧
    (length cs ≤ (if SkipSpecialChar (opts s) then 2 else 14)
                 * length (candidatesAt env inputURL w))%nat ∧
    commands (Scan env s inputURL w).2 = commands w.
Proof.
  destruct (Scan_within env s inputURL w) as (cs & os & Hc & Hm & _ & Hn & _).
  by exists cs.
Qed.

(** X9.  What a scan writes: without [--json] no JSON record; with
    [--json] and without [--verbose] JSON records only, at most one for
    each candidate. *)
Theorem scan_output_kinds `{URLSyntax} (env : Env) (s : Scanner)
    (inputURL : string) (w : World) :
  ∃ os,
    stdout (Scan env s inputURL w).2 = stdout w ++ os ∧
    (JSONOutput_ (opts s) = false → Forall notJSON os) ∧
    (JSONOutput_ (opts s) = true → Verbose (opts s) = false →
     ∃ records,
       os = PrintlnJSON <$> records ∧
       (length records ≤ length (candidatesAt env inputURL w))%nat).
Proof.
  destruct (Scan_within env s inputURL w) as (cs & os & _ & _ & Ho & _ & HQ & Hk).
  exists os. unfold outKind in HQ. split_and!; [done| |].
  - intros Hjson. by rewrite Hjson in HQ.
  - intros Hjson Hverbose. rewrite Hjson, Hverbose in HQ.
    destruct (isRecord_records os HQ) as (records & ->).
    exists records. split; [done|]. rewrite <-(length_fmap PrintlnJSON). by apply Hk.
Qed.

(** X10.  A candidate on which the marker shows neither in the body of
    the static fetch nor in the rendered document costs these two
    operations and no probe; with [--json] its record says
    [reflected: false] with three empty arrays and counts of zero, without
    [--json] the lines BASEURL and REFLECTED: NO are written. *)
Theorem candidate_without_reflection `{URLSyntax} (env : Env) (s : Scanner)
    (inputURL baseURL body rendered : string) (w : World) :
  net env (length (calls w)) Static baseURL = inl body →
  Contains body "rix4uni" = false →
  net env (S (length (calls w))) Rendering baseURL = inl rendered →
  Contains rendered "rix4uni" = false →
  calls (processBaseURL env s inputURL baseURL w).2 =
    calls w ++ [mkCall Static baseURL (clientDeadline (client s)) (inl body);
                mkCall Rendering baseURL (Some (30 * Second)%Z) (inl rendered)] ∧
  stdout (processBaseURL env s inputURL baseURL w).2 =
    stdout w ++
    (if JSONOutput_ (opts s) then
       [PrintlnJSON
          (JObject [("processing", JString inputURL);
                    ("baseurl", JString baseURL);
                    ("reflected", JBool false);
                    ("allowed", JArray []);
                    ("blocked", JArray []);
                    ("converted", JArray []);
                    ("count", JObject [("allowed", JNumber 0);
                                       ("blocked", JNumber 0);
                                       ("converted", JNumber 0)])])]
     else
       [Printf (if NoColor (opts s) then "BASEURL: %s\n"
                else "\033[94mBASEURL: %s\033[0m\n") [AStr baseURL];
        Println (if NoColor (opts s) then "REFLECTED: NO"
                 else "\033[91mREFLECTED: NO\033[0m")]).
Proof.
  intros Hstatic Hbody Hrendered Hdom.
  unfold processBaseURL, fetch, GetDOM, perform, printReflected, printJSON,
    when, print, ret, bind.
  destruct (JSONOutput_ (opts s)), (NoColor (opts s)); cbn [negb fst snd calls];
    rewrite Hstatic, Hbody; cbn [negb fst snd calls];
    rewrite length_app, Nat.add_1_r, Hrendered; cbn [negb fst snd calls];
    rewrite Hdom; cbn -[Marshal]; (split; [by rewrite <-(assoc_L (++))|]);
    rewrite <-?(assoc_L (++)); reflexivity.
Qed.

Lemma candidate_without_reflection_witness :
  stdout (processBaseURL (server (inl "<p></p>") (inl "<p></p>"))
            (scannerOf (options 15 true false))
            "http://x/?q=1" "http://x/?q=rix4uni" emptyWorld).2 =
    stdout emptyWorld ++
    (if JSONOutput_ (opts (scannerOf (options 15 true false))) then
       [PrintlnJSON
          (JObject [("processing", JString "http://x/?q=1");
                    ("baseurl", JString "http://x/?q=rix4uni");
                    ("reflected", JBool false);
                    ("allowed", JArray []);
                    ("blocked", JArray []);
                    ("converted", JArray []);
                    ("count", JObject [("allowed", JNumber 0);
                                       ("blocked", JNumber 0);
                                       ("converted", JNumber 0)])])]
     else
       [Printf (if NoColor (opts (scannerOf (options 15 true false)))
                then "BASEURL: %s\n"
                else "\033[94mBASEURL: %s\033[0m\n") [AStr "http://x/?q=rix4uni"];
        Println (if NoColor (opts (scannerOf (options 15 true false)))
                 then "REFLECTED: NO"
                 else "\033[91mREFLECTED: NO\033[0m")]).
Proof.
  apply (candidate_without_reflection (server (inl "<p></p>") (inl "<p></p>"))
           (scannerOf (options 15 true false))
           "http://x/?q=1" "http://x/?q=rix4uni" "<p></p>" "<p></p>" emptyWorld);
    reflexivity.
Defined.

(** X11.  With [--skipspecialchar], a candidate whose static body shows
    the marker costs the static fetch alone; with [--json] its record says
    [reflected: true] with three empty arrays and counts of zero, without
    [--json] the lines BASEURL and REFLECTED: YES are written. *)
Theorem candidate_with_probes_skipped `{URLSyntax} (env : Env) (s : Scanner)
    (inputURL baseURL body : string) (w : World) :
  SkipSpecialChar (opts s) = true →
  net env (length (calls w)) Static baseURL = inl body →
  Contains body "rix4uni" = true →
  calls (processBaseURL env s inputURL baseURL w).2 =
    calls w ++ [mkCall Static baseURL (clientDeadline (client s)) (inl body)] ∧
  stdout (processBaseURL env s inputURL baseURL w).2 =
    stdout w ++
    (if JSONOutput_ (opts s) then
       [PrintlnJSON
          (JObject [("processing", JString inputURL);
                    ("baseurl", JString baseURL);
                    ("reflected", JBool true);
                    ("allowed", JArray []);
                    ("blocked", JArray []);
                    ("converted", JArray []);
                    ("count", JObject [("allowed", JNumber 0);
                                       ("blocked", JNumber 0);
                                       ("converted", JNumber 0)])])]
     else
       [Printf (if NoColor (opts s) then "BASEURL: %s\n"
                else "\033[94mBASEURL: %s\033[0m\n") [AStr baseURL];
        Println (if NoColor (opts s) then "REFLECTED: YES"
                 else "\033[92mREFLECTED: YES\033[0m")]).
Proof.
  intros Hskip Hstatic Hbody.
  unfold processBaseURL, fetch, perform, printReflected, printJSON,
    when, print, ret, bind.
  rewrite Hskip.
  destruct (JSONOutput_ (opts s)), (NoColor (opts s)); cbn [negb fst snd calls];
    rewrite Hstatic, ?Hbody; cbn [negb fst snd calls]; rewrite ?Hbody;
    cbn -[Marshal]; (split; [done|]);
    rewrite <-?(assoc_L (++)); reflexivity.
Qed.

Lemma candidate_with_probes_skipped_witness :
  calls (processBaseURL (server (inl "<p>rix4uni</p>") (inl ""))
           (mkScanner (mkOptions "Mozilla/5.0" 15 true false false true "" 10 false)
              (mkClient (mkTransport true None) 15000000000)
              (mkDOMScanner []))
           "http://x/?q=1" "http://x/?q=rix4uni" emptyWorld).2 =
    calls emptyWorld ++
    [mkCall Static "http://x/?q=rix4uni" (Some 15000000000%Z) (inl "<p>rix4uni</p>")].
Proof.
  apply (candidate_with_probes_skipped (server (inl "<p>rix4uni</p>") (inl ""))
           (mkScanner (mkOptions "Mozilla/5.0" 15 true false false true "" 10 false)
              (mkClient (mkTransport true None) 15000000000)
              (mkDOMScanner []))
           "http://x/?q=1" "http://x/?q=rix4uni" "<p>rix4uni</p>" emptyWorld);
    reflexivity.
Defined.

(** X12.  The result lists of the probes keep the order of the alphabet:
    the allowed and the blocked list are sublists of the twelve
    characters, and the converted list is a sublist of the entries of the
    four characters that have an entity, quote, double quote, less-than
    and greater-than, in this order. *)
Theorem result_lists_keep_order `{URLSyntax} (env : Env) (s : Scanner)
    (inputURL baseURL : string) (reflectedInDOM : bool) (output : JSONOutput)
    (w : World) :
  ∃ A B C,
    Allowed (checkSpecialChars env s inputURL baseURL reflectedInDOM output w).1
      = Some A ∧
    Blocked (checkSpecialChars env s inputURL baseURL reflectedInDOM output w).1
      = Some B ∧
    Converted (checkSpecialChars env s inputURL baseURL reflectedInDOM output w).1
      = Some C ∧
    A `sublist_of` specialChars ∧
    B `sublist_of` specialChars ∧
    C `sublist_of` [entry "'" "&#039;"; entry dquote "&quot;";
                    entry "<" "&lt;"; entry ">" "&gt;"].
Proof.
  destruct (checkSpecialChars_spec env s inputURL baseURL reflectedInDOM output w)
    as (log & os & Hlog & -> & _).
  exists (allowedOf log), (blockedOf log), (convertedOf log).
  split_and!; [done..| | |].
  - rewrite <-Hlog. apply fmap_sublist, sublist_filter.
  - rewrite <-Hlog. apply fmap_sublist, sublist_filter.
  - pose proof (convertedOf_sublist log) as Hsub. by rewrite Hlog in Hsub.
Qed.

(** X13.  An input that has neither a question mark nor the placeholder
    is given up before any network operation: the scan writes the
    PROCESSING line unless [--json] is set and, with [--verbose], the
    error of the generator, also when [--json] is set. *)
Theorem scan_without_injection_point `{URLSyntax} (env : Env) (s : Scanner)
    (inputURL : string) (w : World) :
  Contains inputURL "?" = false →
  Contains inputURL "{payload}" = false →
  calls (Scan env s inputURL w).2 = calls w ∧
  commands (Scan env s inputURL w).2 = commands w ∧
  stdout (Scan env s inputURL w).2 =
    stdout w
    ++ (if JSONOutput_ (opts s) then []
        else [Printf (if NoColor (opts s) then "\nPROCESSING: %s\n"
                      else "\n\033[96mPROCESSING: %s\033[0m\n") [AStr inputURL]])
    ++ (if Verbose (opts s)
        then [Printf "Error generating target URLs: %v\n"
                [AErr match Parse inputURL with
                      | inl _ => errorString "no injection points found"
                      | inr e => wrapError "invalid URL: " e
                      end]]
        else []).
Proof.
  intros Hq Hph.
  assert (∀ ro, GenerateTargetURLs ro inputURL "rix4uni"
                = match Parse inputURL with
                  | inl _ => inr (errorString "no injection points found")
                  | inr e => inr (wrapError "invalid URL: " e)
                  end) as Hgen.
  { intros ro. unfold GenerateTargetURLs. rewrite Hph.
    destruct (Parse inputURL) as [u|e] eqn:Hparse; [|done].
    unfold Query. by rewrite (Parse_no_query inputURL u Hq Hparse). }
  unfold Scan, bind, generate, when, print, ret.
  destruct (JSONOutput_ (opts s)), (NoColor (opts s)); cbn -[GenerateTargetURLs];
    rewrite Hgen; destruct (Parse inputURL); destruct (Verbose (opts s)); cbn;
    (split_and!; [done|done|appended]).
Qed.

Lemma scan_without_injection_point_witness :
  stdout (Scan (server (inl "") (inl ""))
            (mkScanner (mkOptions "Mozilla/5.0" 15 false true true true "" 10 false)
               (mkClient (mkTransport true None) 15000000000)
               (mkDOMScanner []))
            "http://x/static/page" emptyWorld).2 =
    [Printf "Error generating target URLs: %v\n"
       [AErr (errorString "no injection points found")]].
Proof.
  destruct (scan_without_injection_point (server (inl "") (inl ""))
              (mkScanner (mkOptions "Mozilla/5.0" 15 false true true true "" 10 false)
                 (mkClient (mkTransport true None) 15000000000)
                 (mkDOMScanner []))
              "http://x/static/page" emptyWorld) as (_ & _ & Hout);
    [reflexivity..|exact Hout].
Defined.

(** X16.  [NewScanner] fails only on a proxy that is set and does not
    parse.  The scanner it makes otherwise keeps the options and gives its
    two channels the same settings: certificates go unchecked in the HTTP
    client exactly when the browser is told to ignore certificate errors,
    which is when [VerifySSL] is off, and the client has a proxy exactly
    when the browser is given the proxy server, which is when [Proxy] is
    not empty. *)
Theorem channels_share_settings `{URLSyntax} (o : Options) :
  match NewScanner o with
  | inl s =>
      opts s = o ∧
      InsecureSkipVerify (ClientTransport (client s)) = negb (VerifySSL o) ∧
      (Flag "ignore-certificate-errors" true ∈ allocOpts (domScanner s)
       ↔ VerifySSL o = false) ∧
      (TransportProxy (ClientTransport (client s)) = None ↔ Proxy o = "") ∧
      (ProxyServer (Proxy o) ∈ allocOpts (domScanner s) ↔ Proxy o ≠ "")
  | inr err =>
      Proxy o ≠ "" ∧
      ∃ e, Parse (Proxy o) = inr e ∧ err = wrapError "invalid proxy URL: " e
  end.
Proof.
  unfold NewScanner, NewDOMScanner.
  destruct (String.eqb_spec (Proxy o) "") as [Hproxy|Hproxy]; cbn [negb].
  - destruct (VerifySSL o); cbn;
      rewrite ?elem_of_app, ?elem_of_cons, ?elem_of_nil;
      intuition (congruence || eauto).
  - destruct (Parse (Proxy o)) as [proxyURL|e]; [|by eauto].
    destruct (VerifySSL o); cbn;
      rewrite ?elem_of_app, ?elem_of_cons, ?elem_of_nil;
      intuition (congruence || eauto).
Qed.

(** X17.  For an input with the placeholder every one of the twelve
    characters is probed, in the order of the alphabet: the probes of a
    candidate are twelve network operations on the channel of the
    candidate, the one for a character at the input with each placeholder
    replaced by the marker followed by that character, as it is. *)
Theorem placeholder_probes `{URLSyntax} (env : Env) (s : Scanner)
    (inputURL baseURL : string) (reflectedInDOM : bool) (output : JSONOutput)
    (w : World) :
  Contains inputURL "{payload}" = true →
  ∃ cs,
    calls (checkSpecialChars env s inputURL baseURL reflectedInDOM output w).2
      = calls w ++ cs ∧
    target <$> cs
      = (λ char, ReplaceAll inputURL "{payload}" ("rix4uni" +:+ char))
          <$> specialChars ∧
    Forall (λ c, channel c = probeChannel reflectedInDOM) cs.
Proof.
  intros Hph.
  destruct (placeholder_probe_calls env s inputURL reflectedInDOM specialChars
              (mkSets [] [] []) w Hph) as (cs & Hcs & Htargets & Hchannels).
  exists cs. split_and!; [|done..].
  rewrite <-Hcs. unfold checkSpecialChars. rewrite bind_run.
  unfold when, print, ret, bind.
  by destruct (JSONOutput_ (opts s)), (NoColor (opts s)).
Qed.

Lemma placeholder_probes_witness :
  ∃ cs,
    calls (checkSpecialChars (server (inl "") (inl ""))
             (mkScanner (mkOptions "Mozilla/5.0" 15 false true false true "" 10 false)
                (mkClient (mkTransport true None) 15000000000)
                (mkDOMScanner []))
             "http://x/{payload}" "http://x/rix4uni" false
             (mkJSONOutput "http://x/{payload}" "http://x/rix4uni" true
                None None None None) emptyWorld).2
      = calls emptyWorld ++ cs ∧
    target <$> cs
      = (λ char, ReplaceAll "http://x/{payload}" "{payload}" ("rix4uni" +:+ char))
          <$> specialChars ∧
    Forall (λ c, channel c = probeChannel false) cs.
Proof.
  apply (placeholder_probes (server (inl "") (inl ""))
           (mkScanner (mkOptions "Mozilla/5.0" 15 false true false true "" 10 false)
              (mkClient (mkTransport true None) 15000000000)
              (mkDOMScanner []))
           "http://x/{payload}" "http://x/rix4uni" false
           (mkJSONOutput "http://x/{payload}" "http://x/rix4uni" true
              None None None None) emptyWorld).
  reflexivity.
Defined.

End ScannerProperties.

(* ===================================================================== *)
(** * The earlier program: the external commands of a run *)
(* ===================================================================== *)

Module LegacyProperties.
Import Strings Scanner Notions ScanNotions.
Import StringsFacts ScannerFacts.

Lemma noCommand_ret {A : Type} (a : A) : noCommand (ret a).
Proof. by intros w. Qed.

Lemma noCommand_bind {A B : Type} (m : M A) (k : A → M B) :
  noCommand m → (∀ a, noCommand (k a)) → noCommand (bind m k).
Proof. intros Hm Hk w. by rewrite bind_run, Hk, Hm. Qed.

Lemma noCommand_print (o : Out) : noCommand (print o).
Proof. by intros w. Qed.

Lemma noCommand_perform (env : Env) (ch : Channel) (dl : option Z) (url : string) :
  noCommand (perform env ch dl url).
Proof. by intros w. Qed.

Lemma noCommand_when (b : bool) (m : M unit) : noCommand m → noCommand (when b m).
Proof. destruct b; [done|]. intros _. apply noCommand_ret. Qed.

Lemma noCommand_forM {A : Type} (l : list A) (f : A → M unit) :
  (∀ a, noCommand (f a)) → noCommand (forM l f).
Proof.
  intros Hf. induction l as [|a l IH]; [apply noCommand_ret|].
  cbn [forM]. by apply noCommand_bind.
Qed.

Lemma noCommand_foldM {A S : Type} (f : S → A → M S) (acc : S) (l : list A) :
  (∀ acc a, noCommand (f acc a)) → noCommand (foldM f acc l).
Proof.
  intros Hf. revert acc. induction l as [|a l IH]; intros acc; [apply noCommand_ret|].
  cbn [foldM]. by apply noCommand_bind.
Qed.

Ltac silent :=
  repeat first
    [ apply noCommand_ret | apply noCommand_print | apply noCommand_perform
    | apply noCommand_when | apply noCommand_bind; [|intros]
    | match goal with
      | |- noCommand (if ?b then _ else _) => destruct b eqn:?
      | |- noCommand (match ?x with _ => _ end) => destruct x eqn:?
      end ].

Section Run.
Variable env : Env.
Variable flags : Legacy.Flags.

Lemma noCommand_probeFirst (reflectedInDOM : bool) (char : string)
    (testURLs : list string) (acc : Sets) :
  noCommand (Legacy.probeFirst env flags reflectedInDOM char testURLs acc).
Proof.
  induction testURLs as [|testURL rest IH]; cbn [Legacy.probeFirst];
    unfold Legacy.fetch, Legacy.GetDOM; silent; apply IH.
Qed.

Lemma noCommand_probe (inputURL baseURL : string) (reflectedInDOM : bool)
    (acc : Sets) (char : string) :
  Contains inputURL "?" = false →
  noCommand (Legacy.probe env flags inputURL baseURL reflectedInDOM acc char).
Proof.
  intros Hq. unfold Legacy.probe. rewrite Hq.
  apply noCommand_bind; [silent|].
  intros [testURLRaw|err]; [apply noCommand_probeFirst|silent].
Qed.

Lemma noCommand_processBase (inputURL baseURL : string) :
  Contains inputURL "?" = false ∨ Legacy.skipSpecialChar flags = true →
  noCommand (Legacy.processBase env flags inputURL baseURL).
Proof.
  intros Hcase. unfold Legacy.processBase, Legacy.printRecord,
    Legacy.fetch, Legacy.GetDOM.
  silent; first [apply noCommand_probeFirst | destruct Hcase; congruence].
Qed.

(** X14.  The external commands of the earlier program: for an input
    without question mark it runs none, and with [--skipspecialchar] it
    runs one for an input with a question mark, the [pvreplace] that
    makes the candidates, whatever the command and the network reply. *)
Theorem legacy_commands_of_an_input (inputURL : string) (w : World) :
  (Contains inputURL "?" = false →
   commands (Legacy.processURL env flags inputURL w).2 = commands w) ∧
  (Contains inputURL "?" = true → Legacy.skipSpecialChar flags = true →
   ∃ result,
     commands (Legacy.processURL env flags inputURL w).2 =
       commands w ++
       [mkCommand ["pvreplace"; "-silent"; "-payload"; "rix4uni";
                   "-fuzzing-mode"; "single"] inputURL result]).
Proof.
  unfold Legacy.processURL. rewrite bind_run.
  set (w1 := (when _ _ w).2).
  assert (commands w1 = commands w) as Hw1.
  { subst w1. apply (noCommand_when _ _). silent. }
  split.
  - intros Hq. rewrite Hq, <-Hw1.
    match goal with
    | |- commands (?m w1).2 = _ => enough (noCommand m) as Hm by apply Hm
    end.
    silent. apply noCommand_forM. intros baseURL. apply noCommand_processBase. by left.
  - intros Hq Hskip. rewrite Hq, bind_run.
    set (r := (Legacy.runPvreplace env inputURL "rix4uni" w1).1).
    set (w2 := (Legacy.runPvreplace env inputURL "rix4uni" w1).2).
    assert (∃ result,
              commands w2 =
                commands w ++
                [mkCommand ["pvreplace"; "-silent"; "-payload"; "rix4uni";
                            "-fuzzing-mode"; "single"] inputURL result])
      as [result Hw2].
    { subst w2. unfold Legacy.runPvreplace. cbn. rewrite Hw1. by eexists. }
    exists result. rewrite <-Hw2. destruct r; [|done].
    match goal with
    | |- commands (?m w2).2 = _ => enough (noCommand m) as Hm by apply Hm
    end.
    apply noCommand_forM. intros baseURL. apply noCommand_processBase. by right.
Qed.

End Run.
End LegacyProperties.

(* ===================================================================== *)
(** * Facts about the drivers *)
(* ===================================================================== *)

Module MainFacts.
Import Strings NetURL Utils Scanner Notions ScanNotions ScannerFacts.

Lemma Split_nonempty (s : string) (sep : ascii) : Split s sep ≠ [].
Proof.
  destruct s as [|c s]; [done|]. simpl.
  destruct (Ascii.eqb c sep); [done|]. by destruct (Split s sep).
Qed.

(** A line break at the start of the input begins with an empty line. *)
Lemma rawLines_blank (input : string) :
  Main.rawLines (String Main.newline input) = "" :: Main.rawLines input.
Proof.
  unfold Main.rawLines. cbn [Split]. rewrite Ascii.eqb_refl.
  pose proof (Split_nonempty input Main.newline) as Hne.
  destruct (Split input Main.newline) as [|p l]; [done|].
  change (last ("" :: p :: l)) with (last (p :: l)).
  by destruct (last (p :: l)) as [[|]|].
Qed.

Lemma scanTokens_blank (lines : list string) :
  Main.scanTokens ("" :: lines)
  = ("" :: (Main.scanTokens lines).1, (Main.scanTokens lines).2).
Proof. cbn. by destruct (Main.scanTokens lines). Qed.

Lemma jobs_blank (input : string) :
  Main.jobs (String Main.newline input) = "" :: Main.jobs input.
Proof. unfold Main.jobs. by rewrite rawLines_blank, scanTokens_blank. Qed.

Section Run.
Context `{URLSyntax}.

(** The empty string has no injection point, or is no URL. *)
Lemma generate_blank (ro : nat → RangeOrder) (payload : string) :
  ∃ err, GenerateTargetURLs ro "" payload = inr err.
Proof.
  unfold GenerateTargetURLs, Parse. cbn.
  destruct (parseHier "") as [h|err]; cbn; eauto.
Qed.

Lemma Scan_blank (env : Env) (s : Scanner) (w : World) :
  calls (Scan env s "" w).2 = calls w ∧
  commands (Scan env s "" w).2 = commands w ∧
  ∃ err,
    stdout (Scan env s "" w).2 =
      stdout w
      ++ (if JSONOutput_ (opts s) then []
          else [Printf (if NoColor (opts s) then "\nPROCESSING: %s\n"
                        else "\n\033[96mPROCESSING: %s\033[0m\n") [AStr ""]])
      ++ (if Verbose (opts s)
          then [Printf "Error generating target URLs: %v\n" [AErr err]]
          else []).
Proof.
  unfold Scan, bind, generate, when, print, ret.
  destruct (JSONOutput_ (opts s)), (NoColor (opts s)); cbn -[GenerateTargetURLs];
  match goal with
  | |- context [GenerateTargetURLs ?ro "" ?p] =>
      destruct (generate_blank ro p) as [err ->]
  end;
  destruct (Verbose (opts s)); cbn;
  (split_and!; [done|done|exists err; appended]).
Qed.

End Run.

(** The earlier program on an empty line. *)
Lemma legacy_processURL_blank (env : Env) (flags : Legacy.Flags) (w : World) :
  calls (Legacy.processURL env flags "" w).2 = calls w ∧
  commands (Legacy.processURL env flags "" w).2 = commands w ∧
  stdout (Legacy.processURL env flags "" w).2 =
    stdout w
    ++ (if Legacy.jsonOutput flags then []
        else [Printf (if Legacy.noColor flags then "\nPROCESSING: %s\n"
                      else "\n\033[96mPROCESSING: %s\033[0m\n") [AStr ""]])
    ++ [Printf "No injection points found for URL: %s\n" [AStr ""]].
Proof.
  unfold Legacy.processURL, bind, when, print, ret.
  destruct (Legacy.jsonOutput flags), (Legacy.noColor flags); cbn;
  (split_and!; [done|done|appended]).
Qed.

End MainFacts.

(* ===================================================================== *)
(** * The drivers and the deadlines: claims *)
(* ===================================================================== *)

Module DriverClaims.
Import Strings NetURL Utils Scanner Notions ScanNotions.
Import ScannerFacts LegacyFacts MainFacts.

Lemma wrap64_small (z : Z) : (- 2 ^ 63 ≤ z < 2 ^ 63)%Z → wrap64 z = z.
Proof. intros Hz. unfold wrap64. rewrite Z.mod_small; lia. Qed.

Lemma staticDeadline_seconds (timeout : Z) :
  (0 < timeout ≤ 9223372036)%Z →
  staticDeadline timeout = Some (timeout * Second)%Z.
Proof.
  intros Ht. unfold staticDeadline, Second.
  rewrite (wrap64_small timeout) by lia.
  rewrite wrap64_small by lia.
  destruct (Z.ltb_spec 0 (timeout * 1000000000)); [done|lia].
Qed.

Lemma NewScanner_client `{URLSyntax} (o : Options) (s : Scanner) :
  NewScanner o = inl s → clientDeadline (client s) = staticDeadline (Timeout o).
Proof.
  unfold NewScanner, NewDOMScanner.
  destruct (negb (String.eqb (Proxy o) "")).
  - destruct (Parse (Proxy o)); [|done]. by intros [= <-].
  - by intros [= <-].
Qed.

(** C6 (as amended).  For the scanner that [NewScanner] makes from the
    options, every static fetch of a scan carries the deadline of the HTTP
    client, [time.Duration(Timeout) * time.Second] when that is positive
    and none otherwise (for a timeout of 1 to 9223372036 seconds this is
    the configured timeout; for a timeout of 0 there is no deadline); every
    render carries its own deadline of 30 seconds, whatever timeout is
    configured.  A static fetch of a candidate that fails, as it does when
    its deadline expires, ends the work on that candidate: no operation
    follows and no JSON record is written; so does a failed render of a
    candidate whose static body lacks the marker.  In the earlier program
    every static fetch carries the deadline of its client, computed from
    the timeout in the same way, and a render carries no deadline. *)
Theorem deadlines_of_a_scan `{URLSyntax} (env : Env) (o : Options) (s : Scanner)
    (flags : Legacy.Flags) (inputURL baseURL : string) (w : World) :
  NewScanner o = inl s →
  (∃ cs,
     calls (Scan env s inputURL w).2 = calls w ++ cs ∧
     Forall (λ c, match channel c with
                  | Static => deadline c = staticDeadline (Timeout o)
                  | Rendering => deadline c = Some (30 * Second)%Z
                  end) cs) ∧
  ((0 < Timeout o ≤ 9223372036)%Z →
   staticDeadline (Timeout o) = Some (Timeout o * Second)%Z) ∧
  (Timeout o = 0%Z → staticDeadline (Timeout o) = None) ∧
  (let c1 := mkCall Static baseURL (staticDeadline (Timeout o))
               (net env (length (calls w)) Static baseURL) in
   let c2 := mkCall Rendering baseURL (Some (30 * Second)%Z)
               (net env (S (length (calls w))) Rendering baseURL) in
   let w' := (processBaseURL env s inputURL baseURL w).2 in
   ∃ os,
     stdout w' = stdout w ++ os ∧
     (∀ err, reply c1 = inr err →
        calls w' = calls w ++ [c1] ∧ Forall notJSON os) ∧
     (∀ body err,
        reply c1 = inl body → Contains body "rix4uni" = false →
        reply c2 = inr err →
        calls w' = calls w ++ [c1; c2] ∧ Forall notJSON os)) ∧
  (∃ cs,
     calls (Legacy.processURL env flags inputURL w).2 = calls w ++ cs ∧
     Forall (λ c, match channel c with
                  | Static => deadline c = staticDeadline (Legacy.timeout flags)
                  | Rendering => deadline c = None
                  end) cs).
Proof.
  intros Hnew. split_and!.
  - destruct (Scan_effect env s inputURL w) as (cs & os & Hc & _ & _ & _ & Hd).
    exists cs. split; [done|]. eapply Forall_impl; [exact Hd|].
    intros c. unfold deadlineOK. rewrite (NewScanner_client o s Hnew).
    by destruct (channel c).
  - apply staticDeadline_seconds.
  - by intros ->.
  - destruct (processBaseURL_spec env s inputURL baseURL w)
      as (probes & os & _ & Ho & _ & _ & Hcalls).
    cbv zeta in *. cbn [reply] in *. rewrite <-(NewScanner_client o s Hnew).
    exists os. split; [done|]. split.
    + intros err Herr. by rewrite Herr in Hcalls |- *.
    + intros body err Hbody Hlacks Herr.
      rewrite Hbody, Hlacks, Herr in Hcalls. by rewrite Hbody, Herr.
  - destruct (ok_processURL env flags inputURL w) as (cs & os & Hc & _ & Hd & _).
    by exists cs.
Qed.

Lemma deadlines_of_a_scan_witness :
  ∃ cs,
    calls (Scan (server (inl "<p>rix4uni</p>") (inl ""))
                (scannerOf (options 15 true false))
                "http://x/{payload}" emptyWorld).2 = calls emptyWorld ++ cs ∧
    Forall (λ c, match channel c with
                 | Static => deadline c = staticDeadline 15
                 | Rendering => deadline c = Some (30 * Second)%Z
                 end) cs.
Proof.
  apply (deadlines_of_a_scan (server (inl "<p>rix4uni</p>") (inl ""))
           (options 15 true false) (scannerOf (options 15 true false))
           (Legacy.mkFlags "Mozilla/5.0" 15 false false false false)
           "http://x/{payload}" "http://x/rix4uni" emptyWorld).
  vm_compute. reflexivity.
Defined.

(** C6, as stated, fails: with a timeout of 15 seconds and with one of 5
    seconds, the render of the candidate is issued under a deadline of 30
    seconds. *)
Lemma render_deadline_is_not_configured :
  NewScanner (options 15 true false) = inl (scannerOf (options 15 true false)) ∧
  NewScanner (options 5 true false) = inl (scannerOf (options 5 true false)) ∧
  deadline <$> calls (Scan (server (inl "<p></p>") (inl "<p></p>"))
                           (scannerOf (options 15 true false))
                           "http://x/{payload}" emptyWorld).2
    = [Some 15000000000%Z; Some 30000000000%Z] ∧
  deadline <$> calls (Scan (server (inl "<p></p>") (inl "<p></p>"))
                           (scannerOf (options 5 true false))
                           "http://x/{payload}" emptyWorld).2
    = [Some 5000000000%Z; Some 30000000000%Z].
Proof. split_and!; vm_compute; reflexivity. Qed.

(** C8 (as amended).  A line break at the start of the input makes the
    empty line a job like any other; the worker hands it to [Scan] and
    goes on with the next job.  [Scan] of the empty line issues no network
    operation and no external command and writes no JSON record; it prints
    the PROCESSING banner unless JSON output is on and, when verbose, the
    error of the generator.  The earlier program prints the banner (unless
    JSON output is on) and always the line that no injection point was
    found. *)
Theorem blank_line_is_scanned `{URLSyntax} (env : Env) (s : Scanner)
    (flags : Legacy.Flags) (input : string) (w : World) :
  Main.jobs (String Main.newline input) = "" :: Main.jobs input ∧
  (∀ rest,
     Main.worker env s ("" :: rest) w = Main.worker env s rest (Scan env s "" w).2) ∧
  calls (Scan env s "" w).2 = calls w ∧
  commands (Scan env s "" w).2 = commands w ∧
  (∃ err,
     stdout (Scan env s "" w).2 =
       stdout w
       ++ (if JSONOutput_ (opts s) then []
           else [Printf (if NoColor (opts s) then "\nPROCESSING: %s\n"
                         else "\n\033[96mPROCESSING: %s\033[0m\n") [AStr ""]])
       ++ (if Verbose (opts s)
           then [Printf "Error generating target URLs: %v\n" [AErr err]]
           else [])) ∧
  calls (Legacy.processURL env flags "" w).2 = calls w ∧
  stdout (Legacy.processURL env flags "" w).2 =
    stdout w
    ++ (if Legacy.jsonOutput flags then []
        else [Printf (if Legacy.noColor flags then "\nPROCESSING: %s\n"
                      else "\n\033[96mPROCESSING: %s\033[0m\n") [AStr ""]])
    ++ [Printf "No injection points found for URL: %s\n" [AStr ""]].
Proof.
  destruct (Scan_blank env s w) as (Hc & Hm & Ho).
  destruct (legacy_processURL_blank env flags w) as (Hlc & _ & Hlo).
  split_and!; try done.
  - apply jobs_blank.
  - intros rest. unfold Main.worker. by rewrite forM_cons.
Qed.

(** C8, as stated, fails: on an input that is one empty line, the
    program in verbose mode prints the PROCESSING banner and an error. *)
Lemma blank_line_is_processed :
  Main.jobs (String Main.newline "") = [""] ∧
  stdout (Main.mainSingleWorker (server (inl "") (inl ""))
            (scannerOf (options 15 false true))
            (String Main.newline "") emptyWorld).2
  = [Printf "\n\033[96mPROCESSING: %s\033[0m\n" [AStr ""];
     Printf "Error generating target URLs: %v\n"
       [AErr (errorString "no injection points found")]].
Proof. split; vm_compute; reflexivity. Qed.

End DriverClaims.

(* ===================================================================== *)
(** * Facts about the worker pool *)
(* ===================================================================== *)

Module PoolFacts.
Import Main PoolNotions.

Lemma run_app (c : Z) (s1 s2 : list Thread) (p : Pool) :
  run c (s1 ++ s2) p = run c s1 p ≫= run c s2.
Proof.
  revert p. induction s1 as [|t s1 IH]; intros p; [done|].
  cbn [run app]. destruct (step c t p); [apply IH|done].
Qed.

Lemma run_snoc (c : Z) (s : list Thread) (t : Thread) (p q : Pool) :
  run c (s ++ [t]) p = Some q ↔ ∃ p', run c s p = Some p' ∧ step c t p' = Some q.
Proof.
  rewrite run_app. split.
  - intros Hq. destruct (run c s p) as [p'|]; [|done]. exists p'. split; [done|].
    cbn in Hq. by destruct (step c t p').
  - intros (p' & -> & Hq). cbn. by rewrite Hq.
Qed.

(** A worker at its place in the list, and the list with another state
    at that place. *)
Lemma lookup_split (ws : list WorkerPC) (i : nat) (pc : WorkerPC) :
  ws !! i = Some pc →
  ∃ l1 l2, ws = l1 ++ pc :: l2 ∧ length l1 = i ∧
           ∀ pc', <[i := pc']> ws = l1 ++ pc' :: l2.
Proof.
  intros Hi. destruct (list_elem_of_split_length ws i pc Hi) as (l1 & l2 & -> & ->).
  exists l1, l2. split_and!; [done..|]. intros pc'.
  rewrite <-(Nat.add_0_r (length l1)). by rewrite insert_app_r.
Qed.

Lemma taken_snoc (es : list Event) (e : Event) :
  taken (es ++ [e]) = taken es ++ match e with Took _ url => [url] | _ => [] end.
Proof. unfold taken. rewrite omap_app. by destruct e. Qed.

Lemma scanned_snoc (es : list Event) (e : Event) :
  scanned (es ++ [e]) = scanned es ++ match e with Scanned _ url => [url] | _ => [] end.
Proof. unfold scanned. rewrite omap_app. by destruct e. Qed.

Lemma scanning_middle (l1 l2 : list WorkerPC) (pc : WorkerPC) :
  scanning (l1 ++ pc :: l2) =
    scanning l1 ++ match pc with Scanning url => [url] | _ => [] end ++ scanning l2.
Proof. unfold scanning. rewrite omap_app. by destruct pc. Qed.

Lemma live_middle (l1 l2 : list WorkerPC) (pc : WorkerPC) :
  live (l1 ++ pc :: l2) = live l1 ++ (if running pc then [pc] else []) ++ live l2.
Proof.
  unfold live. rewrite filter_app, filter_cons. by destruct pc.
Qed.

Lemma length_live_middle (l1 l2 : list WorkerPC) (pc : WorkerPC) :
  length (live (l1 ++ pc :: l2)) =
    (length (live l1) + (if running pc then 1 else 0) + length (live l2))%nat.
Proof. rewrite live_middle, !length_app. destruct pc; cbn; lia. Qed.

Lemma live_snoc (ws : list WorkerPC) : live (ws ++ [Receiving]) = live ws ++ [Receiving].
Proof. unfold live. by rewrite filter_app. Qed.

Lemma eventsOf_snoc (i : nat) (es : list Event) (e : Event) :
  eventsOf i (es ++ [e]) = eventsOf i es ++ (if decide (workerOf e = i) then [e] else []).
Proof.
  unfold eventsOf. rewrite filter_app, filter_cons.
  by destruct (decide (workerOf e = i)).
Qed.

Lemma eventsOf_beyond (i : nat) (es : list Event) :
  Forall (λ e, workerOf e < i)%nat es → eventsOf i es = [].
Proof.
  intros Hes. unfold eventsOf. induction Hes as [|e es He _ IH]; [done|].
  rewrite filter_cons_False by lia. done.
Qed.

Lemma rounds_snoc (i : nat) (urls : list string) (url : string) :
  rounds i (urls ++ [url]) = rounds i urls ++ [Took i url; Scanned i url].
Proof. unfold rounds. by rewrite bind_app. Qed.

Lemma rounds_step (ws : list WorkerPC) (es new : list Event) (i : nat)
    (pc pc' : WorkerPC) :
  (∀ j pc, ws !! j = Some pc →
     ∃ urls, eventsOf j es = rounds j urls ++ current j pc) →
  ws !! i = Some pc →
  Forall (λ e, workerOf e = i) new →
  (∀ urls, ∃ urls',
     rounds i urls ++ current i pc ++ new = rounds i urls' ++ current i pc') →
  ∀ j pc'', <[i := pc']> ws !! j = Some pc'' →
    ∃ urls, eventsOf j (es ++ new) = rounds j urls ++ current j pc''.
Proof.
  intros Hrounds Hi Hnew Hshape j pc'' Hj.
  apply list_lookup_insert_Some in Hj as [(<- & <- & Hlt)|[Hne Hj]].
  - destruct (Hrounds i pc Hi) as (urls & Hurls).
    destruct (Hshape urls) as (urls' & Hurls'). exists urls'.
    unfold eventsOf in *. rewrite filter_app, Hurls, <-Hurls', <-(assoc_L (++)).
    do 2 f_equal. clear -Hnew. induction Hnew as [|e new He _ IH]; [done|].
    by rewrite filter_cons_True, IH.
  - destruct (Hrounds j pc'' Hj) as (urls & Hurls). exists urls.
    unfold eventsOf in *. rewrite filter_app, Hurls.
    replace (filter _ new) with (@nil Event); [by rewrite app_nil_r|].
    clear -Hnew Hne. induction Hnew as [|e new He _ IH]; [done|].
    rewrite filter_cons_False by congruence. done.
Qed.

(** ** What every state of a run satisfies *)

Section Invariant.
Variable c : Z.
Variable tokens : list string.

Lemma invariant_initial : invariant c tokens (initial tokens).
Proof. split; cbn; try done. lia. Qed.

Ltac fields := split; cbn [mainPC pending closed wg workers events inFlight].

Lemma stepMain_invariant (p q : Pool) :
  invariant c tokens p → stepMain c p = Some q → invariant c tokens q.
Proof.
  intros [Hsize Hwg Hqueue Hscan Hclosed Halive Hret Hrounds Hev]. unfold stepMain.
  destruct (mainPC p) as [i| |url| | |] eqn:Hpc; try done.
  - destruct Hsize as [Hi Hlen].
    destruct (Z.ltb_spec i c); intros [= <-]; fields; try done.
    + split; [lia|]. rewrite length_app, Hlen. cbn [length]. lia.
    + rewrite Hwg, live_snoc, length_app. cbn [length]. lia.
    + unfold scanning. rewrite omap_app. cbn. by rewrite app_nil_r.
    + intros _. apply Forall_app. split; [by apply Halive|]. by repeat constructor.
    + intros j pc Hj. destruct (decide (j < length (workers p))%nat) as [Hlt|Hge].
      * rewrite lookup_app_l in Hj by done. by apply Hrounds.
      * rewrite lookup_app_r in Hj by lia.
        destruct (j - length (workers p))%nat eqn:Hd; [|done].
        injection Hj as <-. exists []. cbn.
        apply eventsOf_beyond. eapply Forall_impl; [exact Hev|]. cbn. lia.
    + eapply Forall_impl; [exact Hev|]. cbn. intros e He.
      rewrite length_app. lia.
    + lia.
  - cbn [inFlight] in *.
    destruct (pending p) as [|url rest] eqn:Hp; intros [= <-]; fields; try done.
  - intros [= <-]. fields; try done. by destruct Hclosed.
  - destruct (Z.eqb_spec (wg p) 0); intros [= <-]; fields; try done.
Qed.

Lemma stepWorker_invariant (i : nat) (p q : Pool) :
  invariant c tokens p → stepWorker i p = Some q → invariant c tokens q.
Proof.
  intros [Hsize Hwg Hqueue Hscan Hclosed Halive Hret Hrounds Hev]. unfold stepWorker.
  destruct (workers p !! i) as [pc|] eqn:Hi; [|done].
  pose proof (lookup_lt_Some _ _ _ Hi) as Hlt.
  destruct (lookup_split _ _ _ Hi) as (l1 & l2 & Hws & Hl1 & Hins).
  assert (∀ pc', length (<[i := pc']> (workers p)) = length (workers p)) as Hlen.
  { intros pc'. apply length_insert. }
  destruct pc as [|url|]; [|intros [= <-]|done].
  - destruct (mainPC p) as [k| |url| | |] eqn:Hpc.
    3: { intros [= <-]. cbn [inFlight] in *. fields; try done.
      * by rewrite Hlen.
      * rewrite Hwg, Hins, Hws, !length_live_middle. done.
      * by rewrite taken_snoc, <-(assoc_L (++)).
      * rewrite taken_snoc, scanned_snoc, app_nil_r, Hscan, Hins, Hws.
        rewrite !scanning_middle. cbn [app]. rewrite <-!(assoc_L (++)).
        do 2 apply Permutation_app_head. symmetry. apply Permutation_cons_append.
      * intros Hcl. by apply Forall_insert; [apply Halive|].
      * eapply (rounds_step _ _ [Took i url]); [exact Hrounds|exact Hi|by repeat constructor|].
        intros urls. by exists urls.
      * rewrite Hlen. apply Forall_app. split; [done|]. by repeat constructor. }
    all: destruct (closed p) eqn:Hcl; [|done]; intros [= <-]; fields; try done.
    all: try by rewrite Hlen.
    all: try (rewrite Hwg, Hins, Hws, !length_live_middle; cbn [running]; lia).
    all: try by rewrite Hscan, Hins, Hws, !scanning_middle.
    all: try (rewrite <-(app_nil_r (events p));
              eapply (rounds_step _ _ []); [exact Hrounds|exact Hi|constructor|];
              intros urls; by exists urls).
    intros _. specialize (Hret eq_refl).
    rewrite Hwg, Hws, length_live_middle in Hret. cbn [running] in Hret. lia.
  - fields; try done.
    + rewrite Hlen. by destruct (mainPC p).
    + rewrite Hwg, Hins, Hws, !length_live_middle. done.
    + by rewrite taken_snoc, app_nil_r.
    + rewrite taken_snoc, scanned_snoc, app_nil_r, Hscan, Hins, Hws.
      rewrite !scanning_middle. cbn [app]. rewrite <-!(assoc_L (++)).
      apply Permutation_app_head. cbn [app]. by rewrite Permutation_middle.
    + intros Hcl. by apply Forall_insert; [apply Halive|].
    + eapply (rounds_step _ _ [Scanned i url]);
        [exact Hrounds|exact Hi|by repeat constructor|].
      intros urls. exists (urls ++ [url]).
      rewrite rounds_snoc. cbn [current]. by rewrite <-(assoc_L (++)), app_nil_r.
    + rewrite Hlen. apply Forall_app. split; [done|]. by repeat constructor.
Qed.

Lemma step_invariant (t : Thread) (p q : Pool) :
  invariant c tokens p → step c t p = Some q → invariant c tokens q.
Proof. destruct t; [apply stepMain_invariant|apply stepWorker_invariant]. Qed.

Lemma run_invariant (schedule : list Thread) (p q : Pool) :
  invariant c tokens p → run c schedule p = Some q → invariant c tokens q.
Proof.
  revert p. induction schedule as [|t schedule IH]; intros p Hp; cbn [run].
  - by intros [= <-].
  - destruct (step c t p) as [p'|] eqn:Hstep; [|done].
    apply IH. by eapply step_invariant.
Qed.



End Invariant.

Lemma scanning_live (ws : list WorkerPC) : live ws = [] → scanning ws = [].
Proof.
  induction ws as [|pc ws IH]; [done|].
  unfold live. rewrite filter_cons. by destruct pc.
Qed.

Lemma exited_live (ws : list WorkerPC) : live ws = [] → Forall (λ pc, pc = Exited) ws.
Proof.
  induction ws as [|pc ws IH]; [constructor|].
  unfold live. rewrite filter_cons. destruct pc; cbn; try done.
  intros Hws. constructor; [done|by apply IH].
Qed.

(** When [main] returns, every token has been scanned and every worker
    has left. *)
Lemma returned_all_scanned (c : Z) (tokens : list string) (p : Pool) :
  invariant c tokens p → mainPC p = Returned →
  scanned (events p) ≡ₚ tokens ∧ Forall (λ pc, pc = Exited) (workers p).
Proof.
  intros [Hsize Hwg Hqueue Hscan Hclosed Halive Hret Hrounds Hev] Hpc.
  specialize (Hret Hpc). rewrite Hpc in *. cbn [inFlight] in *.
  assert (live (workers p) = []) as Hlive.
  { apply length_zero_iff_nil. lia. }
  split; [|by apply exited_live].
  rewrite <-Hqueue, Hclosed, app_nil_r, Hscan, (scanning_live _ Hlive).
  by rewrite app_nil_r.
Qed.

(** Without workers nothing is received, and [main] returns only if there
    was nothing to send. *)
Lemma no_worker_no_return (c : Z) (tokens : list string) (p : Pool) :
  invariant c tokens p → (c ≤ 0)%Z → mainPC p = Returned → tokens = [].
Proof.
  intros Hinv Hc Hpc. destruct (returned_all_scanned c tokens p Hinv Hpc) as [Hs _].
  destruct Hinv as [Hsize _ _ _ _ _ _ _ Hev]. rewrite Hpc in Hsize.
  destruct (events p) as [|e es].
  - by apply Permutation_nil in Hs.
  - apply Forall_cons in Hev as [He _]. lia.
Qed.

Lemma length_scanning (ws : list WorkerPC) : (length (scanning ws) ≤ length ws)%nat.
Proof.
  unfold scanning. induction ws as [|pc ws IH]; [done|].
  destruct pc; csimpl; lia.
Qed.

(** ** Schedules *)

Lemma scanned_rounds (i : nat) (urls : list string) : scanned (rounds i urls) = urls.
Proof. induction urls as [|url urls IH]; [done|]. cbn. by f_equal. Qed.

Lemma taken_rounds (i : nat) (urls : list string) : taken (rounds i urls) = urls.
Proof. induction urls as [|url urls IH]; [done|]. cbn. by f_equal. Qed.

Lemma run_start (c : Z) (n : nat) (i w : Z) (tokens : list string)
    (ws : list WorkerPC) (es : list Event) :
  (i + Z.of_nat n ≤ c)%Z →
  run c (replicate n MainThread) (mkPool (Starting i) tokens false w ws es) =
    Some (mkPool (Starting (i + Z.of_nat n)) tokens false (w + Z.of_nat n)
            (ws ++ replicate n Receiving) es).
Proof.
  revert i w ws. induction n as [|n IH]; intros i w ws Hi.
  - cbn. by rewrite !Z.add_0_r, app_nil_r.
  - cbn [replicate run step stepMain mainPC pending closed wg workers events].
    destruct (Z.ltb_spec i c); [|lia]. rewrite IH by lia.
    rewrite <-(assoc_L (++)). cbn [app].
    by replace (i + 1 + Z.of_nat n)%Z with (i + Z.of_nat (S n))%Z by lia;
       replace (w + 1 + Z.of_nat n)%Z with (w + Z.of_nat (S n))%Z by lia.
Qed.

Lemma run_tokens (c : Z) (tokens rest : list string) (w : Z)
    (ws : list WorkerPC) (es : list Event) :
  run c (tokens ≫= λ _, [MainThread; WorkerThread 0; WorkerThread 0])
    (mkPool Reading (tokens ++ rest) false w (Receiving :: ws) es) =
    Some (mkPool Reading rest false w (Receiving :: ws) (es ++ rounds 0 tokens)).
Proof.
  revert es. induction tokens as [|url tokens IH]; intros es.
  - cbn. by rewrite app_nil_r.
  - cbn. unfold rounds in IH. rewrite IH. by rewrite <-!(assoc_L (++)).
Qed.

Lemma run_exits (c : Z) (n k : nat) (w : Z) (es : list Event) :
  run c (WorkerThread <$> seq k n)
    (mkPool Joining [] true (w + Z.of_nat n)
       (replicate k Exited ++ replicate n Receiving) es) =
    Some (mkPool Joining [] true w (replicate (k + n) Exited) es).
Proof.
  revert k w. induction n as [|n IH]; intros k w.
  - cbn. by rewrite Z.add_0_r, app_nil_r, Nat.add_0_r.
  - cbn [seq fmap list_fmap run step stepWorker mainPC pending closed wg workers
         events replicate].
    unfold stepWorker. cbn [mainPC pending closed wg workers events].
    rewrite (list_lookup_middle _ _ _ k) by by rewrite length_replicate.
    replace (<[k:=Exited]> (replicate k Exited ++ Receiving :: replicate n Receiving))
      with (replicate (S k) Exited ++ replicate n Receiving).
    + replace (w + Z.of_nat (S n) - 1)%Z with (w + Z.of_nat n)%Z by lia.
      rewrite IH. by rewrite Nat.add_succ_r.
    + rewrite insert_app_r_alt by (rewrite length_replicate; lia).
      rewrite length_replicate, Nat.sub_diag, replicate_S_end, <-(assoc_L (++)).
      done.
Qed.

(** With at least one worker, [sequential] takes [main] to its return,
    and every token is scanned, in the order of the input. *)
Lemma sequential_returns (m : nat) (tokens : list string) :
  run (Z.of_nat (S m)) (sequential (S m) tokens) (initial tokens) =
    Some (mkPool Returned [] true 0 (replicate (S m) Exited) (rounds 0 tokens)).
Proof.
  unfold sequential, initial. rewrite replicate_S_end, <-(assoc_L (++)), run_app.
  rewrite run_start by lia. cbn [mbind option_bind].
  cbn [app run step stepMain mainPC pending closed wg workers events].
  destruct (Z.ltb_spec (0 + Z.of_nat (S m)) (Z.of_nat (S m))); [lia|].
  cbn [replicate app]. rewrite run_app.
  rewrite <-(app_nil_r tokens) at 2. rewrite run_tokens. cbn [mbind option_bind].
  cbn [app run step stepMain mainPC pending closed wg workers events].
  rewrite run_app.
  pose proof (run_exits (Z.of_nat (S m)) (S m) 0 0 (rounds 0 tokens)) as Hexits.
  cbn [replicate app] in Hexits.
  rewrite Hexits. done.
Qed.

(** Two workers and two tokens: a schedule under which the second token
    is scanned before the first. *)
Lemma overtaking_returns (a b : string) :
  run 2 overtaking (initial [a; b]) =
    Some (mkPool Returned [] true 0 [Exited; Exited]
            [Took 0 a; Took 1 b; Scanned 1 b; Scanned 0 a]).
Proof. reflexivity. Qed.

End PoolFacts.

(* ===================================================================== *)
(** * Facts about the pool with its scans *)
(* ===================================================================== *)

Module SystemFacts.
Import Scanner ScanNotions ScannerFacts Main PoolNotions PoolFacts.

Section Scans.
Context `{NetURL.URLSyntax}.
Variable out : Outside.
Variable s : Scanner.
Variable c : Z.

(** ** Every run of the system is a run of its frame *)

Lemma stepSystem_pool (t : Thread) (st st' : System) :
  stepSystem out s c t st = Some st' → step c t (pool st) = Some (pool st').
Proof.
  destruct t as [|i]; cbn [stepSystem step].
  - destruct (stepMain c (pool st)); [|done]. by intros [= <-].
  - destruct (workers (pool st) !! i) as [[|url|]|]; cbv zeta;
      try destruct (stalls _ _ _ _ _); try done;
      (destruct (stepWorker i (pool st)); [|done]); by intros [= <-].
Qed.

Lemma runSystem_pool (schedule : list Thread) (st st' : System) :
  runSystem out s c schedule st = Some st' →
  run c schedule (pool st) = Some (pool st').
Proof.
  revert st. induction schedule as [|t schedule IH]; intros st; cbn [runSystem run].
  - by intros [= <-].
  - destruct (stepSystem out s c t st) as [st1|] eqn:Hstep; [|done].
    rewrite (stepSystem_pool _ _ _ Hstep). apply IH.
Qed.

Lemma runSystem_app (s1 s2 : list Thread) (st : System) :
  runSystem out s c (s1 ++ s2) st = runSystem out s c s1 st ≫= runSystem out s c s2.
Proof.
  revert st. induction s1 as [|t s1 IH]; intros st; [done|].
  cbn [runSystem app]. destruct (stepSystem out s c t st); [apply IH|done].
Qed.

(** ** The worlds of the workers *)

Lemma forM_snoc {A : Type} (l : list A) (a : A) (f : A → M unit) (w : World) :
  (forM (l ++ [a]) f w).2 = (f a (forM l f w).2).2.
Proof.
  revert w. induction l as [|b l IH]; intros w; cbn [forM app]; rewrite !bind_run.
  - done.
  - apply IH.
Qed.

Lemma scanned_snoc' (es new : list Event) :
  scanned (es ++ new) = scanned es ++ scanned new.
Proof. unfold scanned. by rewrite omap_app. Qed.

Lemma scansDone_initial (tokens : list string) :
  scansDone out s (mkSystem (initial tokens) []).
Proof. split; [done|]. by intros i w. Qed.

Lemma stepSystem_scansDone (tokens : list string) (t : Thread) (st st' : System) :
  invariant c tokens (pool st) → scansDone out s st →
  stepSystem out s c t st = Some st' → scansDone out s st'.
Proof.
  intros Hinv [Hlen Hworlds] Hstep. unfold scansDone.
  destruct t as [|i]; cbn [stepSystem] in Hstep.
  - unfold stepMain in Hstep.
    destruct (mainPC (pool st)) as [j| |url| | |] eqn:Hpc.
    + destruct (Z.ltb_spec j c); injection Hstep as <-; cbn [pool worlds workers events];
        [|by split].
      split; [by rewrite !length_app, Hlen|].
      intros k w [Hw|[Hk Hw]]%lookup_app_Some; [by apply Hworlds|].
      apply list_lookup_singleton_Some in Hw as [Hk0 <-].
      assert (k = length (workers (pool st))) as -> by lia.
      rewrite eventsOf_beyond; [done|]. by destruct Hinv.
    + destruct (pending (pool st)); injection Hstep as <-; by split.
    + done.
    + injection Hstep as <-. by split.
    + destruct (wg (pool st) =? 0)%Z; [|done]. injection Hstep as <-. by split.
    + done.
  - unfold stepWorker in Hstep.
    destruct (workers (pool st) !! i) as [[|url|]|] eqn:Hi; cbv zeta in Hstep.
    + destruct (mainPC (pool st)) as [j| |url| | |];
        try (destruct (closed (pool st)); [|done]);
        injection Hstep as <-; cbn [pool worlds workers events];
        (split; [by rewrite length_insert|]); try done.
      intros k w Hw. rewrite eventsOf_snoc, scanned_snoc'.
      rewrite (Hworlds k w Hw). destruct (decide _); cbn; by rewrite ?app_nil_r.
    + destruct (stalls _ _ _ _ _); [done|]. injection Hstep as <-.
      cbn [pool worlds workers events].
      split; [by rewrite !length_insert|].
      intros k w Hw. rewrite eventsOf_snoc, scanned_snoc'. cbn [workerOf].
      apply list_lookup_insert_Some in Hw as [(<- & <- & Hlt)|[Hne Hw]].
      * rewrite decide_True by done. cbn.
        unfold worker. rewrite forM_snoc.
        destruct (worlds st !! i) as [w|] eqn:Hw.
        -- cbn [default]. pose proof (Hworlds i w Hw) as Hwi.
           unfold worker in Hwi. by rewrite <-Hwi.
        -- apply lookup_ge_None in Hw. lia.
      * rewrite decide_False by done. cbn. rewrite ?app_nil_r. by apply Hworlds.
    + done.
    + done.
Qed.

Lemma runSystem_scansDone (tokens : list string) (schedule : list Thread)
    (st st' : System) :
  invariant c tokens (pool st) → scansDone out s st →
  runSystem out s c schedule st = Some st' → scansDone out s st'.
Proof.
  revert st. induction schedule as [|t schedule IH]; intros st Hinv Hdone;
    cbn [runSystem].
  - by intros [= <-].
  - destruct (stepSystem out s c t st) as [st1|] eqn:Hstep; [|done].
    apply IH.
    + eapply step_invariant; [exact Hinv|]. by apply stepSystem_pool.
    + by eapply stepSystem_scansDone.
Qed.

(** What worker [i] has made, from the events of the worker. *)
Lemma scansDone_rounds (tokens : list string) (st : System) (i : nat) (pc : WorkerPC) :
  invariant c tokens (pool st) → scansDone out s st →
  workers (pool st) !! i = Some pc →
  ∃ urls,
    eventsOf i (events (pool st)) = rounds i urls ++ current i pc ∧
    worlds st !! i = Some (worker (envOf out i) s urls emptyWorld).2.
Proof.
  intros Hinv [Hlen Hworlds] Hi.
  destruct Hinv as [_ _ _ _ _ _ _ Hrounds _].
  destruct (Hrounds i pc Hi) as (urls & Hurls). exists urls. split; [done|].
  destruct (lookup_lt_is_Some_2 (worlds st) i) as [w Hw].
  { rewrite Hlen. by eapply lookup_lt_Some. }
  rewrite Hw, (Hworlds i w Hw), Hurls, scanned_snoc', scanned_rounds.
  destruct pc; cbn; by rewrite app_nil_r.
Qed.

(** ** Scans that return *)

Lemma waitsForever_deadlines (silent : nat → bool) (n : nat) (cs : list Call) :
  Forall (λ c, is_Some (deadline c)) cs → waitsForever silent n cs = false.
Proof.
  intros Hcs. revert n. induction Hcs as [|c0 cs [d Hd] _ IH]; intros n; [done|].
  cbn. by rewrite Hd, IH.
Qed.

(** A client with a deadline makes every scan return. *)
Lemma deadline_neverStalls :
  is_Some (clientDeadline (client s)) → neverStalls out s.
Proof.
  intros Hclient i url w. unfold stalls.
  destruct (Scan_effect (envOf out i) s url w) as (cs & os & Hc & _ & _ & _ & Hd).
  rewrite Hc, drop_app_length. apply waitsForever_deadlines.
  eapply Forall_impl; [exact Hd|]. intros c0. unfold deadlineOK.
  destruct (channel c0); intros ->; [done|by eexists].
Qed.

Lemma stepSystem_lift (t : Thread) (st : System) (p' : Pool) :
  neverStalls out s → step c t (pool st) = Some p' →
  ∃ st', stepSystem out s c t st = Some st' ∧ pool st' = p'.
Proof.
  intros Hnever. destruct t as [|i]; cbn [step stepSystem]; intros Hstep.
  - rewrite Hstep. by eexists.
  - destruct (workers (pool st) !! i) as [[|url|]|]; cbv zeta;
      rewrite ?Hnever, Hstep; by eexists.
Qed.

Lemma runSystem_lift (schedule : list Thread) (st : System) (p' : Pool) :
  neverStalls out s → run c schedule (pool st) = Some p' →
  ∃ st', runSystem out s c schedule st = Some st' ∧ pool st' = p'.
Proof.
  intros Hnever. revert st. induction schedule as [|t schedule IH]; intros st;
    cbn [run runSystem].
  - intros [= <-]. by exists st.
  - destruct (step c t (pool st)) as [p1|] eqn:Hstep; [|done]. intros Hrun.
    destruct (stepSystem_lift t st p1 Hnever Hstep) as (st1 & -> & <-).
    by apply IH.
Qed.

End Scans.
End SystemFacts.

(* ===================================================================== *)
(** * The worker pool: claims *)
(* ===================================================================== *)

Module PoolClaims.
Import Scanner ScanNotions Main PoolNotions PoolFacts SystemFacts.

(** C7.  In every state that [main] of the command reaches with its
    scans, under any schedule of its goroutines and whatever the network
    replies: there are at most as many workers, and so at most as many
    scans under way, as the concurrency level says, and exactly that many
    once the loop that starts them is left; the tokens received so far,
    the one being sent and the ones still to be read are the input, in
    order, so every URL goes to one worker; the events of each worker are
    receipt and return of one URL after the other, the last receipt
    unmatched exactly when the worker is in a scan, and what the worker
    has made is what [Scan] makes of these URLs, one whole scan after the
    other, the scan under way not counted; when [main] returns every URL
    has been scanned and every worker has left.  With a positive level and
    a client that has a deadline a schedule exists under which [main]
    returns; with a level of zero or less [main] returns only on empty
    input.  Across URLs the order is open: with two workers the scan of
    the second URL can return before that of the first. *)
Theorem workers_form_a_bounded_pool `{NetURL.URLSyntax} (out : Outside)
    (s : Scanner) (concurrency : Z) (input : string)
    (schedule : list Thread) (st : System) :
  mainSystem out s concurrency input schedule = Some st →
  (length (scanning (workers (pool st))) ≤ length (workers (pool st))
     ≤ Z.to_nat concurrency)%nat ∧
  ((∀ i, mainPC (pool st) ≠ Starting i) →
   length (workers (pool st)) = Z.to_nat concurrency) ∧
  taken (events (pool st)) ++ inFlight (mainPC (pool st)) ++ pending (pool st)
    = jobs input ∧
  (∀ i pc, workers (pool st) !! i = Some pc →
     ∃ urls,
       eventsOf i (events (pool st)) = rounds i urls ++ current i pc ∧
       worlds st !! i = Some (worker (envOf out i) s urls emptyWorld).2) ∧
  (mainPC (pool st) = Returned →
     scanned (events (pool st)) ≡ₚ jobs input ∧
     Forall (λ pc, pc = Exited) (workers (pool st))) ∧
  ((0 < concurrency)%Z → is_Some (clientDeadline (client s)) →
     ∃ schedule' st',
       mainSystem out s concurrency input schedule' = Some st' ∧
       mainPC (pool st') = Returned ∧ scanned (events (pool st')) = jobs input) ∧
  ((concurrency ≤ 0)%Z → mainPC (pool st) = Returned → jobs input = []) ∧
  (is_Some (clientDeadline (client s)) →
   ∀ a b, ∃ st',
     runSystem out s 2 overtaking (mkSystem (initial [a; b]) []) = Some st' ∧
     mainPC (pool st') = Returned ∧
     taken (events (pool st')) = [a; b] ∧ scanned (events (pool st')) = [b; a]).
Proof.
  intros Hrun.
  assert (invariant concurrency (jobs input) (pool st)) as Hinv.
  { eapply run_invariant; [apply invariant_initial|].
    apply (runSystem_pool out s concurrency schedule _ st Hrun). }
  assert (scansDone out s st) as Hdone.
  { eapply runSystem_scansDone; [| |exact Hrun];
      [apply invariant_initial|apply scansDone_initial]. }
  split_and!.
  - apply length_scanning.
  - destruct Hinv as [Hsize _ _ _ _ _ _ _ _]. destruct (mainPC (pool st)); lia.
  - intros Hpc. destruct Hinv as [Hsize _ _ _ _ _ _ _ _].
    destruct (mainPC (pool st)) as [i| | | | |]; [by destruct (Hpc i)|done..].
  - by destruct Hinv.
  - intros i pc Hi. by apply (scansDone_rounds out s concurrency (jobs input)).
  - by apply (returned_all_scanned concurrency).
  - intros Hc Hdeadline.
    exists (sequential (Z.to_nat concurrency) (jobs input)).
    destruct (Z.to_nat concurrency) as [|m] eqn:Hm; [lia|].
    replace concurrency with (Z.of_nat (S m)) by lia.
    destruct (runSystem_lift out s (Z.of_nat (S m)) (sequential (S m) (jobs input))
                (mkSystem (initial (jobs input)) []) _
                (deadline_neverStalls out s Hdeadline)
                (sequential_returns m (jobs input))) as (st' & Hst' & Hpool).
    exists st'. rewrite Hpool. split_and!; [exact Hst'|reflexivity|].
    apply scanned_rounds.
  - intros Hc Hpc. exact (no_worker_no_return _ _ _ Hinv Hc Hpc).
  - intros Hdeadline a b.
    destruct (runSystem_lift out s 2 overtaking (mkSystem (initial [a; b]) []) _
                (deadline_neverStalls out s Hdeadline)
                (overtaking_returns a b)) as (st' & Hst' & Hpool).
    exists st'. rewrite Hpool. split_and!; [exact Hst'|reflexivity..].
Qed.

Lemma workers_form_a_bounded_pool_witness :
  ∃ st,
    mainSystem (mkOutside (λ _, server (inl "<p>rix4uni</p>") (inl "")) (λ _ _, false))
      (scannerOf (options 15 true false)) 2 "http://x/?a=1
http://x/?b=2
" overtaking = Some st ∧
    scanned (events (pool st)) ≡ₚ jobs "http://x/?a=1
http://x/?b=2
" ∧
    Forall (λ pc, pc = Exited) (workers (pool st)).
Proof.
  eexists. split; [vm_compute; reflexivity|].
  apply (workers_form_a_bounded_pool
           (mkOutside (λ _, server (inl "<p>rix4uni</p>") (inl "")) (λ _ _, false))
           (scannerOf (options 15 true false)) 2 "http://x/?a=1
http://x/?b=2
" overtaking); reflexivity.
Defined.

End PoolClaims.

(* ===================================================================== *)
(** * The worker pool: moves, progress and order *)
(* ===================================================================== *)

(** The properties of the frame ([mainPool]) hold of every run of main
    with its scans, which is a run of the frame ([runSystem_pool]). *)

Module PoolProperties.
Import Scanner ScanNotions Main PoolNotions PoolFacts SystemFacts.

(** Every move uses up one of the moves that are left. *)
Lemma step_movesLeft (c : Z) (t : Thread) (p q : Pool) :
  step c t p = Some q → S (movesLeft c q) = movesLeft c p.
Proof.
  unfold movesLeft. destruct t as [|i]; cbn [step].
  - unfold stepMain. destruct (mainPC p) as [k| |url| | |] eqn:Hpc; try done.
    + destruct (Z.ltb_spec k c); intros [= <-];
        cbn [mainPC pending closed wg workers events phase].
      * rewrite live_snoc, length_app.
        unfold scanning. rewrite omap_app, length_app. cbn [length omap list_omap].
        replace (Z.to_nat (c - k)) with (S (Z.to_nat (c - (k + 1)))) by lia. lia.
      * replace (Z.to_nat (c - k)) with O by lia. lia.
    + destruct (pending p) as [|url rest]; intros [= <-];
        cbn [mainPC pending closed wg workers events phase length]; lia.
    + intros [= <-]. cbn [mainPC pending closed wg workers events phase]. lia.
    + destruct (wg p =? 0)%Z; intros [= <-].
      cbn [mainPC pending closed wg workers events phase]. lia.
  - unfold stepWorker. destruct (workers p !! i) as [pc|] eqn:Hi; [|done].
    destruct (lookup_split _ _ _ Hi) as (l1 & l2 & Hws & _ & Hins).
    destruct pc as [|url|]; [| |done].
    + destruct (mainPC p) as [k| |url| | |] eqn:Hpc.
      3: { intros [= <-]. cbn [mainPC pending closed wg workers events phase].
           rewrite Hins, Hws, !length_live_middle, !scanning_middle, !length_app.
           cbn [running length app]. lia. }
      all: destruct (closed p); [|done]; intros [= <-];
        cbn [mainPC pending closed wg workers events phase];
        rewrite ?Hpc, Hins, Hws, !length_live_middle, !scanning_middle, !length_app;
        cbn [running length app phase]; lia.
    + intros [= <-]. cbn [mainPC pending closed wg workers events phase].
      rewrite Hins, Hws, !length_live_middle, !scanning_middle, !length_app.
      cbn [running length app]. lia.
Qed.

Lemma run_movesLeft (c : Z) (schedule : list Thread) (p q : Pool) :
  run c schedule p = Some q → length schedule + movesLeft c q = movesLeft c p.
Proof.
  revert p. induction schedule as [|t schedule IH]; intros p; cbn [run length].
  - by intros [= <-].
  - destruct (step c t p) as [p'|] eqn:Hstep; [|done]. intros Hrun.
    apply IH in Hrun. apply step_movesLeft in Hstep. lia.
Qed.

(** [jobs] is closed by the time main waits for the workers. *)
Lemma run_closed (c : Z) (schedule : list Thread) (p q : Pool) :
  (mainPC p = Joining ∨ mainPC p = Returned → closed p = true) →
  run c schedule p = Some q →
  mainPC q = Joining ∨ mainPC q = Returned → closed q = true.
Proof.
  revert p. induction schedule as [|t schedule IH]; intros p Hp; cbn [run].
  - by intros [= <-].
  - destruct (step c t p) as [p'|] eqn:Hstep; [|done]. apply IH. clear IH.
    destruct t as [|i]; cbn [step] in Hstep.
    + unfold stepMain in Hstep.
      destruct (mainPC p) as [k| |url| | |] eqn:Hpc; try done.
      * destruct (k <? c)%Z; injection Hstep as <-; by intros [|].
      * destruct (pending p); injection Hstep as <-; by intros [|].
      * by injection Hstep as <-.
      * destruct (wg p =? 0)%Z; [|done]. injection Hstep as <-. intros _.
        apply Hp. by left.
    + unfold stepWorker in Hstep.
      destruct (workers p !! i) as [[|url|]|]; try done.
      * destruct (mainPC p) as [k| |url| | |] eqn:Hpc.
        3: { injection Hstep as <-. by intros [|]. }
        all: destruct (closed p); [|done]; by injection Hstep as <-.
      * by injection Hstep as <-.
Qed.

Lemma live_lookup (ws : list WorkerPC) :
  live ws ≠ [] → ∃ i pc, ws !! i = Some pc ∧ pc ≠ Exited.
Proof.
  induction ws as [|pc ws IH]; [done|]. intros Hlive.
  destruct pc as [|url|]; [by exists 0, Receiving|by exists 0, (Scanning url)|].
  destruct IH as (i & pc & Hi & Hpc); [|by exists (S i), pc].
  unfold live in *. by rewrite filter_cons in Hlive.
Qed.

Lemma eventsOf_all (i : nat) (es : list Event) :
  Forall (λ e, workerOf e = i) es → eventsOf i es = es.
Proof.
  intros Hes. unfold eventsOf. induction Hes as [|e es He _ IH]; [done|].
  by rewrite filter_cons_True, IH.
Qed.

Lemma returned_or_not (p : Pool) : mainPC p = Returned ∨ mainPC p ≠ Returned.
Proof. destruct (mainPC p); first [by left|by right]. Qed.

(** With at least one worker, a goroutine can move as long as main has
    not returned. *)
Lemma can_move (c : Z) (tokens : list string) (p : Pool) :
  (1 ≤ c)%Z → invariant c tokens p →
  (mainPC p = Joining ∨ mainPC p = Returned → closed p = true) →
  mainPC p ≠ Returned → ∃ t q, step c t p = Some q.
Proof.
  intros Hc [Hsize Hwg _ _ Hclosed Halive _ _ _] Hlate Hpc.
  destruct (mainPC p) as [k| |url| | |] eqn:Hmain; [| | | | |done].
  - exists MainThread. cbn. unfold stepMain. rewrite Hmain.
    destruct (k <? c)%Z; by eexists.
  - exists MainThread. cbn. unfold stepMain. rewrite Hmain.
    destruct (pending p); by eexists.
  - destruct (workers p) as [|pc ws] eqn:Hws; [cbn in Hsize; lia|].
    exists (WorkerThread 0). cbn. unfold stepWorker. rewrite Hws, Hmain. cbn.
    specialize (Halive Hclosed). apply Forall_cons in Halive as [Hpc0 _].
    destruct pc; [by eexists..|done].
  - exists MainThread. cbn. unfold stepMain. rewrite Hmain. by eexists.
  - destruct (Z.eqb_spec (wg p) 0) as [Hzero|Hwait].
    + exists MainThread. cbn. unfold stepMain. rewrite Hmain.
      destruct (Z.eqb_spec (wg p) 0); [by eexists|done].
    + destruct (live_lookup (workers p)) as (i & pc & Hi & Hrun).
      { intros Hnil. rewrite Hnil in Hwg. by cbn in Hwg. }
      exists (WorkerThread i). cbn. unfold stepWorker. rewrite Hi, Hmain.
      rewrite Hlate by by left. destruct pc; [by eexists..|done].
Qed.

(** With at least one worker, main can return from wherever the pool
    stands. *)
Lemma can_return (c : Z) (tokens : list string) (n : nat) (p : Pool) :
  (1 ≤ c)%Z → invariant c tokens p →
  (mainPC p = Joining ∨ mainPC p = Returned → closed p = true) →
  movesLeft c p = n →
  ∃ rest q, run c rest p = Some q ∧ mainPC q = Returned.
Proof.
  intros Hc. revert p. induction n as [|n IH]; intros p Hinv Hlate Hn.
  - exists [], p. split; [done|]. unfold movesLeft in Hn.
    destruct (mainPC p); cbn [phase] in Hn; by try lia.
  - destruct (returned_or_not p) as [Hpc|Hpc].
    { by exists [], p. }
    destruct (can_move c tokens p Hc Hinv Hlate Hpc) as (t & p' & Hstep).
    destruct (IH p') as (rest & q & Hrun & Hq).
    + by eapply step_invariant.
    + apply (run_closed c [t] p p' Hlate). cbn. by rewrite Hstep.
    + apply step_movesLeft in Hstep. lia.
    + exists (t :: rest), q. cbn. by rewrite Hstep.
Qed.

(** X1.  A run of the goroutines of [main] on [n] tokens with the level
    [c] takes at most [2c + 3n + 4] moves ([c] counted as 0 when it is
    negative): the moves made and the moves left always add up to this
    number, and a run at whose end main has returned has made exactly
    that many. *)
Theorem pool_run_length (concurrency : Z) (input : string)
    (schedule : list Thread) (p : Pool) :
  mainPool concurrency input schedule = Some p →
  (length schedule + movesLeft concurrency p
     = 2 * Z.to_nat concurrency + 3 * length (jobs input) + 4)%nat ∧
  (mainPC p = Returned →
   length schedule = (2 * Z.to_nat concurrency + 3 * length (jobs input) + 4)%nat).
Proof.
  intros Hrun.
  assert (invariant concurrency (jobs input) p) as Hinv.
  { eapply run_invariant; [apply invariant_initial|exact Hrun]. }
  apply run_movesLeft in Hrun. unfold movesLeft at 2 in Hrun.
  cbn [initial mainPC pending workers phase scanning live] in Hrun.
  rewrite Z.sub_0_r in Hrun. cbn in Hrun. split; [lia|].
  intros Hpc.
  destruct (returned_all_scanned _ _ _ Hinv Hpc) as [_ Hexited].
  destruct Hinv as [_ Hwg _ _ Hclosed _ Hret _ _].
  specialize (Hret Hpc). rewrite Hpc in Hclosed.
  assert (live (workers p) = []) as Hlive by (apply length_zero_iff_nil; lia).
  unfold movesLeft in Hrun.
  rewrite Hpc, Hclosed, Hlive, (scanning_live _ Hlive) in Hrun. cbn in Hrun. lia.
Qed.

Lemma pool_run_length_witness :
  length overtaking = (2 * Z.to_nat 2 + 3 * length (jobs "http://x/?a=1
http://x/?b=2
") + 4)%nat.
Proof.
  apply (pool_run_length 2 "http://x/?a=1
http://x/?b=2
" overtaking
           (mkPool Returned [] true 0 [Exited; Exited]
              [Took 0 "http://x/?a=1"; Took 1 "http://x/?b=2";
               Scanned 1 "http://x/?b=2"; Scanned 0 "http://x/?a=1"]));
    reflexivity.
Defined.

(** X2.  With a concurrency level of at least 1 and a client that has a
    deadline the pool has no deadlock, whatever the network does: in
    every state that a run with its scans reaches, either main has
    returned or some goroutine can move, and the run can be continued to
    the return of main.  (Without the deadline a scan that waits for a
    reply keeps its worker, and main, for ever.) *)
Theorem pool_never_stuck `{NetURL.URLSyntax} (out : Outside) (s : Scanner)
    (concurrency : Z) (input : string) (schedule : list Thread) (st : System) :
  (1 ≤ concurrency)%Z →
  is_Some (clientDeadline (client s)) →
  mainSystem out s concurrency input schedule = Some st →
  (mainPC (pool st) = Returned
   ∨ ∃ t st', stepSystem out s concurrency t st = Some st') ∧
  ∃ rest st',
    runSystem out s concurrency rest st = Some st' ∧ mainPC (pool st') = Returned.
Proof.
  intros Hc Hdeadline Hsys.
  pose proof (runSystem_pool out s concurrency schedule _ st Hsys) as Hrun.
  cbn [pool] in Hrun.
  pose proof (deadline_neverStalls out s Hdeadline) as Hnever.
  assert (invariant concurrency (jobs input) (pool st)) as Hinv.
  { eapply run_invariant; [apply invariant_initial|exact Hrun]. }
  assert (mainPC (pool st) = Joining ∨ mainPC (pool st) = Returned →
          closed (pool st) = true) as Hlate.
  { eapply run_closed; [|exact Hrun]. by intros [|]. }
  split.
  - destruct (returned_or_not (pool st)) as [Hpc|Hpc]; [by left|right].
    destruct (can_move concurrency (jobs input) (pool st) Hc Hinv Hlate Hpc)
      as (t & q & Hstep).
    destruct (stepSystem_lift out s concurrency t st q Hnever Hstep) as (st' & Hst' & _).
    by exists t, st'.
  - destruct (can_return concurrency (jobs input) (movesLeft concurrency (pool st))
                (pool st) Hc Hinv Hlate eq_refl) as (rest & q & Hrest & Hq).
    destruct (runSystem_lift out s concurrency rest st q Hnever Hrest)
      as (st' & Hst' & Hpool).
    exists rest, st'. by rewrite Hpool.
Qed.

Lemma pool_never_stuck_witness :
  ∃ st,
    mainSystem (mkOutside (λ _, server (inr (errorString "context deadline exceeded"))
                           (inr (errorString "context deadline exceeded")))
           (λ _ _, true))
      (scannerOf (options 15 true false)) 2 "http://x/?a=1
http://x/?b=2
" [MainThread; MainThread; MainThread; MainThread; WorkerThread 0; MainThread]
      = Some st ∧
    ∃ rest st',
      runSystem (mkOutside (λ _, server (inr (errorString "context deadline exceeded"))
                           (inr (errorString "context deadline exceeded")))
           (λ _ _, true))
        (scannerOf (options 15 true false)) 2 rest st = Some st' ∧
      mainPC (pool st') = Returned.
Proof.
  eexists. split; [vm_compute; reflexivity|].
  apply (pool_never_stuck
           (mkOutside (λ _, server (inr (errorString "context deadline exceeded"))
                           (inr (errorString "context deadline exceeded")))
           (λ _ _, true))
           (scannerOf (options 15 true false)) 2 "http://x/?a=1
http://x/?b=2
" [MainThread; MainThread; MainThread; MainThread; WorkerThread 0; MainThread]);
    [lia|by eexists|vm_compute; reflexivity].
Defined.

(** X3.  With a concurrency level of 1 the URLs are scanned in the order
    of the input: in every state of a run, the URLs whose scan has
    returned, the one under scan if any, the one main is sending if any
    and the ones still to be read are the input, in this order. *)
Theorem single_worker_keeps_order (input : string) (schedule : list Thread)
    (p : Pool) :
  mainPool 1 input schedule = Some p →
  scanned (events p) ++ scanning (workers p) ++ inFlight (mainPC p) ++ pending p
    = jobs input.
Proof.
  intros Hrun.
  assert (invariant 1 (jobs input) p) as Hinv.
  { eapply run_invariant; [apply invariant_initial|exact Hrun]. }
  destruct Hinv as [Hsize _ Hqueue _ _ _ _ Hrounds Hev].
  assert (length (workers p) ≤ 1)%nat as Hone.
  { destruct (mainPC p); lia. }
  rewrite <-Hqueue, (assoc_L (++)). f_equal.
  destruct (workers p) as [|pc [|pc' ws]] eqn:Hws; [| |cbn in Hone; lia].
  - destruct (events p) as [|e es]; [done|].
    apply Forall_cons in Hev as [He _]. cbn in He. lia.
  - destruct (Hrounds 0 pc) as (urls & Hurls); [done|].
    assert (eventsOf 0 (events p) = events p) as Hall.
    { apply eventsOf_all. eapply Forall_impl; [exact Hev|]. cbn. lia. }
    rewrite Hall in Hurls. rewrite Hurls. unfold taken, scanned.
    rewrite !omap_app. fold (taken (rounds 0 urls)) (scanned (rounds 0 urls)).
    rewrite taken_rounds, scanned_rounds.
    destruct pc; cbn; by rewrite ?app_nil_r.
Qed.

Lemma single_worker_keeps_order_witness :
  scanned [Took 0 "http://x/?a=1"; Scanned 0 "http://x/?a=1"; Took 0 "http://x/?b=2"]
    ++ scanning [Scanning "http://x/?b=2"] ++ inFlight Reading ++ []
  = jobs "http://x/?a=1
http://x/?b=2
".
Proof.
  apply (single_worker_keeps_order "http://x/?a=1
http://x/?b=2
" [MainThread; MainThread; MainThread; WorkerThread 0; WorkerThread 0;
   MainThread; WorkerThread 0]
     (mkPool Reading [] false 1 [Scanning "http://x/?b=2"]
        [Took 0 "http://x/?a=1"; Scanned 0 "http://x/?a=1"; Took 0 "http://x/?b=2"])).
  reflexivity.
Defined.

(** X15.  With a concurrency level of zero or less and at least one line
    of input the command hangs: main leaves the loop that starts the
    workers, reads the first URL and waits to send it; in that state no
    goroutine can move, and no run gets anywhere else, so main never
    returns. *)
Theorem no_worker_deadlock (concurrency : Z) (input url : string)
    (rest : list string) :
  (concurrency ≤ 0)%Z →
  jobs input = url :: rest →
  mainPool concurrency input [MainThread; MainThread]
    = Some (mkPool (Sending url) rest false 0 [] []) ∧
  (∀ t, step concurrency t (mkPool (Sending url) rest false 0 [] []) = None) ∧
  (∀ schedule p,
     mainPool concurrency input schedule = Some p →
     schedule `prefix_of` [MainThread; MainThread] ∧ mainPC p ≠ Returned).
Proof.
  intros Hc Hjobs. unfold mainPool. rewrite Hjobs.
  assert ((0 <? concurrency)%Z = false) as Hlt by lia.
  split_and!.
  - cbn. by rewrite Hlt.
  - by intros [|i].
  - intros schedule p.
    destruct schedule as [|[|i] [|[|j] [|[|k] schedule]]]; cbn; rewrite ?Hlt; cbn;
      intros [= <-]; (split; [|done]).
    + by exists [MainThread; MainThread].
    + by exists [MainThread].
    + by exists [].
Qed.

Lemma no_worker_deadlock_witness :
  mainPool 0 "http://x/?a=1
http://x/?b=2
" [MainThread; MainThread]
    = Some (mkPool (Sending "http://x/?a=1") ["http://x/?b=2"] false 0 [] []).
Proof.
  apply (no_worker_deadlock 0 "http://x/?a=1
http://x/?b=2
" "http://x/?a=1" ["http://x/?b=2"]); [lia|reflexivity].
Defined.

End PoolProperties.

(* ===================================================================== *)
(** * The scenarios of the specification, run *)
(* ===================================================================== *)

Module Scenarios.
Import Strings NetURL Utils Scanner Notions ScanNotions Main PoolNotions.

(** Scenario A: one query parameter, one candidate. *)
Example scenario_A :
  GenerateTargetURLs (order (server (inl "") (inl "")) 0)
    "http://x/search?q=1" "rix4uni" = inl ["http://x/search?q=rix4uni"].
Proof. vm_compute. reflexivity. Qed.

(** Scenarios B, C and D: the three verdicts. *)
Example scenario_B :
  Spec.classify "<p><rix4uni<</p>" "rix4uni" "<" (conversions !! "<")
    = Spec.VAllowed.
Proof. vm_compute. reflexivity. Qed.

Example scenario_C :
  Spec.classify "<p>rix4uni&lt;</p>" "rix4uni" "<" (conversions !! "<")
    = Spec.VConverted "&lt;".
Proof. vm_compute. reflexivity. Qed.

Example scenario_D :
  Spec.classify "<p>rix4uni</p>" "rix4uni" dquote (conversions !! dquote)
    = Spec.VBlocked.
Proof. vm_compute. reflexivity. Qed.

(** A scan with [--json] of an input whose candidate reflects the marker
    and turns [<] into its entity: one record, with the three arrays and
    their counts. *)
Example a_record :
  stdout (Scan (server (inl "<p>rix4uni&lt;</p>") (inl ""))
            (scannerOf (options 15 true false))
            "http://x/search?q=1" emptyWorld).2 =
    [PrintlnJSON
       (JObject
          [("processing", JString "http://x/search?q=1");
           ("baseurl", JString "http://x/search?q=rix4uni");
           ("reflected", JBool true);
           ("allowed", JArray []);
           ("blocked",
            JArray (JString <$> ["'"; dquote; ">"; "("; ")"; "`"; "{"; "}";
                                 "/"; "\"; ";"]));
           ("converted", JArray [JString "< ➔ &lt;"]);
           ("count",
            JObject [("allowed", JNumber 0); ("blocked", JNumber 11);
                     ("converted", JNumber 1)])])].
Proof. vm_compute. reflexivity. Qed.

(** Scenario E: the marker shows in the rendered document only; after the
    static fetch every operation is a render. *)
Example scenario_E :
  channel <$> calls (Scan (server (inl "<p></p>") (inl "<p>rix4uni</p>"))
                       (scannerOf (options 15 true false))
                       "http://x/search?q=1" emptyWorld).2
    = Static :: replicate 13 Rendering.
Proof. vm_compute. reflexivity. Qed.

(** Scenario F: no parameter and no placeholder; nothing is fetched and
    with [--json] nothing is written. *)
Example scenario_F :
  let w := (Scan (server (inl "<p>rix4uni</p>") (inl ""))
              (scannerOf (options 15 true false))
              "http://x/static/page" emptyWorld).2 in
  calls w = [] ∧ stdout w = [].
Proof. split; vm_compute; reflexivity. Qed.

(** The limit of [net/url] on the number of parameters: a query of 10000
    parameters is taken, one of 10001 is refused and the generator finds
    no injection point. *)
Example at_the_parameter_limit :
  GenerateTargetURLs sameOrder (manyParams 10000) "rix4uni"
    = inl ["http://x/?a=rix4uni"].
Proof. vm_compute. reflexivity. Qed.

Example beyond_the_parameter_limit :
  GenerateTargetURLs sameOrder (manyParams 10001) "rix4uni"
    = inr (errorString "no injection points found").
Proof. vm_compute. reflexivity. Qed.

(** A run with [--timeout 0], which leaves the client without deadline,
    on a server that never answers: the worker stays in its scan, main
    waits for it at [wg.Wait()], and no goroutine can move. *)
Example a_scan_without_deadline_hangs :
  ∃ st,
    mainSystem (mkOutside (λ _, server (inl "") (inl "")) (λ _ _, true))
      (scannerOf (options 0 true false)) 1 "http://x/?a=1
" [MainThread; MainThread; MainThread; WorkerThread 0; MainThread; MainThread]
      = Some st ∧
    mainPC (pool st) = Joining ∧
    workers (pool st) = [Scanning "http://x/?a=1"] ∧
    ∀ t, stepSystem (mkOutside (λ _, server (inl "") (inl "")) (λ _ _, true))
           (scannerOf (options 0 true false)) 1 t st = None.
Proof.
  eexists. split; [vm_compute; reflexivity|]. split_and!; [done..|].
  intros [|[|i]]; vm_compute; reflexivity.
Qed.

(** The same run with the default timeout: the fetch that is not
    answered ends at its deadline with an error, and the worker goes on. *)
Example a_scan_with_deadline_returns :
  ∃ st st',
    mainSystem
      (mkOutside (λ _, server (inr (errorString "context deadline exceeded"))
                         (inr (errorString "context deadline exceeded")))
         (λ _ _, true))
      (scannerOf (options 15 true false)) 1 "http://x/?a=1
" [MainThread; MainThread; MainThread; WorkerThread 0; MainThread; MainThread]
      = Some st ∧
    stepSystem
      (mkOutside (λ _, server (inr (errorString "context deadline exceeded"))
                         (inr (errorString "context deadline exceeded")))
         (λ _ _, true))
      (scannerOf (options 15 true false)) 1 (WorkerThread 0) st = Some st' ∧
    workers (pool st') = [Receiving] ∧
    length <$> (calls <$> worlds st') = [1].
Proof.
  eexists. eexists. split; [vm_compute; reflexivity|].
  split; [vm_compute; reflexivity|]. split; vm_compute; reflexivity.
Qed.

End Scenarios.

